(** * pixi-live2d-display: the Cubism 2 adapter and the factory pipeline

    A shallow embedding of
      - [src/cubism2/Cubism2MotionManager.ts]
      - [src/cubism2/Cubism2InternalModel.ts]
      - [src/factory/Live2DFactory.ts]

    Conventions.
      - A JavaScript [number] is a real number ([R]): rounding, NaN and the
        infinities are not modelled, except the rounding of a store into
        a [Float32Array], which is a function [fround].  [Math.sin] is
        [sin], [Math.PI] is [PI].
      - The Cubism 2 core ([Live2DModelWebGL], [MotionQueueManager]) is a
        sealed dependency.  It enters as an interface (a type class) whose
        laws are the contract its method names state; a reference instance
        shows the interface is inhabited.
      - Methods that mutate [this] pass the object explicitly and return the
        new one; every call made on a collaborator is appended to a trace.
      - A plain object used as a map ([tasks = {}]) answers to the names of
        [Object.prototype] as well as to its own: the objects reached that
        way, and the indexed properties stored on them, are part of the
        state.  What a [destroy] event passes to its listeners is decided
        by the emitter, outside these files: it is a parameter.
      - A promise is named by a number and has a state; the settling of a
        load is an event that runs the callbacks attached to it.  The
        middleware chain runs in sequence; the one callback that runs
        beside it (the one that emits "ready") is a transition that may
        fire at any moment once it is enabled. *)

From Stdlib Require Import Reals Lra ZArith List String Bool Sorted.
From stdpp Require Import gmap strings list fin_maps pretty.

(** JavaScript numbers. *)
Definition number : Type := R.

(** Membership in a list of comparable values, settled by computation. *)
Lemma not_elem_of_decide {A : Type} `{EqDecision A} (x : A) (l : list A) :
  bool_decide (x ∈ l) = false -> x ∈ l -> False.
Proof. intros Hd Hin. apply bool_decide_eq_false_1 in Hd. contradiction. Qed.

(* ===================================================================== *)
(** * The Cubism 2 core, as the adapter sees it *)
(* ===================================================================== *)

Module Core.

(** Addresses of [Float32Array] buffers and the store that holds them. *)
Abbreviation loc := nat.
Abbreviation Heap := (gmap nat (list number)).

(** [Live2DModelWebGL]: the parameter store and the drawable tables. *)
Class Live2DModelWebGL (core : Type) : Type := {
  getParamFloat : core -> Z -> number;
  setParamFloat : Z -> number -> core -> core;
  addToParamFloat : Z -> number -> core -> core;
  saveParam : core -> core;
  loadParam : core -> core;
  modelUpdate : core -> core;
  getDrawDataIndex : core -> string -> Z;
  getTransformedPoints : core -> Z -> loc;
  getParamFloat_setParamFloat : forall c i v j,
    getParamFloat (setParamFloat i v c) j
    = if Z.eqb j i then v else getParamFloat c j;
  getParamFloat_addToParamFloat : forall c i v j,
    getParamFloat (addToParamFloat i v c) j
    = if Z.eqb j i then (getParamFloat c j + v)%R else getParamFloat c j;
}.

(** [Live2DMotion]: a clip with its two fade durations and its finish
    handler.  [setFadeIn], [setFadeOut] are the core's setters. *)
Record Live2DMotion : Type := mkMotion {
  motionData : list Z;
  fadeIn : number;
  fadeOut : number;
  onFinishHandler : option nat;
}.

Definition setFadeIn (v : number) (m : Live2DMotion) : Live2DMotion :=
  mkMotion (motionData m) v (fadeOut m) (onFinishHandler m).

Definition setFadeOut (v : number) (m : Live2DMotion) : Live2DMotion :=
  mkMotion (motionData m) (fadeIn m) v (onFinishHandler m).

Definition setOnFinishHandler (h : option nat) (m : Live2DMotion) : Live2DMotion :=
  mkMotion (motionData m) (fadeIn m) (fadeOut m) h.

(** [MotionQueueManager]: the core's queue of playing motions.
    [motions] observes the entries it holds; [updateParam] applies them to
    a model and may only drop entries (those that finished). *)
Class MotionQueueManager (queue core : Type) : Type := {
  newQueue : queue;
  motions : queue -> list Live2DMotion;
  stopAllMotions : queue -> queue;
  startMotion : Live2DMotion -> queue -> Z * queue;
  updateParam : queue -> core -> bool * queue * core;
  motions_newQueue : motions newQueue = [];
  motions_stopAllMotions : forall q, motions (stopAllMotions q) = [];
  motions_startMotion : forall m q,
    motions (startMotion m q).2 = motions q ++ [m];
  motions_updateParam : forall q c,
    sublist (motions (updateParam q c).1.2) (motions q);
}.

End Core.

(* ===================================================================== *)
(** * src/cubism2/Cubism2MotionManager.ts *)
(* ===================================================================== *)

Module MotionManager2.
Import Core.

(** [Cubism2Spec.Motion]: an entry of the settings' motion table; the two
    fade durations are optional. *)
Record MotionSpec : Type := mkMotionSpec {
  file : string;
  sound : option string;
  fade_in : option number;
  fade_out : option number;
}.

(** [v! > 0 ? v! : d] on an optional number: [undefined > 0] is false. *)
Definition positive_or (v : option number) (d : number) : number :=
  match v with
  | Some x => if Rlt_dec 0 x then x else d
  | None => d
  end.

Section Manager.
Context {queue core : Type} `{MotionQueueManager queue core}.

(** [MOTION_FADING_DURATION] of [cubism-common/constants] and the core's
    static [Live2DMotion.loadMotion]. *)
Variable MOTION_FADING_DURATION : number.
Variable Live2DMotion_loadMotion : list Z -> Live2DMotion.

Record Cubism2MotionManager : Type := mkManager {
  definitions : gmap string (list MotionSpec);
  queueManager : queue;
}.

Definition set_queueManager (q : queue) (mgr : Cubism2MotionManager) :=
  mkManager (definitions mgr) q.

(** The constructor: [queueManager = new MotionQueueManager()]. *)
Definition new_manager (defs : gmap string (list MotionSpec)) : Cubism2MotionManager :=
  mkManager defs newQueue.

Definition createMotion (data : list Z) (definition : MotionSpec) : Live2DMotion :=
  let motion := Live2DMotion_loadMotion data in
  let motion := setFadeIn (positive_or (fade_in definition) MOTION_FADING_DURATION) motion in
  let motion := setFadeOut (positive_or (fade_out definition) MOTION_FADING_DURATION) motion in
  motion.

Definition getMotionFile (definition : MotionSpec) : string := file definition.
Definition getSoundFile (definition : MotionSpec) : option string := sound definition.

Definition _startMotion (motion : Live2DMotion) (onFinish : option nat)
    (mgr : Cubism2MotionManager) : Z * Cubism2MotionManager :=
  let motion := setOnFinishHandler onFinish motion in
  let q := stopAllMotions (queueManager mgr) in
  let r := startMotion motion q in
  (r.1, set_queueManager r.2 mgr).

Definition _stopAllMotions (mgr : Cubism2MotionManager) : Cubism2MotionManager :=
  set_queueManager (stopAllMotions (queueManager mgr)) mgr.

Definition updateMotion (mgr : Cubism2MotionManager) (model : core) (now : number)
    : bool * Cubism2MotionManager * core :=
  let r := updateParam (queueManager mgr) model in
  (r.1.1, set_queueManager r.1.2 mgr, r.2).

(** The managers that the constructor and the three queue-touching
    methods can produce. *)
Inductive reachable : Cubism2MotionManager -> Prop :=
| reach_new defs : reachable (new_manager defs)
| reach_start motion onFinish mgr :
    reachable mgr -> reachable (_startMotion motion onFinish mgr).2
| reach_stop mgr :
    reachable mgr -> reachable (_stopAllMotions mgr)
| reach_update mgr model now :
    reachable mgr -> reachable (updateMotion mgr model now).1.2.

Definition playing (mgr : Cubism2MotionManager) : list Live2DMotion :=
  motions (queueManager mgr).

End Manager.

(** A reference queue: the list of playing motions; [updateParam] drops the
    motions whose clip is exhausted and reports whether any is left. *)
Section Reference.
Variable core : Type.

Definition alive (m : Live2DMotion) : bool :=
  negb (Nat.eqb (length (motionData m)) 0).

Definition ref_updateParam (q : list Live2DMotion) (c : core)
    : bool * list Live2DMotion * core :=
  let q' := List.filter alive q in
  (negb (Nat.eqb (length q') 0), q', c).

Lemma ref_updateParam_sublist q c : sublist (ref_updateParam q c).1.2 q.
Proof.
  unfold ref_updateParam; simpl.
  induction q as [|m q IH]; simpl; [constructor|].
  destruct (alive m); [by apply sublist_skip | by apply sublist_cons].
Qed.

#[export] Instance ref_queue : MotionQueueManager (list Live2DMotion) core := {|
  newQueue := [];
  motions := fun q => q;
  stopAllMotions := fun _ => [];
  startMotion := fun m q => (Z.of_nat (length q), q ++ [m]);
  updateParam := ref_updateParam;
  motions_newQueue := eq_refl;
  motions_stopAllMotions := fun _ => eq_refl;
  motions_startMotion := fun _ _ => eq_refl;
  motions_updateParam := ref_updateParam_sublist;
|}.
End Reference.

(** ** Properties of the motion manager *)

Section ManagerFacts.
Context {queue core : Type} `{MotionQueueManager queue core}.

Lemma positive_or_gt (x d : number) : (0 < x)%R -> positive_or (Some x) d = x.
Proof. intros Hx. unfold positive_or. destruct (Rlt_dec 0 x); [reflexivity | contradiction]. Qed.

Lemma positive_or_le (x d : number) : (x <= 0)%R -> positive_or (Some x) d = d.
Proof. intros Hx. unfold positive_or. destruct (Rlt_dec 0 x); [lra | reflexivity]. Qed.

Lemma playing_startMotion motion onFinish (mgr : @Cubism2MotionManager queue) :
  playing (_startMotion motion onFinish mgr).2 = [setOnFinishHandler onFinish motion].
Proof.
  unfold playing, _startMotion; simpl.
  rewrite motions_startMotion, motions_stopAllMotions. reflexivity.
Qed.

Lemma reachable_at_most_one (mgr : @Cubism2MotionManager queue) :
  reachable mgr -> length (playing mgr) <= 1.
Proof.
  induction 1 as [defs | motion onFinish mgr _ _ | mgr _ _ | mgr model now _ IH].
  - unfold playing; simpl. rewrite motions_newQueue. simpl; lia.
  - rewrite playing_startMotion. simpl; lia.
  - unfold playing; simpl. rewrite motions_stopAllMotions. simpl; lia.
  - unfold playing in *; simpl.
    pose proof (sublist_length _ _ (motions_updateParam (queueManager mgr) model)) as Hs.
    lia.
Qed.

End ManagerFacts.

(** C6. [createMotion] gives the new motion the definition's [fade_in] as its
    fade-in duration when that number is strictly positive, and
    [MOTION_FADING_DURATION] when it is zero, negative or absent; the
    fade-out duration follows [fade_out] in the same way. *)
Theorem createMotion_fade_durations
    (MOTION_FADING_DURATION : number) (loadMotion : list Z -> Live2DMotion)
    (data : list Z) (definition : MotionSpec) :
  let motion := createMotion MOTION_FADING_DURATION loadMotion data definition in
  (forall x, fade_in definition = Some x ->
     ((0 < x)%R -> fadeIn motion = x) /\
     ((x <= 0)%R -> fadeIn motion = MOTION_FADING_DURATION)) /\
  (fade_in definition = None -> fadeIn motion = MOTION_FADING_DURATION) /\
  (forall x, fade_out definition = Some x ->
     ((0 < x)%R -> fadeOut motion = x) /\
     ((x <= 0)%R -> fadeOut motion = MOTION_FADING_DURATION)) /\
  (fade_out definition = None -> fadeOut motion = MOTION_FADING_DURATION) /\
  motionData motion = motionData (loadMotion data).
Proof.
  unfold createMotion; simpl.
  split; [|split; [|split; [|split]]].
  - intros x Hin. rewrite Hin. split; intros Hx.
    + apply positive_or_gt, Hx.
    + apply positive_or_le, Hx.
  - intros ->. reflexivity.
  - intros x Hout. rewrite Hout. split; intros Hx.
    + apply positive_or_gt, Hx.
    + apply positive_or_le, Hx.
  - intros ->. reflexivity.
  - reflexivity.
Qed.

(** A definition with [fade_in = 0] and [fade_out = 2000], under a default
    of 500: the fade-in falls back to the default, the fade-out is kept. *)
Example createMotion_fade_example :
  let d := mkMotionSpec "idle_00.mtn" None (Some 0%R) (Some 2000%R) in
  let m := createMotion 500%R (fun data => mkMotion data 1000%R 1000%R None) [1%Z] d in
  fadeIn m = 500%R /\ fadeOut m = 2000%R.
Proof.
  simpl. unfold createMotion; simpl. split.
  - apply positive_or_le. lra.
  - apply positive_or_gt. lra.
Qed.

(** C8. [_startMotion] hands the queue manager a queue on which
    [stopAllMotions] ran first; afterwards the queue holds the new motion
    and nothing else, and no manager reachable through the constructor,
    [_startMotion], [_stopAllMotions] and [updateMotion] ever holds more
    than one motion. *)
Theorem startMotion_holds_only_new_motion
    {queue core : Type} `{MotionQueueManager queue core}
    (motion : Live2DMotion) (onFinish : option nat)
    (mgr : @Cubism2MotionManager queue) :
  let started := setOnFinishHandler onFinish motion in
  let after := (_startMotion motion onFinish mgr).2 in
  queueManager after = (startMotion started (stopAllMotions (queueManager mgr))).2 /\
  playing after = [started] /\
  (forall mgr' : @Cubism2MotionManager queue, reachable mgr' -> length (playing mgr') <= 1).
Proof.
  simpl. split; [reflexivity|]. split.
  - apply playing_startMotion.
  - apply reachable_at_most_one.
Qed.

(** The reference queue, two motions started one after the other: only the
    second is held. *)
Lemma startMotion_holds_only_new_motion_witness :
  let m1 := mkMotion [1%Z] 0%R 0%R None in
  let m2 := mkMotion [2%Z] 0%R 0%R None in
  let mgr0 : @Cubism2MotionManager (list Live2DMotion) := new_manager (core:=unit) ∅ in
  let mgr1 := (_startMotion (core:=unit) m1 None mgr0).2 in
  let mgr2 := (_startMotion (core:=unit) m2 (Some 7) mgr1).2 in
  playing (core:=unit) mgr1 = [m1] /\
  playing (core:=unit) mgr2 = [setOnFinishHandler (Some 7) m2] /\
  reachable (core:=unit) mgr2.
Proof.
  intros m1 m2 mgr0 mgr1 mgr2. split; [|split].
  - exact (proj1 (proj2 (startMotion_holds_only_new_motion (core:=unit) m1 None mgr0))).
  - exact (proj1 (proj2 (startMotion_holds_only_new_motion (core:=unit) m2 (Some 7) mgr1))).
  - apply reach_start, reach_start, reach_new.
Defined.

(** ** Further properties of the motion manager *)

Lemma positive_or_positive (v : option number) (d : number) :
  (0 < d)%R -> (0 < positive_or v d)%R.
Proof.
  intros Hd. unfold positive_or. destruct v as [x|]; [|exact Hd].
  destruct (Rlt_dec 0 x); assumption.
Qed.

(** X24. With a strictly positive [MOTION_FADING_DURATION], every motion
    that [createMotion] returns has strictly positive fade-in and fade-out
    durations, whatever the definition holds: a zero or negative duration
    never reaches the core. *)
Theorem createMotion_fades_are_positive
    (MOTION_FADING_DURATION : number) (loadMotion : list Z -> Live2DMotion)
    (data : list Z) (definition : MotionSpec) :
  (0 < MOTION_FADING_DURATION)%R ->
  let motion := createMotion MOTION_FADING_DURATION loadMotion data definition in
  (0 < fadeIn motion)%R /\ (0 < fadeOut motion)%R.
Proof.
  intros Hd. unfold createMotion; simpl. split; by apply positive_or_positive.
Qed.

Lemma createMotion_fades_are_positive_witness :
  let d := mkMotionSpec "idle_00.mtn" None (Some (-1)%R) None in
  let m := createMotion 500%R (fun data => mkMotion data 0%R 0%R None) [1%Z] d in
  (0 < fadeIn m)%R /\ (0 < fadeOut m)%R.
Proof.
  apply (createMotion_fades_are_positive 500%R). lra.
Defined.

Section StartedMotion.
Context {queue core : Type} `{MotionQueueManager queue core}.

(** The managers reached from a [_startMotion] of [motion] by updates
    alone. *)
Inductive updated_since_start (started : Live2DMotion)
    : @Cubism2MotionManager queue -> Prop :=
| since_start motion onFinish mgr :
    started = setOnFinishHandler onFinish motion ->
    updated_since_start started (_startMotion motion onFinish mgr).2
| since_update mgr model now :
    updated_since_start started mgr ->
    updated_since_start started (updateMotion mgr model now).1.2.

Lemma sublist_singleton (m : Live2DMotion) (l : list Live2DMotion) :
  sublist l [m] -> l = [] \/ l = [m].
Proof.
  intros Hs. inversion Hs as [|x l1 l2 Hrest|x l1 l2 Hrest]; subst.
  - right. apply sublist_nil_r in Hrest as ->. reflexivity.
  - left. by apply sublist_nil_r.
Qed.

(** X25. Updates never bring a stopped motion back: from a [_startMotion]
    on, as long as only [updateMotion] runs, the queue holds the motion
    that was started, with the finish handler it was given, or nothing. *)
Theorem update_keeps_only_started_motion
    (started : Live2DMotion) (mgr : @Cubism2MotionManager queue) :
  updated_since_start started mgr ->
  playing mgr = [] \/ playing mgr = [started].
Proof.
  intros Hu. apply sublist_singleton.
  induction Hu as [motion onFinish mgr -> | mgr model now _ IH].
  - rewrite playing_startMotion. reflexivity.
  - unfold playing in *; simpl.
    etrans; [apply motions_updateParam | exact IH].
Qed.

End StartedMotion.

(** The reference queue: a motion with an exhausted clip is dropped by the
    update, and the motion started before it does not come back. *)
Lemma update_keeps_only_started_motion_witness :
  let m1 := mkMotion [1%Z] 0%R 0%R None in
  let m2 := mkMotion [] 0%R 0%R None in
  let mgr0 : @Cubism2MotionManager (list Live2DMotion) := new_manager (core:=unit) ∅ in
  let mgr1 := (_startMotion (core:=unit) m1 None mgr0).2 in
  let mgr2 := (_startMotion (core:=unit) m2 None mgr1).2 in
  let mgr3 := (updateMotion (core:=unit) mgr2 tt 0%R).1.2 in
  playing (core:=unit) mgr3 = [] /\
  (playing (core:=unit) mgr3 = [] \/ playing (core:=unit) mgr3 = [m2]).
Proof.
  intros m1 m2 mgr0 mgr1 mgr2 mgr3. split; [reflexivity|].
  apply (update_keeps_only_started_motion (core:=unit) m2 mgr3).
  apply since_update. by apply (since_start m2 m2 None).
Defined.

End MotionManager2.

(* ===================================================================== *)
(** * src/cubism2/Cubism2InternalModel.ts *)
(* ===================================================================== *)

Module InternalModel2.
Import Core.

(** The base class's focus controller: the two values [updateFocus] reads. *)
Record FocusController : Type := mkFocus {
  focus_x : number;
  focus_y : number;
}.

(** What [update] and its helpers do to their collaborators, in order. *)
Inductive Call : Type :=
| SuperUpdate (dt now : number)
| Emit (event : string)
| MotionManagerUpdate (now : number)
| SaveParam
| EyeBlinkUpdate (dt : number)
| AddToParamFloat (index : Z) (value : number)
| SetParamFloat (index : Z) (value : number)
| PhysicsUpdate (now : number)
| PoseUpdate (dt : number)
| ModelUpdate
| LoadParam.

(** The argument of [getDrawableVertices]: [number | string]. *)
Inductive DrawIndex : Type :=
| ByIndex (index : Z)
| ById (id : string).

Inductive Outcome (A : Type) : Type :=
| Returned (a : A)
| ThrownTypeError (message : string).
Arguments Returned {A} a.
Arguments ThrownTypeError {A} message.

(** [Float32Array.prototype.slice()]: a new buffer with the same elements. *)
Definition slice (l : loc) (h : Heap) : loc * Heap :=
  let l' := fresh (dom h) in
  (l', <[l' := default [] (h !! l)]> h).

Section Model.
Context {core : Type} `{Live2DModelWebGL core}.

(** The collaborators whose code is outside this file: the motion manager's
    [update] (base class [MotionManager]), [Live2DEyeBlink], [Live2DPhysics],
    [Live2DPose], and [InternalModel.update] of the base class.  Each acts on
    its own state and on the core model it was given. *)
Context {MotionManager EyeBlink Physics Pose : Type}.
Variable MotionManager_update : MotionManager -> core -> number -> bool * MotionManager * core.
Variable EyeBlink_update : EyeBlink -> number -> core -> EyeBlink * core.
Variable Physics_update : Physics -> number -> core -> Physics * core.
Variable Pose_update : Pose -> number -> core -> Pose * core.
Variable InternalModel_update : FocusController -> number -> number -> FocusController.

Record Cubism2InternalModel : Type := mkModel {
  coreModel : core;
  motionManager : MotionManager;
  eyeBlink : option EyeBlink;
  physics : option Physics;
  pose : option Pose;
  focusController : FocusController;
  eyeballXParamIndex : Z;
  eyeballYParamIndex : Z;
  angleXParamIndex : Z;
  angleYParamIndex : Z;
  angleZParamIndex : Z;
  bodyAngleXParamIndex : Z;
  breathParamIndex : Z;
  calls : list Call;
}.

Definition set_coreModel (c : core) (m : Cubism2InternalModel) : Cubism2InternalModel :=
  mkModel c (motionManager m) (eyeBlink m) (physics m) (pose m) (focusController m)
    (eyeballXParamIndex m) (eyeballYParamIndex m) (angleXParamIndex m) (angleYParamIndex m)
    (angleZParamIndex m) (bodyAngleXParamIndex m) (breathParamIndex m) (calls m).

Definition set_motionManager (mm : MotionManager) (m : Cubism2InternalModel)
    : Cubism2InternalModel :=
  mkModel (coreModel m) mm (eyeBlink m) (physics m) (pose m) (focusController m)
    (eyeballXParamIndex m) (eyeballYParamIndex m) (angleXParamIndex m) (angleYParamIndex m)
    (angleZParamIndex m) (bodyAngleXParamIndex m) (breathParamIndex m) (calls m).

Definition set_eyeBlink (e : option EyeBlink) (m : Cubism2InternalModel) : Cubism2InternalModel :=
  mkModel (coreModel m) (motionManager m) e (physics m) (pose m) (focusController m)
    (eyeballXParamIndex m) (eyeballYParamIndex m) (angleXParamIndex m) (angleYParamIndex m)
    (angleZParamIndex m) (bodyAngleXParamIndex m) (breathParamIndex m) (calls m).

Definition set_physics (p : option Physics) (m : Cubism2InternalModel) : Cubism2InternalModel :=
  mkModel (coreModel m) (motionManager m) (eyeBlink m) p (pose m) (focusController m)
    (eyeballXParamIndex m) (eyeballYParamIndex m) (angleXParamIndex m) (angleYParamIndex m)
    (angleZParamIndex m) (bodyAngleXParamIndex m) (breathParamIndex m) (calls m).

Definition set_pose (p : option Pose) (m : Cubism2InternalModel) : Cubism2InternalModel :=
  mkModel (coreModel m) (motionManager m) (eyeBlink m) (physics m) p (focusController m)
    (eyeballXParamIndex m) (eyeballYParamIndex m) (angleXParamIndex m) (angleYParamIndex m)
    (angleZParamIndex m) (bodyAngleXParamIndex m) (breathParamIndex m) (calls m).

Definition set_focusController (f : FocusController) (m : Cubism2InternalModel)
    : Cubism2InternalModel :=
  mkModel (coreModel m) (motionManager m) (eyeBlink m) (physics m) (pose m) f
    (eyeballXParamIndex m) (eyeballYParamIndex m) (angleXParamIndex m) (angleYParamIndex m)
    (angleZParamIndex m) (bodyAngleXParamIndex m) (breathParamIndex m) (calls m).

Definition log (c : Call) (m : Cubism2InternalModel) : Cubism2InternalModel :=
  mkModel (coreModel m) (motionManager m) (eyeBlink m) (physics m) (pose m) (focusController m)
    (eyeballXParamIndex m) (eyeballYParamIndex m) (angleXParamIndex m) (angleYParamIndex m)
    (angleZParamIndex m) (bodyAngleXParamIndex m) (breathParamIndex m) (calls m ++ [c]).

(** Calls on [this.coreModel]. *)
Definition core_addToParamFloat (i : Z) (v : number) (m : Cubism2InternalModel) :=
  log (AddToParamFloat i v) (set_coreModel (addToParamFloat i v (coreModel m)) m).

Definition core_setParamFloat (i : Z) (v : number) (m : Cubism2InternalModel) :=
  log (SetParamFloat i v) (set_coreModel (setParamFloat i v (coreModel m)) m).

Definition core_saveParam (m : Cubism2InternalModel) :=
  log SaveParam (set_coreModel (saveParam (coreModel m)) m).

Definition core_loadParam (m : Cubism2InternalModel) :=
  log LoadParam (set_coreModel (loadParam (coreModel m)) m).

Definition core_update (m : Cubism2InternalModel) :=
  log ModelUpdate (set_coreModel (modelUpdate (coreModel m)) m).

Definition emit (event : string) (m : Cubism2InternalModel) := log (Emit event) m.

(** [super.update(dt, now)]. *)
Definition super_update (dt now : number) (m : Cubism2InternalModel) :=
  log (SuperUpdate dt now)
    (set_focusController (InternalModel_update (focusController m) dt now) m).

(** [this.motionManager.update(this.coreModel, now)]. *)
Definition motionManager_update (now : number) (m : Cubism2InternalModel)
    : bool * Cubism2InternalModel :=
  let r := MotionManager_update (motionManager m) (coreModel m) now in
  (r.1.1, log (MotionManagerUpdate now) (set_coreModel r.2 (set_motionManager r.1.2 m))).

(** [this.eyeBlink?.update(dt)]. *)
Definition eyeBlink_update (dt : number) (m : Cubism2InternalModel) :=
  match eyeBlink m with
  | Some e =>
      let r := EyeBlink_update e dt (coreModel m) in
      log (EyeBlinkUpdate dt) (set_coreModel r.2 (set_eyeBlink (Some r.1) m))
  | None => m
  end.

(** [this.physics?.update(now)]. *)
Definition physics_update (now : number) (m : Cubism2InternalModel) :=
  match physics m with
  | Some p =>
      let r := Physics_update p now (coreModel m) in
      log (PhysicsUpdate now) (set_coreModel r.2 (set_physics (Some r.1) m))
  | None => m
  end.

(** [this.pose?.update(dt)]. *)
Definition pose_update (dt : number) (m : Cubism2InternalModel) :=
  match pose m with
  | Some p =>
      let r := Pose_update p dt (coreModel m) in
      log (PoseUpdate dt) (set_coreModel r.2 (set_pose (Some r.1) m))
  | None => m
  end.

Definition updateFocus (m : Cubism2InternalModel) : Cubism2InternalModel :=
  let x := focus_x (focusController m) in
  let y := focus_y (focusController m) in
  let m := core_addToParamFloat (eyeballXParamIndex m) x m in
  let m := core_addToParamFloat (eyeballYParamIndex m) y m in
  let m := core_addToParamFloat (angleXParamIndex m) (x * 30)%R m in
  let m := core_addToParamFloat (angleYParamIndex m) (y * 30)%R m in
  let m := core_addToParamFloat (angleZParamIndex m) (x * y * -30)%R m in
  let m := core_addToParamFloat (bodyAngleXParamIndex m) (x * 10)%R m in
  m.

Definition updateNaturalMovements (dt now : number) (m : Cubism2InternalModel)
    : Cubism2InternalModel :=
  let t := (now / 1000 * 2 * PI)%R in
  let m := core_addToParamFloat (angleXParamIndex m) (15 * sin (t / 6.5345) * 0.5)%R m in
  let m := core_addToParamFloat (angleYParamIndex m) (8 * sin (t / 3.5345) * 0.5)%R m in
  let m := core_addToParamFloat (angleZParamIndex m) (10 * sin (t / 5.5345) * 0.5)%R m in
  let m := core_addToParamFloat (bodyAngleXParamIndex m) (4 * sin (t / 15.5345) * 0.5)%R m in
  let m := core_setParamFloat (breathParamIndex m) (0.5 + 0.5 * sin (t / 3.2345))%R m in
  m.

Definition update (dt now : number) (m : Cubism2InternalModel) : Cubism2InternalModel :=
  let m := super_update dt now m in
  let m := emit "beforeMotionUpdate" m in
  let r := motionManager_update now m in
  let motionUpdated := r.1 in
  let m := r.2 in
  let m := emit "afterMotionUpdate" m in
  let m := core_saveParam m in
  let m := if negb motionUpdated then eyeBlink_update dt m else m in
  let m := updateFocus m in
  let m := updateNaturalMovements dt now m in
  let m := physics_update now m in
  let m := pose_update dt m in
  let m := emit "beforeModelUpdate" m in
  let m := core_update m in
  let m := core_loadParam m in
  m.

(** The part of [update] that follows the motion manager's update. *)
Definition after_motion (dt now : number) (motionUpdated : bool) (m : Cubism2InternalModel)
    : Cubism2InternalModel :=
  let m := emit "afterMotionUpdate" m in
  let m := core_saveParam m in
  let m := if negb motionUpdated then eyeBlink_update dt m else m in
  let m := updateFocus m in
  let m := updateNaturalMovements dt now m in
  let m := physics_update now m in
  let m := pose_update dt m in
  let m := emit "beforeModelUpdate" m in
  let m := core_update m in
  let m := core_loadParam m in
  m.

(** [getDrawableVertices(drawIndex)] on a store of typed arrays. *)
Definition getDrawableVertices (drawIndex : DrawIndex) (m : Cubism2InternalModel) (h : Heap)
    : Outcome (loc * Heap) :=
  let resolved :=
    match drawIndex with
    | ById id =>
        let i := getDrawDataIndex (coreModel m) id in
        if Z.eqb i (-1) then ThrownTypeError "Unable to find drawable ID: -1" else Returned i
    | ByIndex i => Returned i
    end in
  match resolved with
  | ThrownTypeError msg => ThrownTypeError msg
  | Returned i => Returned (slice (getTransformedPoints (coreModel m) i) h)
  end.

(** ** Properties of the per-frame update *)

(** The share of a call [addToParamFloat(index, value)] that lands on
    parameter [i]. *)
Definition offset (index i : Z) (value : number) : number :=
  if Z.eqb i index then value else 0%R.

Definition focus_calls (m : Cubism2InternalModel) : list Call :=
  let x := focus_x (focusController m) in
  let y := focus_y (focusController m) in
  [ AddToParamFloat (eyeballXParamIndex m) x;
    AddToParamFloat (eyeballYParamIndex m) y;
    AddToParamFloat (angleXParamIndex m) (x * 30)%R;
    AddToParamFloat (angleYParamIndex m) (y * 30)%R;
    AddToParamFloat (angleZParamIndex m) (x * y * -30)%R;
    AddToParamFloat (bodyAngleXParamIndex m) (x * 10)%R ].

Definition natural_calls (now : number) (m : Cubism2InternalModel) : list Call :=
  let t := (now / 1000 * 2 * PI)%R in
  [ AddToParamFloat (angleXParamIndex m) (15 * sin (t / 6.5345) * 0.5)%R;
    AddToParamFloat (angleYParamIndex m) (8 * sin (t / 3.5345) * 0.5)%R;
    AddToParamFloat (angleZParamIndex m) (10 * sin (t / 5.5345) * 0.5)%R;
    AddToParamFloat (bodyAngleXParamIndex m) (4 * sin (t / 15.5345) * 0.5)%R;
    SetParamFloat (breathParamIndex m) (0.5 + 0.5 * sin (t / 3.2345))%R ].

(** The kind of a call, its arguments left out. *)
Definition tag (c : Call) : nat :=
  match c with
  | SuperUpdate _ _ => 0
  | Emit _ => 1
  | MotionManagerUpdate _ => 2
  | SaveParam => 3
  | EyeBlinkUpdate _ => 4
  | AddToParamFloat _ _ => 5
  | SetParamFloat _ _ => 6
  | PhysicsUpdate _ => 7
  | PoseUpdate _ => 8
  | ModelUpdate => 9
  | LoadParam => 10
  end.

(** The calls [update] made, those already in the trace left out. *)
Definition frame_calls (dt now : number) (m : Cubism2InternalModel) : list Call :=
  drop (length (calls m)) (calls (update dt now m)).

Lemma getParamFloat_core_addToParamFloat k v m i :
  getParamFloat (coreModel (core_addToParamFloat k v m)) i
  = (getParamFloat (coreModel m) i + offset k i v)%R.
Proof.
  unfold core_addToParamFloat, offset; simpl.
  rewrite getParamFloat_addToParamFloat.
  destruct (Z.eqb i k); lra.
Qed.

Lemma getParamFloat_core_setParamFloat k v m i :
  getParamFloat (coreModel (core_setParamFloat k v m)) i
  = if Z.eqb i k then v else getParamFloat (coreModel m) i.
Proof. unfold core_setParamFloat; simpl. apply getParamFloat_setParamFloat. Qed.

Lemma updateFocus_getParamFloat m i :
  let x := focus_x (focusController m) in
  let y := focus_y (focusController m) in
  getParamFloat (coreModel (updateFocus m)) i
  = (getParamFloat (coreModel m) i
     + offset (eyeballXParamIndex m) i x
     + offset (eyeballYParamIndex m) i y
     + offset (angleXParamIndex m) i (x * 30)
     + offset (angleYParamIndex m) i (y * 30)
     + offset (angleZParamIndex m) i (x * y * -30)
     + offset (bodyAngleXParamIndex m) i (x * 10))%R.
Proof.
  unfold updateFocus. cbv zeta.
  rewrite !getParamFloat_core_addToParamFloat. simpl. reflexivity.
Qed.

Lemma updateFocus_calls m : calls (updateFocus m) = calls m ++ focus_calls m.
Proof. unfold updateFocus, focus_calls; simpl. rewrite <- !app_assoc. reflexivity. Qed.

Lemma updateNaturalMovements_calls dt now m :
  calls (updateNaturalMovements dt now m) = calls m ++ natural_calls now m.
Proof.
  unfold updateNaturalMovements, natural_calls; simpl. rewrite <- !app_assoc. reflexivity.
Qed.

Lemma offset_same k v : offset k k v = v.
Proof. unfold offset. rewrite Z.eqb_refl. reflexivity. Qed.

Lemma offset_other k i v : i <> k -> offset k i v = 0%R.
Proof. intros Hne. unfold offset. destruct (Z.eqb_spec i k); [contradiction | reflexivity]. Qed.

(** C7. With the six cached parameter indices pairwise distinct,
    [updateFocus] adds x to eyeball-X, y to eyeball-Y, 30x to angle-X, 30y to
    angle-Y, -30xy to angle-Z and 10x to body-angle-X, where (x, y) are the
    focus controller's values; every other parameter keeps its value; the
    calls it makes on the core are these six [addToParamFloat] and no
    other; nothing else of the model changes. *)
Theorem updateFocus_adds_focus_offsets (m : Cubism2InternalModel) :
  NoDup [eyeballXParamIndex m; eyeballYParamIndex m; angleXParamIndex m;
         angleYParamIndex m; angleZParamIndex m; bodyAngleXParamIndex m] ->
  let x := focus_x (focusController m) in
  let y := focus_y (focusController m) in
  let before := getParamFloat (coreModel m) in
  let after := getParamFloat (coreModel (updateFocus m)) in
  after (eyeballXParamIndex m) = (before (eyeballXParamIndex m) + x)%R /\
  after (eyeballYParamIndex m) = (before (eyeballYParamIndex m) + y)%R /\
  after (angleXParamIndex m) = (before (angleXParamIndex m) + 30 * x)%R /\
  after (angleYParamIndex m) = (before (angleYParamIndex m) + 30 * y)%R /\
  after (angleZParamIndex m) = (before (angleZParamIndex m) + -30 * x * y)%R /\
  after (bodyAngleXParamIndex m) = (before (bodyAngleXParamIndex m) + 10 * x)%R /\
  (forall i : Z,
     i ∉ [eyeballXParamIndex m; eyeballYParamIndex m; angleXParamIndex m;
          angleYParamIndex m; angleZParamIndex m; bodyAngleXParamIndex m] ->
     after i = before i) /\
  calls (updateFocus m) = calls m ++ focus_calls m /\
  (motionManager (updateFocus m) = motionManager m /\
   eyeBlink (updateFocus m) = eyeBlink m /\
   physics (updateFocus m) = physics m /\
   pose (updateFocus m) = pose m /\
   focusController (updateFocus m) = focusController m).
Proof.
  intros Hnd x y before after. subst before after.
  rewrite !NoDup_cons, !not_elem_of_cons in Hnd.
  destruct Hnd as ((H12 & H13 & H14 & H15 & H16 & _) & (H23 & H24 & H25 & H26 & _)
                   & (H34 & H35 & H36 & _) & (H45 & H46 & _) & (H56 & _) & _).
  split; [|split; [|split; [|split; [|split; [|split; [|split; [|split]]]]]]].
  1-6: rewrite updateFocus_getParamFloat; cbv zeta;
       rewrite offset_same, !offset_other by congruence; fold x y; lra.
  - intros i Hi. rewrite !not_elem_of_cons in Hi.
    destruct Hi as (? & ? & ? & ? & ? & ? & _).
    rewrite updateFocus_getParamFloat; cbv zeta.
    rewrite !offset_other by assumption. lra.
  - apply updateFocus_calls.
  - repeat split; reflexivity.
Qed.

Lemma breath_value_bounds (t : number) :
  (0 <= 0.5 + 0.5 * sin (t / 3.2345) <= 1)%R.
Proof. pose proof (SIN_bound (t / 3.2345)) as Hs. lra. Qed.

(** C10. Whatever the timestamp and whatever the breath parameter held,
    after [updateNaturalMovements] the breath parameter is
    0.5 + 0.5 sin((now/1000 * 2 pi) / 3.2345), a value between 0 and 1; every
    other parameter is its old value plus the sinusoidal offsets addressed
    to it (angle-X, angle-Y, angle-Z, body-angle-X); the calls made are four
    [addToParamFloat] followed by one [setParamFloat]. *)
Theorem updateNaturalMovements_sets_breath (dt now : number) (m : Cubism2InternalModel) :
  let t := (now / 1000 * 2 * PI)%R in
  let breath := (0.5 + 0.5 * sin (t / 3.2345))%R in
  let before := getParamFloat (coreModel m) in
  let after := getParamFloat (coreModel (updateNaturalMovements dt now m)) in
  after (breathParamIndex m) = breath /\
  (0 <= breath <= 1)%R /\
  (forall i : Z, i <> breathParamIndex m ->
     after i = (before i
                + offset (angleXParamIndex m) i (15 * sin (t / 6.5345) * 0.5)
                + offset (angleYParamIndex m) i (8 * sin (t / 3.5345) * 0.5)
                + offset (angleZParamIndex m) i (10 * sin (t / 5.5345) * 0.5)
                + offset (bodyAngleXParamIndex m) i (4 * sin (t / 15.5345) * 0.5))%R) /\
  calls (updateNaturalMovements dt now m) = calls m ++ natural_calls now m.
Proof.
  intros t breath before after. subst before after.
  assert (Hget : forall i,
    getParamFloat (coreModel (updateNaturalMovements dt now m)) i
    = if Z.eqb i (breathParamIndex m) then breath
      else (getParamFloat (coreModel m) i
            + offset (angleXParamIndex m) i (15 * sin (t / 6.5345) * 0.5)
            + offset (angleYParamIndex m) i (8 * sin (t / 3.5345) * 0.5)
            + offset (angleZParamIndex m) i (10 * sin (t / 5.5345) * 0.5)
            + offset (bodyAngleXParamIndex m) i (4 * sin (t / 15.5345) * 0.5))%R).
  { intros i. unfold updateNaturalMovements. cbv zeta.
    rewrite getParamFloat_core_setParamFloat.
    rewrite !getParamFloat_core_addToParamFloat. reflexivity. }
  split; [|split; [|split]].
  - rewrite Hget, Z.eqb_refl. reflexivity.
  - apply breath_value_bounds.
  - intros i Hi. rewrite Hget.
    destruct (Z.eqb_spec i (breathParamIndex m)); [contradiction | reflexivity].
  - apply updateNaturalMovements_calls.
Qed.

(** C9. [getDrawableVertices] throws a [TypeError] for an id string the
    core maps to -1.  For a numeric index, and for an id the core maps to
    an index other than -1, it returns a buffer that was not allocated
    before the call, holding the elements of the core's transformed-points
    buffer of that index; no buffer that existed before is changed, and
    the returned one is not the core's. *)
Theorem getDrawableVertices_copies (m : Cubism2InternalModel) (h : Heap) :
  let copy_of (drawIndex : DrawIndex) (i : Z) :=
    let src := getTransformedPoints (coreModel m) i in
    exists (l : loc) (h' : Heap),
      getDrawableVertices drawIndex m h = Returned (l, h') /\
      h !! l = None /\
      h' !! l = Some (default [] (h !! src)) /\
      (forall l0 : loc, l0 <> l -> h' !! l0 = h !! l0) /\
      (is_Some (h !! src) -> l <> src /\ h' !! l = h !! src /\ h' !! src = h !! src) in
  (forall id : string, getDrawDataIndex (coreModel m) id = (-1)%Z ->
     exists msg, getDrawableVertices (ById id) m h = ThrownTypeError msg) /\
  (forall id : string, getDrawDataIndex (coreModel m) id <> (-1)%Z ->
     copy_of (ById id) (getDrawDataIndex (coreModel m) id)) /\
  (forall i : Z, copy_of (ByIndex i) i).
Proof.
  assert (Hslice : forall src : loc,
    let l := (slice src h).1 in
    let h' := (slice src h).2 in
    h !! l = None /\
    h' !! l = Some (default [] (h !! src)) /\
    (forall l0 : loc, l0 <> l -> h' !! l0 = h !! l0) /\
    (is_Some (h !! src) -> l <> src /\ h' !! l = h !! src /\ h' !! src = h !! src)).
  { intros src. unfold slice; simpl.
    assert (Hfresh : h !! fresh (dom h) = None).
    { apply not_elem_of_dom, is_fresh. }
    split; [exact Hfresh|]. split; [apply lookup_insert_eq|]. split.
    - intros l0 Hl0. apply lookup_insert_ne. congruence.
    - intros [v Hv].
      assert (Hne : fresh (dom h) <> src) by (intros Heq; subst src; congruence).
      split; [exact Hne|]. split.
      + rewrite lookup_insert_eq, Hv. reflexivity.
      + apply lookup_insert_ne. exact Hne. }
  intros copy_of. subst copy_of. split; [|split].
  - intros id Hid. unfold getDrawableVertices. rewrite Hid. simpl. eauto.
  - intros id Hid. unfold getDrawableVertices.
    destruct (Z.eqb_spec (getDrawDataIndex (coreModel m) id) (-1)) as [Heq|_]; [contradiction|].
    eexists _, _. split; [unfold slice; reflexivity|]. apply Hslice.
  - intros i. unfold getDrawableVertices.
    eexists _, _. split; [unfold slice; reflexivity|]. apply Hslice.
Qed.

Lemma calls_log c m : calls (log c m) = calls m ++ [c].
Proof. reflexivity. Qed.

Lemma calls_eyeBlink_update dt m :
  calls (eyeBlink_update dt m)
  = calls m ++ match eyeBlink m with Some _ => [EyeBlinkUpdate dt] | None => [] end.
Proof.
  unfold eyeBlink_update. destruct (eyeBlink m); simpl; [reflexivity | by rewrite app_nil_r].
Qed.

Lemma calls_physics_update now m :
  calls (physics_update now m)
  = calls m ++ match physics m with Some _ => [PhysicsUpdate now] | None => [] end.
Proof.
  unfold physics_update. destruct (physics m); simpl; [reflexivity | by rewrite app_nil_r].
Qed.

Lemma calls_pose_update dt m :
  calls (pose_update dt m)
  = calls m ++ match pose m with Some _ => [PoseUpdate dt] | None => [] end.
Proof.
  unfold pose_update. destruct (pose m); simpl; [reflexivity | by rewrite app_nil_r].
Qed.

Lemma physics_eyeBlink_update dt m : physics (eyeBlink_update dt m) = physics m.
Proof. unfold eyeBlink_update. destruct (eyeBlink m); reflexivity. Qed.

Lemma pose_eyeBlink_update dt m : pose (eyeBlink_update dt m) = pose m.
Proof. unfold eyeBlink_update. destruct (eyeBlink m); reflexivity. Qed.

Lemma pose_physics_update now m : pose (physics_update now m) = pose m.
Proof. unfold physics_update. destruct (physics m); reflexivity. Qed.

(** The steps of one frame, in the order [update] takes them. *)
Definition pipeline (dt now : number) (m : Cubism2InternalModel) : list Call :=
  let focused := set_focusController (InternalModel_update (focusController m) dt now) m in
  let motionUpdated := (MotionManager_update (motionManager m) (coreModel m) now).1.1 in
  [SuperUpdate dt now; Emit "beforeMotionUpdate"; MotionManagerUpdate now;
   Emit "afterMotionUpdate"; SaveParam]
  ++ (if motionUpdated then []
      else match eyeBlink m with Some _ => [EyeBlinkUpdate dt] | None => [] end)
  ++ focus_calls focused
  ++ natural_calls now m
  ++ match physics m with Some _ => [PhysicsUpdate now] | None => [] end
  ++ match pose m with Some _ => [PoseUpdate dt] | None => [] end
  ++ [Emit "beforeModelUpdate"; ModelUpdate; LoadParam].

Lemma update_after_motion dt now m :
  update dt now m
  = after_motion dt now
      (motionManager_update now (emit "beforeMotionUpdate" (super_update dt now m))).1
      (motionManager_update now (emit "beforeMotionUpdate" (super_update dt now m))).2.
Proof. reflexivity. Qed.

Lemma calls_after_motion dt now motionUpdated m :
  calls (after_motion dt now motionUpdated m)
  = calls m
    ++ [Emit "afterMotionUpdate"; SaveParam]
    ++ (if motionUpdated then []
        else match eyeBlink m with Some _ => [EyeBlinkUpdate dt] | None => [] end)
    ++ focus_calls m
    ++ natural_calls now m
    ++ match physics m with Some _ => [PhysicsUpdate now] | None => [] end
    ++ match pose m with Some _ => [PoseUpdate dt] | None => [] end
    ++ [Emit "beforeModelUpdate"; ModelUpdate; LoadParam].
Proof.
  destruct m as [c mm eb ph po fc i1 i2 i3 i4 i5 i6 i7 cs].
  destruct motionUpdated, eb, ph, po;
    lazy beta iota zeta delta
      [after_motion emit core_saveParam eyeBlink_update updateFocus
       updateNaturalMovements physics_update pose_update core_update core_loadParam
       core_addToParamFloat core_setParamFloat log set_coreModel set_motionManager
       set_eyeBlink set_physics set_pose set_focusController focus_calls natural_calls
       calls coreModel motionManager eyeBlink physics pose focusController
       eyeballXParamIndex eyeballYParamIndex angleXParamIndex angleYParamIndex
       angleZParamIndex bodyAngleXParamIndex breathParamIndex fst snd negb];
    rewrite <- ?app_assoc; reflexivity.
Qed.

Lemma update_calls dt now m : calls (update dt now m) = calls m ++ pipeline dt now m.
Proof.
  rewrite update_after_motion, calls_after_motion.
  unfold pipeline. cbv zeta.
  change (calls (motionManager_update now (emit "beforeMotionUpdate" (super_update dt now m))).2)
    with (((calls m ++ [SuperUpdate dt now]) ++ [Emit "beforeMotionUpdate"])
          ++ [MotionManagerUpdate now]).
  rewrite <- !app_assoc. reflexivity.
Qed.

Lemma frame_calls_pipeline dt now m : frame_calls dt now m = pipeline dt now m.
Proof. unfold frame_calls. rewrite update_calls. apply drop_app_length. Qed.

Lemma pipeline_tags dt now m :
  tag <$> pipeline dt now m
  = [0; 1; 2; 1; 3]
    ++ (if (MotionManager_update (motionManager m) (coreModel m) now).1.1 then []
        else match eyeBlink m with Some _ => [4] | None => [] end)
    ++ [5; 5; 5; 5; 5; 5] ++ [5; 5; 5; 5; 6]
    ++ match physics m with Some _ => [7] | None => [] end
    ++ match pose m with Some _ => [8] | None => [] end
    ++ [1; 9; 10].
Proof.
  unfold pipeline. cbv zeta. rewrite !fmap_app.
  destruct ((MotionManager_update (motionManager m) (coreModel m) now).1.1);
    destruct (eyeBlink m), (physics m), (pose m); reflexivity.
Qed.

Lemma tagged_in_pipeline (c : Call) dt now m :
  c ∈ pipeline dt now m -> tag c ∈ tag <$> pipeline dt now m.
Proof. apply list_elem_of_fmap_2. Qed.

Lemma eyeBlink_in_pipeline dt now m :
  EyeBlinkUpdate dt ∈ pipeline dt now m <->
  (MotionManager_update (motionManager m) (coreModel m) now).1.1 = false /\
  is_Some (eyeBlink m).
Proof.
  split.
  - intros Hin%tagged_in_pipeline. rewrite pipeline_tags in Hin. simpl tag in Hin.
    destruct ((MotionManager_update (motionManager m) (coreModel m) now).1.1);
      destruct (eyeBlink m) as [e|]; [| | split; [reflexivity | by eexists] |];
      exfalso; destruct (physics m), (pose m);
      (revert Hin; refine (not_elem_of_decide _ _ _); reflexivity).
  - intros [Hmu [e He]]. unfold pipeline. cbv zeta. rewrite Hmu, He.
    apply elem_of_app; right. apply elem_of_app; left. apply list_elem_of_singleton. reflexivity.
Qed.

Lemma physics_in_pipeline dt now m :
  PhysicsUpdate now ∈ pipeline dt now m <-> is_Some (physics m).
Proof.
  split.
  - intros Hin%tagged_in_pipeline. rewrite pipeline_tags in Hin. simpl tag in Hin.
    destruct (physics m) as [ph|]; [by eexists|].
    exfalso.
    destruct ((MotionManager_update (motionManager m) (coreModel m) now).1.1);
      destruct (eyeBlink m), (pose m);
      (revert Hin; refine (not_elem_of_decide _ _ _); reflexivity).
  - intros [ph Hph]. unfold pipeline. cbv zeta. rewrite Hph.
    do 4 (apply elem_of_app; right). apply elem_of_app; left.
    apply list_elem_of_singleton. reflexivity.
Qed.

Lemma pose_in_pipeline dt now m :
  PoseUpdate dt ∈ pipeline dt now m <-> is_Some (pose m).
Proof.
  split.
  - intros Hin%tagged_in_pipeline. rewrite pipeline_tags in Hin. simpl tag in Hin.
    destruct (pose m) as [po|]; [by eexists|].
    exfalso.
    destruct ((MotionManager_update (motionManager m) (coreModel m) now).1.1);
      destruct (eyeBlink m), (physics m);
      (revert Hin; refine (not_elem_of_decide _ _ _); reflexivity).
  - intros [po Hpo]. unfold pipeline. cbv zeta. rewrite Hpo.
    do 5 (apply elem_of_app; right). apply elem_of_app; left.
    apply list_elem_of_singleton. reflexivity.
Qed.

(** What a parameter call of the trace does to a core model. *)
Definition apply_call (c : Call) (model : core) : core :=
  match c with
  | AddToParamFloat i v => addToParamFloat i v model
  | SetParamFloat i v => setParamFloat i v model
  | _ => model
  end.

(** The core model that one frame leaves behind: the one core model goes
    through the steps of the frame, each working on the parameters the
    step before it left. *)
Definition blend (dt now : number) (m : Cubism2InternalModel) : core :=
  let focused := set_focusController (InternalModel_update (focusController m) dt now) m in
  let motion := MotionManager_update (motionManager m) (coreModel m) now in
  let model := saveParam motion.2 in
  let model := if motion.1.1 then model
               else match eyeBlink m with
                    | Some e => (EyeBlink_update e dt model).2
                    | None => model
                    end in
  let model := foldl (fun model c => apply_call c model) model (focus_calls focused) in
  let model := foldl (fun model c => apply_call c model) model (natural_calls now m) in
  let model := match physics m with
               | Some p => (Physics_update p now model).2
               | None => model
               end in
  let model := match pose m with
               | Some p => (Pose_update p dt model).2
               | None => model
               end in
  loadParam (modelUpdate model).

Lemma coreModel_after_motion dt now motionUpdated m :
  coreModel (after_motion dt now motionUpdated m)
  = let model := saveParam (coreModel m) in
    let model := if motionUpdated then model
                 else match eyeBlink m with
                      | Some e => (EyeBlink_update e dt model).2
                      | None => model
                      end in
    let model := foldl (fun model c => apply_call c model) model (focus_calls m) in
    let model := foldl (fun model c => apply_call c model) model (natural_calls now m) in
    let model := match physics m with
                 | Some p => (Physics_update p now model).2
                 | None => model
                 end in
    let model := match pose m with
                 | Some p => (Pose_update p dt model).2
                 | None => model
                 end in
    loadParam (modelUpdate model).
Proof.
  destruct m as [c mm eb ph po fc i1 i2 i3 i4 i5 i6 i7 cs].
  destruct motionUpdated, eb, ph, po;
    lazy beta iota zeta delta
      [after_motion emit core_saveParam eyeBlink_update updateFocus
       updateNaturalMovements physics_update pose_update core_update core_loadParam
       core_addToParamFloat core_setParamFloat log set_coreModel set_motionManager
       set_eyeBlink set_physics set_pose set_focusController focus_calls natural_calls
       apply_call foldl
       calls coreModel motionManager eyeBlink physics pose focusController
       eyeballXParamIndex eyeballYParamIndex angleXParamIndex angleYParamIndex
       angleZParamIndex bodyAngleXParamIndex breathParamIndex fst snd negb];
    reflexivity.
Qed.

Lemma update_blend dt now m : coreModel (update dt now m) = blend dt now m.
Proof. rewrite update_after_motion, coreModel_after_motion. reflexivity. Qed.

(** C1, amended.  One frame of [update]: the motion manager's update,
    [saveParam], the eye-blink update exactly when the motion update
    reported no change and an eye-blink controller is present, the focus
    contributions, the idle-sway contributions, the physics update exactly
    when physics is present, the pose update exactly when a pose is
    present, the core model's own update and last [loadParam], in this
    order and with nothing in between but the three events [update]
    emits; so the frame's blend of motion, eye-blink, focus, sway, physics
    and pose yields a single set of model parameters: the one core model
    goes through these steps, each working on the parameters the step
    before it left, and what [update] leaves is that core model. *)
Theorem update_runs_pipeline (dt now : number) (m : Cubism2InternalModel) :
  calls (update dt now m) = calls m ++ pipeline dt now m /\
  (EyeBlinkUpdate dt ∈ frame_calls dt now m <->
   (MotionManager_update (motionManager m) (coreModel m) now).1.1 = false /\
   is_Some (eyeBlink m)) /\
  (PhysicsUpdate now ∈ frame_calls dt now m <-> is_Some (physics m)) /\
  (PoseUpdate dt ∈ frame_calls dt now m <-> is_Some (pose m)) /\
  last (calls (update dt now m)) = Some LoadParam /\
  coreModel (update dt now m) = blend dt now m.
Proof.
  split; [apply update_calls|]. rewrite frame_calls_pipeline.
  split; [apply eyeBlink_in_pipeline|].
  split; [apply physics_in_pipeline|].
  split; [apply pose_in_pipeline|].
  split; [|apply update_blend].
  rewrite update_calls. unfold pipeline. cbv zeta.
  change [Emit "beforeModelUpdate"; ModelUpdate; LoadParam]
    with ([Emit "beforeModelUpdate"; ModelUpdate] ++ [LoadParam]).
  rewrite !app_assoc. apply last_snoc.
Qed.

(** ** Further properties of the model *)

Lemma updateNaturalMovements_getParamFloat dt now m i :
  let t := (now / 1000 * 2 * PI)%R in
  getParamFloat (coreModel (updateNaturalMovements dt now m)) i
  = if Z.eqb i (breathParamIndex m) then (0.5 + 0.5 * sin (t / 3.2345))%R
    else (getParamFloat (coreModel m) i
          + offset (angleXParamIndex m) i (15 * sin (t / 6.5345) * 0.5)
          + offset (angleYParamIndex m) i (8 * sin (t / 3.5345) * 0.5)
          + offset (angleZParamIndex m) i (10 * sin (t / 5.5345) * 0.5)
          + offset (bodyAngleXParamIndex m) i (4 * sin (t / 15.5345) * 0.5))%R.
Proof.
  unfold updateNaturalMovements. cbv zeta.
  rewrite getParamFloat_core_setParamFloat.
  rewrite !getParamFloat_core_addToParamFloat. reflexivity.
Qed.

(** X18. Within a frame the focus and the idle sway add up: with the seven
    cached indices pairwise distinct, after [updateFocus] and
    [updateNaturalMovements] each of angle-X, angle-Y, angle-Z and
    body-angle-X is its old value plus the focus contribution plus a sway
    of at most 7.5, 4, 5 and 2 in absolute value; the two eyeball
    parameters carry the focus contribution alone; the breath parameter
    is overwritten, not added to. *)
Theorem focus_and_sway_add_up (dt now : number) (m : Cubism2InternalModel) :
  NoDup [eyeballXParamIndex m; eyeballYParamIndex m; angleXParamIndex m;
         angleYParamIndex m; angleZParamIndex m; bodyAngleXParamIndex m;
         breathParamIndex m] ->
  let x := focus_x (focusController m) in
  let y := focus_y (focusController m) in
  let t := (now / 1000 * 2 * PI)%R in
  let before := getParamFloat (coreModel m) in
  let after := getParamFloat (coreModel (updateNaturalMovements dt now (updateFocus m))) in
  after (eyeballXParamIndex m) = (before (eyeballXParamIndex m) + x)%R /\
  after (eyeballYParamIndex m) = (before (eyeballYParamIndex m) + y)%R /\
  after (angleXParamIndex m)
  = (before (angleXParamIndex m) + 30 * x + 7.5 * sin (t / 6.5345))%R /\
  after (angleYParamIndex m)
  = (before (angleYParamIndex m) + 30 * y + 4 * sin (t / 3.5345))%R /\
  after (angleZParamIndex m)
  = (before (angleZParamIndex m) + -30 * x * y + 5 * sin (t / 5.5345))%R /\
  after (bodyAngleXParamIndex m)
  = (before (bodyAngleXParamIndex m) + 10 * x + 2 * sin (t / 15.5345))%R /\
  after (breathParamIndex m) = (0.5 + 0.5 * sin (t / 3.2345))%R /\
  (Rabs (after (angleXParamIndex m) - (before (angleXParamIndex m) + 30 * x)) <= 7.5)%R /\
  (Rabs (after (angleYParamIndex m) - (before (angleYParamIndex m) + 30 * y)) <= 4)%R /\
  (Rabs (after (angleZParamIndex m) - (before (angleZParamIndex m) + -30 * x * y)) <= 5)%R /\
  (Rabs (after (bodyAngleXParamIndex m) - (before (bodyAngleXParamIndex m) + 10 * x)) <= 2)%R.
Proof.
  intros Hnd x y t before after.
  rewrite !NoDup_cons, !not_elem_of_cons in Hnd.
  destruct Hnd as ((H12 & H13 & H14 & H15 & H16 & H17 & _) & (H23 & H24 & H25 & H26 & H27 & _)
                   & (H34 & H35 & H36 & H37 & _) & (H45 & H46 & H47 & _)
                   & (H56 & H57 & _) & (H67 & _) & _).
  assert (Hafter : forall i, i <> breathParamIndex m ->
    after i
    = (before i
       + offset (eyeballXParamIndex m) i x
       + offset (eyeballYParamIndex m) i y
       + offset (angleXParamIndex m) i (x * 30)
       + offset (angleYParamIndex m) i (y * 30)
       + offset (angleZParamIndex m) i (x * y * -30)
       + offset (bodyAngleXParamIndex m) i (x * 10)
       + offset (angleXParamIndex m) i (15 * sin (t / 6.5345) * 0.5)
       + offset (angleYParamIndex m) i (8 * sin (t / 3.5345) * 0.5)
       + offset (angleZParamIndex m) i (10 * sin (t / 5.5345) * 0.5)
       + offset (bodyAngleXParamIndex m) i (4 * sin (t / 15.5345) * 0.5))%R).
  { intros i Hi. subst after before.
    rewrite updateNaturalMovements_getParamFloat. cbv zeta.
    change (breathParamIndex (updateFocus m)) with (breathParamIndex m).
    change (angleXParamIndex (updateFocus m)) with (angleXParamIndex m).
    change (angleYParamIndex (updateFocus m)) with (angleYParamIndex m).
    change (angleZParamIndex (updateFocus m)) with (angleZParamIndex m).
    change (bodyAngleXParamIndex (updateFocus m)) with (bodyAngleXParamIndex m).
    destruct (Z.eqb_spec i (breathParamIndex m)); [contradiction|].
    rewrite updateFocus_getParamFloat. reflexivity. }
  assert (E1 : after (eyeballXParamIndex m) = (before (eyeballXParamIndex m) + x)%R).
  { rewrite Hafter by congruence. rewrite offset_same, !offset_other by congruence. lra. }
  assert (E2 : after (eyeballYParamIndex m) = (before (eyeballYParamIndex m) + y)%R).
  { rewrite Hafter by congruence. rewrite offset_same, !offset_other by congruence. lra. }
  assert (E3 : after (angleXParamIndex m)
               = (before (angleXParamIndex m) + 30 * x + 7.5 * sin (t / 6.5345))%R).
  { rewrite Hafter by congruence. rewrite !offset_same, !offset_other by congruence. lra. }
  assert (E4 : after (angleYParamIndex m)
               = (before (angleYParamIndex m) + 30 * y + 4 * sin (t / 3.5345))%R).
  { rewrite Hafter by congruence. rewrite !offset_same, !offset_other by congruence. lra. }
  assert (E5 : after (angleZParamIndex m)
               = (before (angleZParamIndex m) + -30 * x * y + 5 * sin (t / 5.5345))%R).
  { rewrite Hafter by congruence. rewrite !offset_same, !offset_other by congruence. lra. }
  assert (E6 : after (bodyAngleXParamIndex m)
               = (before (bodyAngleXParamIndex m) + 10 * x + 2 * sin (t / 15.5345))%R).
  { rewrite Hafter by congruence. rewrite !offset_same, !offset_other by congruence. lra. }
  split; [exact E1|]. split; [exact E2|]. split; [exact E3|]. split; [exact E4|].
  split; [exact E5|]. split; [exact E6|].
  split.
  { subst after. rewrite updateNaturalMovements_getParamFloat. cbv zeta.
    change (breathParamIndex (updateFocus m)) with (breathParamIndex m).
    rewrite Z.eqb_refl. reflexivity. }
  rewrite E3, E4, E5, E6.
  pose proof (SIN_bound (t / 6.5345)). pose proof (SIN_bound (t / 3.5345)).
  pose proof (SIN_bound (t / 5.5345)). pose proof (SIN_bound (t / 15.5345)).
  repeat split; apply Rabs_le; lra.
Qed.

Lemma after_motion_configuration dt now motionUpdated m :
  let m' := after_motion dt now motionUpdated m in
  [eyeballXParamIndex m'; eyeballYParamIndex m'; angleXParamIndex m'; angleYParamIndex m';
   angleZParamIndex m'; bodyAngleXParamIndex m'; breathParamIndex m']
  = [eyeballXParamIndex m; eyeballYParamIndex m; angleXParamIndex m; angleYParamIndex m;
     angleZParamIndex m; bodyAngleXParamIndex m; breathParamIndex m] /\
  focusController m' = focusController m /\
  motionManager m' = motionManager m /\
  (is_Some (eyeBlink m') <-> is_Some (eyeBlink m)) /\
  (is_Some (physics m') <-> is_Some (physics m)) /\
  (is_Some (pose m') <-> is_Some (pose m)).
Proof.
  destruct m as [c mm eb ph po fc i1 i2 i3 i4 i5 i6 i7 cs].
  destruct motionUpdated, eb, ph, po;
    lazy beta iota zeta delta
      [after_motion emit core_saveParam eyeBlink_update updateFocus
       updateNaturalMovements physics_update pose_update core_update core_loadParam
       core_addToParamFloat core_setParamFloat log set_coreModel set_motionManager
       set_eyeBlink set_physics set_pose set_focusController
       calls coreModel motionManager eyeBlink physics pose focusController
       eyeballXParamIndex eyeballYParamIndex angleXParamIndex angleYParamIndex
       angleZParamIndex bodyAngleXParamIndex breathParamIndex fst snd negb];
    (split; [reflexivity|]); (split; [reflexivity|]); (split; [reflexivity|]);
    (split; [|split]); split; intros [? ?]; try discriminate; eexists; reflexivity.
Qed.

(** X20. A frame leaves the model's set-up alone: after [update] the seven
    cached parameter indices are the same, an eye-blink controller,
    physics and a pose are present exactly when they were before, and the
    focus controller is the one the base class's [update] produced; only
    the core model, the collaborators' own states and the trace change. *)
Theorem update_keeps_configuration (dt now : number) (m : Cubism2InternalModel) :
  let m' := update dt now m in
  [eyeballXParamIndex m'; eyeballYParamIndex m'; angleXParamIndex m'; angleYParamIndex m';
   angleZParamIndex m'; bodyAngleXParamIndex m'; breathParamIndex m']
  = [eyeballXParamIndex m; eyeballYParamIndex m; angleXParamIndex m; angleYParamIndex m;
     angleZParamIndex m; bodyAngleXParamIndex m; breathParamIndex m] /\
  focusController m' = InternalModel_update (focusController m) dt now /\
  motionManager m' = (MotionManager_update (motionManager m) (coreModel m) now).1.2 /\
  (is_Some (eyeBlink m') <-> is_Some (eyeBlink m)) /\
  (is_Some (physics m') <-> is_Some (physics m)) /\
  (is_Some (pose m') <-> is_Some (pose m)).
Proof.
  intros m'. subst m'. rewrite update_after_motion.
  exact (after_motion_configuration dt now _
           (motionManager_update now (emit "beforeMotionUpdate" (super_update dt now m))).2).
Qed.

Lemma slice_fresh (src : loc) (h : Heap) :
  h !! (slice src h).1 = None /\
  (slice src h).2 !! (slice src h).1 = Some (default [] (h !! src)) /\
  (forall l0 : loc, l0 <> (slice src h).1 -> (slice src h).2 !! l0 = h !! l0).
Proof.
  unfold slice; simpl.
  assert (Hfresh : h !! fresh (dom h) = None) by apply not_elem_of_dom, is_fresh.
  split; [exact Hfresh|]. split; [apply lookup_insert_eq|].
  intros l0 Hl0. apply lookup_insert_ne. congruence.
Qed.

(** X21. Every call of [getDrawableVertices] hands out a buffer of its
    own: two calls for the same drawable index, one after the other,
    return two different buffers with the same elements, and the second
    call leaves the first buffer as it was. *)
Theorem getDrawableVertices_returns_own_copy
    (m : Cubism2InternalModel) (h : Heap) (i : Z) :
  exists (l1 l2 : loc) (h1 h2 : Heap),
    getDrawableVertices (ByIndex i) m h = Returned (l1, h1) /\
    getDrawableVertices (ByIndex i) m h1 = Returned (l2, h2) /\
    l1 <> l2 /\
    h2 !! l1 = h1 !! l1 /\
    h2 !! l2 = h2 !! l1 /\
    h2 !! l1 = Some (default [] (h !! getTransformedPoints (coreModel m) i)).
Proof.
  set (src := getTransformedPoints (coreModel m) i).
  destruct (slice_fresh src h) as (F1 & C1 & O1).
  destruct (slice_fresh src (slice src h).2) as (F2 & C2 & O2).
  exists (slice src h).1, (slice src (slice src h).2).1,
         (slice src h).2, (slice src (slice src h).2).2.
  assert (Hne : (slice src h).1 <> (slice src (slice src h).2).1).
  { intros Heq. rewrite <- Heq in F2. congruence. }
  assert (Hsrc : default [] ((slice src h).2 !! src) = default [] (h !! src)).
  { destruct (decide (src = (slice src h).1)) as [Heq|Hn].
    - rewrite Heq at 1. rewrite C1. simpl. rewrite Heq at 2. rewrite F1.
      rewrite Heq, F1. reflexivity.
    - rewrite O1 by exact Hn. reflexivity. }
  split; [reflexivity|]. split; [reflexivity|]. split; [exact Hne|].
  split; [apply O2; exact Hne|].
  rewrite (O2 _ Hne), C1, C2, Hsrc. done.
Qed.

End Model.

Arguments Cubism2InternalModel core MotionManager EyeBlink Physics Pose : clear implicits.

(** ** A reference core and reference collaborators *)

(** Parameters as a function from index to value, a saved copy of them, the
    drawable ids in table order, and the address of each drawable's
    transformed-points buffer. *)
Record RefCore : Type := mkRefCore {
  params : Z -> number;
  savedParams : Z -> number;
  drawables : list string;
  points : Z -> nat;
}.

Fixpoint index_of (id : string) (ids : list string) (i : Z) : Z :=
  match ids with
  | [] => (-1)%Z
  | id' :: rest => if String.eqb id id' then i else index_of id rest (i + 1)%Z
  end.

#[export] Instance ref_core : Live2DModelWebGL RefCore := {|
  getParamFloat := fun c i => params c i;
  setParamFloat := fun i v c =>
    mkRefCore (fun j => if Z.eqb j i then v else params c j)
      (savedParams c) (drawables c) (points c);
  addToParamFloat := fun i v c =>
    mkRefCore (fun j => if Z.eqb j i then (params c j + v)%R else params c j)
      (savedParams c) (drawables c) (points c);
  saveParam := fun c => mkRefCore (params c) (params c) (drawables c) (points c);
  loadParam := fun c => mkRefCore (savedParams c) (savedParams c) (drawables c) (points c);
  modelUpdate := fun c => c;
  getDrawDataIndex := fun c id => index_of id (drawables c) 0;
  getTransformedPoints := fun c i => points c i;
  getParamFloat_setParamFloat := fun _ _ _ _ => eq_refl;
  getParamFloat_addToParamFloat := fun _ _ _ _ => eq_refl;
|}.

(** Collaborators without state of their own: a motion manager with
    nothing to play (it reports no change), an eye-blink controller that
    writes parameter 7, physics and pose that leave the core alone, and a
    focus controller that stays where it is. *)
Definition idle_motionManager (mm : unit) (c : RefCore) (now : number) : bool * unit * RefCore :=
  (false, mm, c).
Definition ref_eyeBlink (e : unit) (dt : number) (c : RefCore) : unit * RefCore :=
  (e, setParamFloat 7 0%R c).
Definition ref_physics (p : unit) (now : number) (c : RefCore) : unit * RefCore := (p, c).
Definition ref_pose (p : unit) (dt : number) (c : RefCore) : unit * RefCore := (p, c).
Definition ref_focus (f : FocusController) (dt now : number) : FocusController := f.

Definition ref_coreModel : RefCore :=
  mkRefCore (fun _ => 0%R) (fun _ => 0%R) ["D_REF.BODY"; "D_REF.HEAD"] (fun i => Z.to_nat i).

(** A model as the constructor leaves it, focus at (1, 2), and the same
    model after [eyeBlink] was set to [undefined]. *)
Definition ref_model (eb : option unit) : Cubism2InternalModel RefCore unit unit unit unit :=
  mkModel ref_coreModel tt eb None None (mkFocus 1%R 2%R)
    0%Z 1%Z 2%Z 3%Z 4%Z 5%Z 6%Z [].

Definition ref_update (dt now : number) (m : Cubism2InternalModel RefCore unit unit unit unit) :=
  update idle_motionManager ref_eyeBlink ref_physics ref_pose ref_focus
    dt now m.


(** One frame of the reference model: the eye-blink update is the sixth
    call, between [saveParam] and the focus contributions. *)
Example ref_update_calls :
  tag <$> calls (ref_update 16%R 1000%R (ref_model (Some tt)))
  = [0; 1; 2; 1; 3; 4; 5; 5; 5; 5; 5; 5; 5; 5; 5; 5; 6; 1; 9; 10].
Proof.
  unfold ref_update. rewrite update_calls, fmap_app, pipeline_tags. reflexivity.
Qed.

(** C1 as first stated, refuted.  The motion manager reports no change, yet
    no eye-blink update runs in the frame: the model's [eyeBlink] is
    [undefined], and [update] calls it through [?.]. *)
Lemma update_eyeBlink_iff_refuted :
  ~ (forall (m : Cubism2InternalModel RefCore unit unit unit unit) (dt now : number),
       EyeBlinkUpdate dt
         ∈ frame_calls idle_motionManager ref_eyeBlink ref_physics ref_pose ref_focus dt now m
       <-> (idle_motionManager (motionManager m) (coreModel m) now).1.1 = false).
Proof.
  intros Hall.
  assert (Hin : EyeBlinkUpdate 16%R
                  ∈ pipeline idle_motionManager ref_focus 16%R 1000%R (ref_model None)).
  { rewrite <- (frame_calls_pipeline idle_motionManager ref_eyeBlink ref_physics ref_pose).
    apply Hall. reflexivity. }
  apply eyeBlink_in_pipeline in Hin. destruct Hin as [_ [e He]].
  discriminate He.
Qed.

(** The reference model, focus at (1, 2): angle-Z (index 4) moves by -60. *)
Lemma updateFocus_adds_focus_offsets_witness :
  getParamFloat (coreModel (updateFocus (ref_model (Some tt)))) 4%Z
  = (getParamFloat (coreModel (ref_model (Some tt))) 4%Z + -30 * 1 * 2)%R.
Proof.
  assert (Hnd : NoDup [0%Z; 1%Z; 2%Z; 3%Z; 4%Z; 5%Z]).
  { apply (bool_decide_unpack _). reflexivity. }
  exact (proj1 (proj2 (proj2 (proj2 (proj2
    (updateFocus_adds_focus_offsets (ref_model (Some tt)) Hnd)))))).
Defined.

(** The reference model holds no buffer at address 7 before the call; the
    copy of drawable 0's buffer (address 0) lands at a new address. *)
Example getDrawableVertices_example :
  let h : Heap := {[ 0 := [1%R; 2%R] ]} in
  exists l, l <> 0 /\
    getDrawableVertices (ById "D_REF.BODY") (ref_model None) h
    = Returned (l, <[l := [1%R; 2%R]]> h) /\
    getDrawableVertices (ById "D_REF.TAIL") (ref_model None) h
    = ThrownTypeError "Unable to find drawable ID: -1".
Proof.
  intros h. exists (fresh (dom h)). split; [|split].
  - assert (Hf : h !! fresh (dom h) = None) by apply not_elem_of_dom, is_fresh.
    intros Heq. rewrite Heq in Hf. discriminate Hf.
  - reflexivity.
  - reflexivity.
Qed.

(** The reference model at [now = 0]: focus at (1, 2), no sway; angle-X
    (index 2) moves by 30. *)
Lemma focus_and_sway_add_up_witness :
  let m := ref_model (Some tt) in
  getParamFloat (coreModel (updateNaturalMovements 16%R 0%R (updateFocus m))) 2%Z
  = (getParamFloat (coreModel m) 2%Z + 30 * 1 + 7.5 * sin (0 / 1000 * 2 * PI / 6.5345))%R.
Proof.
  assert (Hnd : NoDup [0%Z; 1%Z; 2%Z; 3%Z; 4%Z; 5%Z; 6%Z]).
  { apply (bool_decide_unpack _). reflexivity. }
  exact (proj1 (proj2 (proj2 (focus_and_sway_add_up 16%R 0%R (ref_model (Some tt)) Hnd)))).
Defined.

(** ** [getDrawableIDs] *)

(** An item of the model context's [_$aS]: an object with a
    [getDrawDataID] method, another value whose properties can be read, or
    [null] or [undefined], on which the property access throws. *)
Inductive ContextItem : Type :=
| ClassB (id : string)
| OtherItem
| Nullish.

#[export] Instance ContextItem_eq_dec : EqDecision ContextItem.
Proof. solve_decision. Defined.

(** [!!arg.getDrawDataID]. *)
Definition isClassB (item : ContextItem) : Outcome bool :=
  match item with
  | ClassB _ => Returned true
  | OtherItem => Returned false
  | Nullish => ThrownTypeError "Cannot read properties of null"
  end.

Definition item_id (item : ContextItem) : option string :=
  match item with
  | ClassB id => Some id
  | _ => None
  end.

(** The [for] loop: the ids of the class-B items, unless an item throws. *)
Fixpoint collect_ids (items : list ContextItem) : Outcome (list string) :=
  match items with
  | [] => Returned []
  | item :: rest =>
      match isClassB item with
      | ThrownTypeError message => ThrownTypeError message
      | Returned is_b =>
          match collect_ids rest with
          | ThrownTypeError message => ThrownTypeError message
          | Returned ids =>
              Returned (match item_id item with
                        | Some id => if is_b then id :: ids else ids
                        | None => ids
                        end)
          end
      end
  end.

(** [arr] is [None] when [_$aS] is no array. *)
Definition getDrawableIDs (arr : option (list ContextItem)) : Outcome (list string) :=
  match arr with
  | Some (first :: rest) =>
      match isClassB first with
      | ThrownTypeError message => ThrownTypeError message
      | Returned true => collect_ids (first :: rest)
      | Returned false => Returned []
      end
  | _ => Returned []
  end.

Lemma collect_ids_total (items : list ContextItem) :
  Nullish ∉ items -> collect_ids items = Returned (omap item_id items).
Proof.
  induction items as [|item rest IH]; intros Hn; [reflexivity|].
  apply not_elem_of_cons in Hn as [Hitem Hrest].
  simpl. rewrite (IH Hrest).
  destruct item as [id| |]; [reflexivity | reflexivity | congruence].
Qed.

Lemma collect_ids_throws (items : list ContextItem) :
  Nullish ∈ items -> exists message, collect_ids items = ThrownTypeError message.
Proof.
  induction items as [|item rest IH]; intros Hin; [by apply not_elem_of_nil in Hin|].
  apply elem_of_cons in Hin as [<-|Hin]; simpl; [by eexists|].
  destruct (IH Hin) as [message ->].
  destruct item; simpl; by eexists.
Qed.

(** X22. [getDrawableIDs] returns the ids of the items of [_$aS] that have
    a [getDrawDataID] method, in table order, provided [_$aS] is an array
    whose first item is such an item and no item is [null] or [undefined].
    When [_$aS] is no array, is empty, or its first item is an object of
    another kind, it returns no id at all, whatever the later items are.
    It throws exactly when the first item is [null] or [undefined], or the
    first item passes the check and a later one is [null] or
    [undefined]. *)
Theorem getDrawableIDs_checks_first_item (arr : option (list ContextItem)) :
  (forall id rest, arr = Some (ClassB id :: rest) -> Nullish ∉ rest ->
     getDrawableIDs arr = Returned (id :: omap item_id rest)) /\
  (forall items, arr = Some items -> Forall (fun item => isClassB item = Returned true) items ->
     exists ids, getDrawableIDs arr = Returned ids /\ ClassB <$> ids = items) /\
  (forall rest, arr = Some (OtherItem :: rest) -> getDrawableIDs arr = Returned []) /\
  (arr = None \/ arr = Some [] -> getDrawableIDs arr = Returned []) /\
  ((exists message, getDrawableIDs arr = ThrownTypeError message) <->
   exists first rest,
     arr = Some (first :: rest) /\
     (first = Nullish \/ (isClassB first = Returned true /\ Nullish ∈ rest))).
Proof.
  split; [|split; [|split; [|split]]].
  - intros id rest -> Hn.
    unfold getDrawableIDs. cbn [isClassB].
    rewrite collect_ids_total; [reflexivity|].
    apply not_elem_of_cons. split; [discriminate | exact Hn].
  - intros items -> Hall.
    assert (Hn : Nullish ∉ items).
    { intros Hin. apply (proj1 (Forall_forall _ _) Hall) in Hin. discriminate Hin. }
    assert (Hmap : ClassB <$> omap item_id items = items).
    { clear Hn. induction Hall as [|item items Hitem _ IH]; [reflexivity|].
      destruct item as [id'| |]; try discriminate Hitem.
      change (ClassB id' :: (ClassB <$> omap item_id items) = ClassB id' :: items).
      by rewrite IH. }
    destruct items as [|first rest]; [by exists []|].
    apply Forall_cons in Hall as [Hfirst _].
    exists (omap item_id (first :: rest)). split; [|exact Hmap].
    unfold getDrawableIDs. rewrite Hfirst. by apply collect_ids_total.
  - intros rest ->. reflexivity.
  - intros [->| ->]; reflexivity.
  - split.
    + intros [message Hthrow]. destruct arr as [[|first rest]|]; try discriminate Hthrow.
      exists first, rest. split; [reflexivity|].
      destruct first as [id| |]; [right | discriminate Hthrow | by left].
      split; [reflexivity|].
      destruct (decide (Nullish ∈ rest)) as [Hin|Hn]; [exact Hin|].
      unfold getDrawableIDs in Hthrow. cbn [isClassB] in Hthrow.
      rewrite collect_ids_total in Hthrow; [discriminate Hthrow|].
      apply not_elem_of_cons. split; [discriminate | exact Hn].
    + intros (first & rest & -> & [->|[Hb Hin]]); [by eexists|].
      unfold getDrawableIDs. rewrite Hb.
      apply collect_ids_throws. by apply list_elem_of_further.
Qed.

(** ** [draw] and the shared [tempMatrixArray] *)

(** [drawingMatrix]: the six entries of a 2D affine matrix. *)
Record Matrix : Type := mkMatrix {
  a : number;
  b : number;
  c : number;
  d : number;
  tx : number;
  ty : number;
}.

Section Draw.

(** A store into a [Float32Array] rounds the number to single precision
    ([Math.fround]). *)
Variable fround : number -> number.

(** The module's one [tempMatrixArray], as it is created: 0 and 1 are
    single-precision numbers and are stored as they are. *)
Definition tempMatrixArray : list number :=
  [1; 0; 0; 0;
   0; 1; 0; 0;
   0; 0; 1; 0;
   0; 0; 0; 1]%R.

(** The six writes of [draw]; the result is the array that
    [coreModel.setMatrix] is given. *)
Definition draw (matrix : Matrix) (temp : list number) : list number :=
  let temp := <[0 := fround (a matrix)]> temp in
  let temp := <[1 := fround (b matrix)]> temp in
  let temp := <[4 := fround (c matrix)]> temp in
  let temp := <[5 := fround (d matrix)]> temp in
  let temp := <[12 := fround (tx matrix)]> temp in
  let temp := <[13 := fround (ty matrix)]> temp in
  temp.

(** The states of the shared array: as created, or after a [draw] of any
    model. *)
Inductive shared : list number -> Prop :=
| shared_created : shared tempMatrixArray
| shared_drawn matrix temp : shared temp -> shared (draw matrix temp).

(** X23. The array that [draw] hands to the core holds the six entries of
    the model's own [drawingMatrix], each rounded to single precision as
    the [Float32Array] stores it, in the places 0, 1, 4, 5, 12 and 13 of
    the identity matrix, whatever was drawn before: every model writes to
    the one shared [tempMatrixArray], and the six entries a [draw] writes
    are the only ones that ever differ from the identity matrix. *)
Theorem draw_overwrites_shared_matrix (matrix : Matrix) (temp : list number) :
  shared temp ->
  draw matrix temp
  = [fround (a matrix); fround (b matrix); 0; 0;
     fround (c matrix); fround (d matrix); 0; 0;
     0; 0; 1; 0;
     fround (tx matrix); fround (ty matrix); 0; 1]%R.
Proof.
  intros Hs.
  assert (Hshape : exists v0 v1 v4 v5 v12 v13 : number,
            temp = [v0; v1; 0; 0; v4; v5; 0; 0; 0; 0; 1; 0; v12; v13; 0; 1]%R).
  { induction Hs as [|matrix' temp _ (v0 & v1 & v4 & v5 & v12 & v13 & ->)].
    - by exists 1%R, 0%R, 0%R, 1%R, 0%R, 0%R.
    - by exists (fround (a matrix')), (fround (b matrix')), (fround (c matrix')),
                (fround (d matrix')), (fround (tx matrix')), (fround (ty matrix')). }
  destruct Hshape as (v0 & v1 & v4 & v5 & v12 & v13 & ->). reflexivity.
Qed.

End Draw.

(** A rounding that takes 16777217, which is no single-precision number,
    to 16777216, and keeps the other numbers used below. *)
Definition ref_fround (x : number) : number :=
  if Req_dec_T x 16777217%R then 16777216%R else x.

(** Two models drawing in turn: the second draw shows nothing of the first,
    and its translation arrives rounded. *)
Lemma draw_overwrites_shared_matrix_witness :
  let first := mkMatrix 2%R 0%R 0%R 2%R 10%R 20%R in
  let second := mkMatrix 1%R 0%R 0%R 1%R 16777217%R 0%R in
  shared ref_fround (draw ref_fround first tempMatrixArray) /\
  draw ref_fround second (draw ref_fround first tempMatrixArray)
  = [ref_fround 1%R; ref_fround 0%R; 0; 0;
     ref_fround 0%R; ref_fround 1%R; 0; 0;
     0; 0; 1; 0;
     ref_fround 16777217%R; ref_fround 0%R; 0; 1]%R /\
  ref_fround 16777217%R = 16777216%R.
Proof.
  intros first second.
  assert (Hs : shared ref_fround (draw ref_fround first tempMatrixArray))
    by apply shared_drawn, shared_created.
  split; [exact Hs|]. split.
  - exact (draw_overwrites_shared_matrix ref_fround second _ Hs).
  - unfold ref_fround. destruct (Req_dec_T 16777217%R 16777217%R); [reflexivity | contradiction].
Defined.

End InternalModel2.

(* ===================================================================== *)
(** * src/factory/Live2DFactory.ts: motion loading *)
(* ===================================================================== *)

Module MotionLoading.

Inductive Error : Type :=
| TypeError (message : string)
| OtherError (message : string).

(** A settled promise. *)
Inductive Settled (A : Type) : Type :=
| Fulfill (value : A)
| Reject (reason : Error).
Arguments Fulfill {A} value.
Arguments Reject {A} reason.

Inductive PromiseState (A : Type) : Type :=
| Pending
| Done (s : Settled A).
Arguments Pending {A}.
Arguments Done {A} s.

(** What [loadMotion] returns: [Promise.resolve(undefined)], or the task
    stored in [motionTasksMap], named by its number. *)
Inductive Returned : Type :=
| ResolvedUndefined
| TaskRef (task : nat).

(** [array[index]] for a JavaScript number that is an integer. *)
Definition at_index {A : Type} (l : list A) (index : Z) : option A :=
  if Z.ltb index 0 then None else l !! Z.to_nat index.

(** The property names that [Object.prototype] gives to every plain
    object: [tasks = {}] answers to each of them although it has no such
    property of its own. *)
Definition Object_prototype_names : list string :=
  ["__proto__"; "constructor"; "hasOwnProperty"; "isPrototypeOf";
   "propertyIsEnumerable"; "toLocaleString"; "toString"; "valueOf";
   "__defineGetter__"; "__defineSetter__"; "__lookupGetter__"; "__lookupSetter__"].

(** The property key of an index: [ToString(index)], its decimal digits
    (an index so large that JavaScript writes it with an exponent is out of
    scope). *)
Definition property_key (index : Z) : string := pretty index.

(** What [tasks[group]] can be: an array that [loadMotion] stored in the
    manager's [tasks], or an object found through the prototype of
    [tasks]: [Object.prototype] itself (for "__proto__"), another member of
    it (the function [Object] for "constructor", ...), or a promise that an
    earlier call stored on [Object.prototype]. *)
Inductive TaskGroup : Type :=
| OwnArray (mgr : nat) (group : string)
| ObjectPrototype
| PrototypeMember (name : string)
| PromiseObject (task : nat).

(** The argument of [releaseTasks], which is the first argument of the
    [destroy] event that runs it: a motion manager, an expression manager,
    or anything else ([undefined] when the event carries no argument). *)
Inductive Target : Type :=
| MotionManagerTarget (mgr : nat)
| ExpressionManagerTarget (mgr : nat)
| OtherTarget.

#[export] Instance Target_eq_dec : EqDecision Target.
Proof. solve_decision. Defined.

(** What a block of statements ends with. *)
Inductive Completion (A : Type) : Type :=
| Normal (a : A)
| Thrown (e : Error).
Arguments Normal {A} a.
Arguments Thrown {A} e.

Lemma lookup_snoc_Some {A : Type} (l : list A) (x : A) (i : nat) (y : A) :
  (l ++ [x]) !! i = Some y -> l !! i = Some y \/ (i = length l /\ y = x).
Proof.
  intros H0. apply lookup_app_Some in H0 as [H0|[Hge H0]]; [by left|].
  right. apply list_lookup_singleton_Some in H0 as [Hz <-]. split; [lia | reflexivity].
Qed.

Lemma lookup_insert_cases {A : Type} (l : list A) (i : nat) (x : A) (j : nat) (y : A) :
  <[i := x]> l !! j = Some y -> (j = i /\ y = x) \/ (j <> i /\ l !! j = Some y).
Proof.
  intros H0.
  apply list_lookup_insert_Some in H0 as [(-> & <- & _)|[Hne H0]]; [by left | right].
  split; [congruence | exact H0].
Qed.

Section LoadMotion.
Context {Motion MotionSpec Data : Type}.

(** The members of [MotionManager<Motion, MotionSpec>] that [loadMotion]
    uses; [createMotion] may throw.  [definitions] is the manager's table
    as its type gives it, [Partial<Record<string, MotionSpec[]>>]: a group
    has the definitions listed under its name and an index beyond the list
    has none, so that [definitions[group]?.[index]] is a [MotionSpec] or
    [undefined].  The table is the manager's and does not change. *)
Record MotionManager : Type := mkMotionManager {
  tag : string;
  definitions : gmap string (list MotionSpec);
  getMotionFile : MotionSpec -> string;
  createMotion : Data -> MotionSpec -> Motion + Error;
}.

(** The motion managers, by identity. *)
Variable manager : nat -> MotionManager.

(** A task of [motionTasksMap]: what its callbacks captured, and the state
    of the promise that [loadMotion] returned. *)
Record Task : Type := mkTask {
  t_manager : nat;
  t_group : string;
  t_index : Z;
  t_definition : MotionSpec;
  t_path : string;
  t_state : PromiseState (option Motion);
}.

Definition set_state (s : PromiseState (option Motion)) (t : Task) : Task :=
  mkTask (t_manager t) (t_group t) (t_index t) (t_definition t) (t_path t) s.

(** The factory's static state, and around it the promises it made, the
    loads it started, the [destroy] listeners it registered and the
    warnings it logged.  [motionTasksMap] holds, for each manager, the own
    properties of its [tasks] object: the arrays, each with its own
    elements.  The last three fields are the indexed properties that
    [loadMotion] has put on objects it reached through the prototype of
    [tasks]: on [Object.prototype], on its other members, and on
    promises. *)
Record Factory : Type := mkFactory {
  motionTasksMap : gmap nat (gmap string (gmap Z nat));
  tasks : list Task;
  loads : list (nat * string);
  destroyListeners : gset nat;
  warnings : list (string * string);
  objectPrototype : gmap Z nat;
  prototypeMembers : gmap string (gmap Z nat);
  promiseProperties : gmap nat (gmap Z nat);
}.

Definition empty_factory : Factory := mkFactory ∅ [] [] ∅ [] ∅ ∅ ∅.

Definition set_motionTasksMap (m : gmap nat (gmap string (gmap Z nat))) (f : Factory) :=
  mkFactory m (tasks f) (loads f) (destroyListeners f) (warnings f)
    (objectPrototype f) (prototypeMembers f) (promiseProperties f).

Definition set_tasks (ts : list Task) (f : Factory) :=
  mkFactory (motionTasksMap f) ts (loads f) (destroyListeners f) (warnings f)
    (objectPrototype f) (prototypeMembers f) (promiseProperties f).

Definition set_loads (ls : list (nat * string)) (f : Factory) :=
  mkFactory (motionTasksMap f) (tasks f) ls (destroyListeners f) (warnings f)
    (objectPrototype f) (prototypeMembers f) (promiseProperties f).

Definition set_destroyListeners (d : gset nat) (f : Factory) :=
  mkFactory (motionTasksMap f) (tasks f) (loads f) d (warnings f)
    (objectPrototype f) (prototypeMembers f) (promiseProperties f).

Definition set_objectPrototype (p : gmap Z nat) (f : Factory) :=
  mkFactory (motionTasksMap f) (tasks f) (loads f) (destroyListeners f) (warnings f)
    p (prototypeMembers f) (promiseProperties f).

Definition set_prototypeMembers (p : gmap string (gmap Z nat)) (f : Factory) :=
  mkFactory (motionTasksMap f) (tasks f) (loads f) (destroyListeners f) (warnings f)
    (objectPrototype f) p (promiseProperties f).

Definition set_promiseProperties (p : gmap nat (gmap Z nat)) (f : Factory) :=
  mkFactory (motionTasksMap f) (tasks f) (loads f) (destroyListeners f) (warnings f)
    (objectPrototype f) (prototypeMembers f) p.

(** [logger.warn(tag, message)]; it returns [undefined]. *)
Definition warn (tag message : string) (f : Factory) : Factory :=
  mkFactory (motionTasksMap f) (tasks f) (loads f) (destroyListeners f)
    (warnings f ++ [(tag, message)])
    (objectPrototype f) (prototypeMembers f) (promiseProperties f).

(** The entry of [motionTasksMap] for a resource: an element of an array
    of the manager's own. *)
Definition lookup_task (m : gmap nat (gmap string (gmap Z nat)))
    (mgr : nat) (group : string) (index : Z) : option nat :=
  tasks_of_manager ← m !! mgr;
  taskGroup ← tasks_of_manager !! group;
  taskGroup !! index.

Definition cached (f : Factory) (mgr : nat) (group : string) (index : Z) : option nat :=
  lookup_task (motionTasksMap f) mgr group index.

Definition task_state (f : Factory) (t : nat) : option (PromiseState (option Motion)) :=
  t_state <$> tasks f !! t.

(** The promise that [Object.prototype] holds under the key [key]. *)
Definition object_prototype_at (f : Factory) (key : string) : option nat :=
  snd <$> head (filter (fun entry => property_key entry.1 = key)
                       (map_to_list (objectPrototype f))).

(** [tasks[group]] where [tasks] has no property [group] of its own: what
    [Object.prototype] holds under that name. *)
Definition inherited (f : Factory) (group : string) : option TaskGroup :=
  if decide (group = "__proto__") then Some ObjectPrototype
  else if decide (group ∈ Object_prototype_names) then Some (PrototypeMember group)
  else PromiseObject <$> object_prototype_at f group.

(** [tasks[group]] for the [tasks] object of [mgr]. *)
Definition get_group (f : Factory) (mgr : nat) (group : string) : option TaskGroup :=
  match motionTasksMap f !! mgr ≫= (fun tasks_of_manager => tasks_of_manager !! group) with
  | Some _ => Some (OwnArray mgr group)
  | None => inherited f group
  end.

(** The indexed properties that an object has of its own. *)
Definition own_properties (f : Factory) (taskGroup : TaskGroup) : gmap Z nat :=
  match taskGroup with
  | OwnArray mgr group =>
      default ∅ (motionTasksMap f !! mgr ≫= (fun tasks_of_manager => tasks_of_manager !! group))
  | ObjectPrototype => objectPrototype f
  | PrototypeMember name => default ∅ (prototypeMembers f !! name)
  | PromiseObject t => default ∅ (promiseProperties f !! t)
  end.

(** [taskGroup[index]]: a property of its own, or the one that
    [Object.prototype], the end of every prototype chain, holds. *)
Definition get_index (f : Factory) (taskGroup : TaskGroup) (index : Z) : option nat :=
  match own_properties f taskGroup !! index with
  | Some t => Some t
  | None =>
      match taskGroup with
      | ObjectPrototype => None
      | _ => objectPrototype f !! index
      end
  end.

(** A change to the indexed properties that an object has of its own. *)
Definition update_properties (taskGroup : TaskGroup) (change : gmap Z nat -> gmap Z nat)
    (f : Factory) : Factory :=
  match taskGroup with
  | OwnArray mgr group =>
      let tasks_of_manager := default ∅ (motionTasksMap f !! mgr) in
      set_motionTasksMap
        (<[mgr := <[group := change (default ∅ (tasks_of_manager !! group))]> tasks_of_manager]>
           (motionTasksMap f)) f
  | ObjectPrototype => set_objectPrototype (change (objectPrototype f)) f
  | PrototypeMember name =>
      set_prototypeMembers
        (<[name := change (default ∅ (prototypeMembers f !! name))]> (prototypeMembers f)) f
  | PromiseObject t =>
      set_promiseProperties
        (<[t := change (default ∅ (promiseProperties f !! t))]> (promiseProperties f)) f
  end.

(** [const definition = motionManager.definitions[group]?.[index]]. *)
Definition definition_at (mgr : nat) (group : string) (index : Z) : option MotionSpec :=
  definitions (manager mgr) !! group ≫= (fun defs => at_index defs index).

(** [let tasks = this.motionTasksMap.get(motionManager)], and where there
    is none, [tasks = {}; this.motionTasksMap.set(motionManager, tasks)]. *)
Definition ensure_tasks (mgr : nat) (f : Factory) : Factory :=
  match motionTasksMap f !! mgr with
  | Some _ => f
  | None => set_motionTasksMap (<[mgr := ∅]> (motionTasksMap f)) f
  end.

(** [let taskGroup = tasks[group]], and where that is [undefined],
    [taskGroup = []; tasks[group] = taskGroup]. *)
Definition ensure_taskGroup (mgr : nat) (group : string) (f : Factory)
    : TaskGroup * Factory :=
  match get_group f mgr group with
  | Some taskGroup => (taskGroup, f)
  | None => (OwnArray mgr group, update_properties (OwnArray mgr group) (fun _ => ∅) f)
  end.

(** [Live2DLoader.load({url: path, ...}).then(...).catch(...)]: a load is
    started and a pending promise made; its number is returned. *)
Definition start_load (mgr : nat) (group : string) (index : Z) (definition : MotionSpec)
    (path : string) (f : Factory) : nat * Factory :=
  (length (tasks f),
   set_tasks (tasks f ++ [mkTask mgr group index definition path Pending])
     (set_loads (loads f ++ [(mgr, path)]) f)).

(** [taskGroup[index] ??= Live2DLoader.load(...)...; return taskGroup[index]]:
    the load is started only where [taskGroup[index]] is [undefined]. *)
Definition load_once (mgr : nat) (group : string) (index : Z) (definition : MotionSpec)
    (path : string) (taskGroup : TaskGroup) (f : Factory) : Returned * Factory :=
  match get_index f taskGroup index with
  | Some t => (TaskRef t, f)
  | None =>
      let started := start_load mgr group index definition path f in
      (TaskRef started.1, update_properties taskGroup (insert index started.1) started.2)
  end.

(** The [try] block of [loadMotion].  The calls it makes on its
    collaborators return as their types say, so it completes normally. *)
Definition loadMotion_try (f : Factory) (mgr : nat) (group : string) (index : Z)
    : Completion Returned * Factory :=
  match definition_at mgr group index with
  | None => (Normal ResolvedUndefined, f)
  | Some definition =>
      let f := set_destroyListeners ({[mgr]} ∪ destroyListeners f) f in
      let f := ensure_tasks mgr f in
      let found := ensure_taskGroup mgr group f in
      let path := getMotionFile (manager mgr) definition in
      let r := load_once mgr group index definition path found.1 found.2 in
      (Normal r.1, r.2)
  end.

(** The double quote. *)
Definition quote : string := String (Ascii.ascii_of_nat 34) EmptyString.

Definition loadMotion (f : Factory) (mgr : nat) (group : string) (index : Z)
    : Returned * Factory :=
  match loadMotion_try f mgr group index with
  | (Normal returned, f) => (returned, f)
  | (Thrown e, f) =>
      (ResolvedUndefined,
       warn (tag (manager mgr))
         (String.append "Failed to load motion at "
            (String.append quote
               (String.append group
                  (String.append quote
                     (String.append "[" (String.append (property_key index) "]")))))) f)
  end.

(** [promise.then(callback)] and [promise.catch(handler)], run when the
    promise settles. *)
Definition then_ {A B : Type} (p : Settled A)
    (callback : A -> Factory -> Settled B * Factory) (f : Factory) : Settled B * Factory :=
  match p with
  | Fulfill a => callback a f
  | Reject e => (Reject e, f)
  end.

Definition catch_ {A : Type} (p : Settled A * Factory)
    (handler : Error -> Factory -> A * Factory) : Settled A * Factory :=
  match p with
  | (Fulfill a, f) => (Fulfill a, f)
  | (Reject e, f) => let r := handler e f in (Fulfill r.1, r.2)
  end.

(** The first statements of a task's [then] callback:
    [taskGroup = motionTasksMap.get(motionManager)?.[group]] and, if there
    is one, [delete taskGroup[index]]. *)
Definition drop_cached (task : Task) (f : Factory) : Factory :=
  match motionTasksMap f !! t_manager task with
  | Some _ =>
      match get_group f (t_manager task) (t_group task) with
      | Some taskGroup => update_properties taskGroup (delete (t_index task)) f
      | None => f
      end
  | None => f
  end.

(** The [then] callback of a task: drop the task from its group, then
    create the motion. *)
Definition on_loaded (task : Task) (data : Data) (f : Factory)
    : Settled (option Motion) * Factory :=
  let f := drop_cached task f in
  match createMotion (manager (t_manager task)) data (t_definition task) with
  | inl motion => (Fulfill (Some motion), f)
  | inr e => (Reject e, f)
  end.

(** The [catch] handler of a task. *)
Definition on_failed (task : Task) (e : Error) (f : Factory) : option Motion * Factory :=
  (None,
   warn (tag (manager (t_manager task)))
     (String.append "Failed to load motion: " (t_path task)) f).

(** The load behind task [t] settles with [outcome]: the task's callbacks
    run and its promise settles. *)
Definition settle (f : Factory) (t : nat) (outcome : Settled Data) : Factory :=
  match tasks f !! t with
  | Some task =>
      match t_state task with
      | Pending =>
          let r := catch_ (then_ outcome (on_loaded task) f) (on_failed task) in
          set_tasks (<[t := set_state (Done r.1) task]> (tasks r.2)) r.2
      | Done _ => f
      end
  | None => f
  end.

(** [releaseTasks(target)]: for a motion manager its entry of
    [motionTasksMap] is deleted; for any other value the call is
    [expressionTasksMap.delete(target)], which leaves this state alone. *)
Definition releaseTasks (f : Factory) (target : Target) : Factory :=
  match target with
  | MotionManagerTarget mgr => set_motionTasksMap (delete mgr (motionTasksMap f)) f
  | ExpressionManagerTarget _ | OtherTarget => f
  end.

(** A [destroy] event on the manager [mgr], with [target] as its first
    argument.  The listener was registered by [once]: it is removed when it
    runs.  It is [releaseTasks], which reads the manager from the event's
    argument; what the emitter passes is not decided here, so [target] is a
    parameter. *)
Definition destroy (f : Factory) (mgr : nat) (target : Target) : Factory :=
  if decide (mgr ∈ destroyListeners f)
  then releaseTasks (set_destroyListeners (destroyListeners f ∖ {[mgr]}) f) target
  else f.

(** The states that calls to [loadMotion] and settling loads lead to, while
    no manager is destroyed. *)
Inductive reachable : Factory -> Prop :=
| reach_empty : reachable empty_factory
| reach_loadMotion f mgr group index :
    reachable f -> reachable (loadMotion f mgr group index).2
| reach_settle f t outcome :
    reachable f -> reachable (settle f t outcome).

(** The states that calls to [loadMotion], settling loads, [destroy] events
    with any argument and calls to [releaseTasks] lead to. *)
Inductive reachable_destroying : Factory -> Prop :=
| reachd_empty : reachable_destroying empty_factory
| reachd_loadMotion f mgr group index :
    reachable_destroying f -> reachable_destroying (loadMotion f mgr group index).2
| reachd_settle f t outcome :
    reachable_destroying f -> reachable_destroying (settle f t outcome)
| reachd_destroy f mgr target :
    reachable_destroying f -> reachable_destroying (destroy f mgr target)
| reachd_releaseTasks f target :
    reachable_destroying f -> reachable_destroying (releaseTasks f target).

(** The states reached while every group is a name that [tasks] can hold
    as a property of its own (no name of a member of [Object.prototype])
    and [releaseTasks] runs for the targets in [releasable] only. *)
Inductive reachable_own (releasable : Target -> Prop) : Factory -> Prop :=
| own_empty : reachable_own releasable empty_factory
| own_loadMotion f mgr group index :
    reachable_own releasable f -> group ∉ Object_prototype_names ->
    reachable_own releasable (loadMotion f mgr group index).2
| own_settle f t outcome :
    reachable_own releasable f -> reachable_own releasable (settle f t outcome)
| own_destroy f mgr target :
    reachable_own releasable f -> releasable target ->
    reachable_own releasable (destroy f mgr target)
| own_releaseTasks f target :
    reachable_own releasable f -> releasable target ->
    reachable_own releasable (releaseTasks f target).

(** ** Properties of [loadMotion] *)

Definition key_of (task : Task) : nat * string * Z :=
  (t_manager task, t_group task, t_index task).

(** Every pending task is the one cached for its resource. *)
Definition pending_cached (f : Factory) : Prop :=
  forall t task, tasks f !! t = Some task -> t_state task = Pending ->
    cached f (t_manager task) (t_group task) (t_index task) = Some t.

(** Every task was made for a definition that its manager has. *)
Definition tasks_defined (f : Factory) : Prop :=
  forall t task, tasks f !! t = Some task ->
    definition_at (t_manager task) (t_group task) (t_index task) = Some (t_definition task).

(** No task's promise is rejected. *)
Definition never_rejected (f : Factory) : Prop :=
  forall t task e, tasks f !! t = Some task -> t_state task <> Done (Reject e).

(** The loads started are, in order, one for each task. *)
Definition loads_of_tasks (f : Factory) : Prop :=
  loads f = (fun task => (t_manager task, t_path task)) <$> tasks f.

Definition fulfilled_undefined (task : Task) : bool :=
  match t_state task with
  | Done (Fulfill None) => true
  | _ => false
  end.

(** One warning was logged for each task fulfilled with [undefined]. *)
Definition warned_once_each (f : Factory) : Prop :=
  length (warnings f) = length (List.filter fulfilled_undefined (tasks f)).

(** The objects that hold tasks. *)
Definition store (f : Factory)
    : gmap nat (gmap string (gmap Z nat)) * gmap Z nat * gmap string (gmap Z nat)
      * gmap nat (gmap Z nat) :=
  (motionTasksMap f, objectPrototype f, prototypeMembers f, promiseProperties f).

(** No call has stored a task on [Object.prototype], on a member of it or
    on a promise. *)
Definition unpolluted (f : Factory) : Prop :=
  objectPrototype f = ∅ /\ prototypeMembers f = ∅ /\ promiseProperties f = ∅.

(** Every task was made for a group that [tasks] holds as a property of
    its own. *)
Definition own_groups (f : Factory) : Prop :=
  forall t task, tasks f !! t = Some task -> t_group task ∉ Object_prototype_names.

(** Every entry of [motionTasksMap] names a task made for that resource. *)
Definition cache_consistent (f : Factory) : Prop :=
  forall mgr group index t, cached f mgr group index = Some t ->
    exists task, tasks f !! t = Some task /\ key_of task = (mgr, group, index).

(** Every pending task of the manager [mgr] is the one cached for its
    resource. *)
Definition pending_cached_of (mgr : nat) (f : Factory) : Prop :=
  forall t task, tasks f !! t = Some task -> t_manager task = mgr -> t_state task = Pending ->
    cached f mgr (t_group task) (t_index task) = Some t.

Lemma lookup_nested_insert (m : gmap nat (gmap string (gmap Z nat)))
    (mgr : nat) (group : string) (taskGroup : gmap Z nat)
    (mgr' : nat) (group' : string) (index' : Z) :
  lookup_task (<[mgr := <[group := taskGroup]> (default ∅ (m !! mgr))]> m) mgr' group' index'
  = if decide (mgr' = mgr /\ group' = group) then taskGroup !! index'
    else lookup_task m mgr' group' index'.
Proof.
  unfold lookup_task.
  destruct (decide (mgr' = mgr /\ group' = group)) as [[-> ->]|Hne].
  - rewrite lookup_insert_eq. simpl. rewrite lookup_insert_eq. reflexivity.
  - destruct (decide (mgr' = mgr)) as [->|Hm].
    + rewrite lookup_insert_eq. simpl.
      rewrite lookup_insert_ne by (intros ->; apply Hne; split; reflexivity).
      destruct (m !! mgr); simpl; [reflexivity | by rewrite lookup_empty].
    + rewrite lookup_insert_ne by congruence. reflexivity.
Qed.

Lemma cached_default f mgr group index :
  cached f mgr group index
  = default ∅ (default ∅ (motionTasksMap f !! mgr) !! group) !! index.
Proof.
  unfold cached, lookup_task. destruct (motionTasksMap f !! mgr) as [tm|]; simpl; [|reflexivity].
  destruct (tm !! group); reflexivity.
Qed.

Lemma cached_ext f1 f2 mgr group index :
  motionTasksMap f1 = motionTasksMap f2 -> cached f1 mgr group index = cached f2 mgr group index.
Proof. unfold cached. intros ->. reflexivity. Qed.

(** *** What each step leaves alone *)

Lemma update_properties_fields taskGroup change f :
  tasks (update_properties taskGroup change f) = tasks f /\
  loads (update_properties taskGroup change f) = loads f /\
  warnings (update_properties taskGroup change f) = warnings f /\
  destroyListeners (update_properties taskGroup change f) = destroyListeners f.
Proof. destruct taskGroup; done. Qed.

Lemma ensure_tasks_fields mgr f :
  tasks (ensure_tasks mgr f) = tasks f /\
  loads (ensure_tasks mgr f) = loads f /\
  warnings (ensure_tasks mgr f) = warnings f /\
  destroyListeners (ensure_tasks mgr f) = destroyListeners f /\
  objectPrototype (ensure_tasks mgr f) = objectPrototype f /\
  prototypeMembers (ensure_tasks mgr f) = prototypeMembers f /\
  promiseProperties (ensure_tasks mgr f) = promiseProperties f.
Proof. unfold ensure_tasks. destruct (motionTasksMap f !! mgr); done. Qed.

Lemma ensure_taskGroup_fields mgr group f :
  tasks (ensure_taskGroup mgr group f).2 = tasks f /\
  loads (ensure_taskGroup mgr group f).2 = loads f /\
  warnings (ensure_taskGroup mgr group f).2 = warnings f /\
  destroyListeners (ensure_taskGroup mgr group f).2 = destroyListeners f.
Proof. unfold ensure_taskGroup. destruct (get_group f mgr group); done. Qed.

Lemma drop_cached_fields task f :
  tasks (drop_cached task f) = tasks f /\
  loads (drop_cached task f) = loads f /\
  warnings (drop_cached task f) = warnings f /\
  destroyListeners (drop_cached task f) = destroyListeners f.
Proof.
  unfold drop_cached. destruct (motionTasksMap f !! t_manager task); [|done].
  destruct (get_group f (t_manager task) (t_group task)); [|done].
  apply update_properties_fields.
Qed.

Lemma releaseTasks_fields f target :
  tasks (releaseTasks f target) = tasks f /\ loads (releaseTasks f target) = loads f /\
  warnings (releaseTasks f target) = warnings f /\
  destroyListeners (releaseTasks f target) = destroyListeners f /\
  objectPrototype (releaseTasks f target) = objectPrototype f /\
  prototypeMembers (releaseTasks f target) = prototypeMembers f /\
  promiseProperties (releaseTasks f target) = promiseProperties f.
Proof. destruct target; done. Qed.

Lemma destroy_fields f mgr target :
  tasks (destroy f mgr target) = tasks f /\ loads (destroy f mgr target) = loads f /\
  warnings (destroy f mgr target) = warnings f /\
  objectPrototype (destroy f mgr target) = objectPrototype f /\
  prototypeMembers (destroy f mgr target) = prototypeMembers f /\
  promiseProperties (destroy f mgr target) = promiseProperties f.
Proof. unfold destroy. destruct (decide _); [|done]. destruct target; done. Qed.

(** *** The body of [loadMotion] *)

Lemma loadMotion_unfold f mgr group index :
  loadMotion f mgr group index
  = match definition_at mgr group index with
    | None => (ResolvedUndefined, f)
    | Some definition =>
        let f0 := ensure_tasks mgr (set_destroyListeners ({[mgr]} ∪ destroyListeners f) f) in
        let found := ensure_taskGroup mgr group f0 in
        load_once mgr group index definition (getMotionFile (manager mgr) definition)
          found.1 found.2
    end.
Proof.
  unfold loadMotion, loadMotion_try. destruct (definition_at mgr group index); [|reflexivity].
  cbv zeta. destruct (load_once _ _ _ _ _ _ _); reflexivity.
Qed.

Lemma loadMotion_undefined f mgr group index :
  definition_at mgr group index = None ->
  loadMotion f mgr group index = (ResolvedUndefined, f).
Proof. intros Hd. rewrite loadMotion_unfold, Hd. reflexivity. Qed.

Lemma load_once_found mgr group index d path taskGroup f t :
  get_index f taskGroup index = Some t ->
  load_once mgr group index d path taskGroup f = (TaskRef t, f).
Proof. unfold load_once. intros ->. reflexivity. Qed.

Lemma load_once_started mgr group index d path taskGroup f :
  get_index f taskGroup index = None ->
  load_once mgr group index d path taskGroup f
  = (TaskRef (length (tasks f)),
     update_properties taskGroup (insert index (length (tasks f)))
       (set_tasks (tasks f ++ [mkTask mgr group index d path Pending])
          (set_loads (loads f ++ [(mgr, path)]) f))).
Proof. unfold load_once. intros ->. reflexivity. Qed.

(** What a call does to the lists of tasks, loads and warnings: nothing,
    or one task and one load more. *)
Lemma loadMotion_lists f mgr group index :
  let r := loadMotion f mgr group index in
  warnings r.2 = warnings f /\
  ((tasks r.2 = tasks f /\ loads r.2 = loads f) \/
   (exists d, definition_at mgr group index = Some d /\
      r.1 = TaskRef (length (tasks f)) /\
      tasks r.2 = tasks f ++ [mkTask mgr group index d (getMotionFile (manager mgr) d) Pending] /\
      loads r.2 = loads f ++ [(mgr, getMotionFile (manager mgr) d)])).
Proof.
  intros r. subst r. rewrite loadMotion_unfold.
  destruct (definition_at mgr group index) as [d|] eqn:Hd; [|split; [done | by left]].
  cbv zeta.
  set (f0 := ensure_tasks mgr (set_destroyListeners ({[mgr]} ∪ destroyListeners f) f)).
  destruct (ensure_tasks_fields mgr (set_destroyListeners ({[mgr]} ∪ destroyListeners f) f))
    as (Ht0 & Hl0 & Hw0 & _). fold f0 in Ht0, Hl0, Hw0. simpl in Ht0, Hl0, Hw0.
  destruct (ensure_taskGroup_fields mgr group f0) as (Ht1 & Hl1 & Hw1 & _).
  set (found := ensure_taskGroup mgr group f0) in *.
  destruct (get_index found.2 found.1 index) as [t|] eqn:Hi.
  - rewrite (load_once_found _ _ _ _ _ _ _ _ Hi). simpl.
    split; [congruence|]. left. split; congruence.
  - rewrite (load_once_started _ _ _ _ _ _ _ Hi).
    cbn [fst snd].
    destruct (update_properties_fields found.1 (insert index (length (tasks found.2)))
      (set_tasks (tasks found.2 ++ [mkTask mgr group index d (getMotionFile (manager mgr) d) Pending])
         (set_loads (loads found.2 ++ [(mgr, getMotionFile (manager mgr) d)]) found.2)))
      as (Ht2 & Hl2 & Hw2 & _).
    rewrite Ht2, Hl2, Hw2. simpl. rewrite Ht1, Hl1, Hw1, Ht0, Hl0, Hw0.
    split; [reflexivity|]. right. exists d. done.
Qed.

Lemma catch_fulfills {A : Type} (p : Settled A * Factory) handler :
  exists a, (catch_ p handler).1 = Fulfill a.
Proof. destruct p as [[a|e] f]; simpl; eauto. Qed.

Lemma on_loaded_factory task data f : (on_loaded task data f).2 = drop_cached task f.
Proof. unfold on_loaded. destruct (createMotion _ _ _); reflexivity. Qed.

Lemma settle_pending f t task outcome :
  tasks f !! t = Some task -> t_state task = Pending ->
  let r := catch_ (then_ outcome (on_loaded task) f) (on_failed task) in
  settle f t outcome
  = set_tasks (<[t := set_state (Done r.1) task]> (tasks r.2)) r.2.
Proof. intros Ht Hp. unfold settle. rewrite Ht, Hp. reflexivity. Qed.

Lemma settle_not_pending f t outcome :
  (forall task, tasks f !! t = Some task -> t_state task <> Pending) ->
  settle f t outcome = f.
Proof.
  intros Hn. unfold settle. destruct (tasks f !! t) as [task|] eqn:Ht; [|reflexivity].
  destruct (t_state task) eqn:Hs; [|reflexivity].
  exfalso. exact (Hn task eq_refl Hs).
Qed.

(** What settling does to the rest of the state, by the way the load
    ended. *)
Lemma settle_effect f t task outcome :
  tasks f !! t = Some task -> t_state task = Pending ->
  let f' := settle f t outcome in
  loads f' = loads f /\
  match outcome with
  | Fulfill data =>
      store f' = store (drop_cached task f) /\
      match createMotion (manager (t_manager task)) data (t_definition task) with
      | inl motion =>
          tasks f' = <[t := set_state (Done (Fulfill (Some motion))) task]> (tasks f) /\
          warnings f' = warnings f
      | inr e =>
          tasks f' = <[t := set_state (Done (Fulfill None)) task]> (tasks f) /\
          warnings f'
          = warnings f ++ [(tag (manager (t_manager task)),
                            String.append "Failed to load motion: " (t_path task))]
      end
  | Reject e =>
      store f' = store f /\
      tasks f' = <[t := set_state (Done (Fulfill None)) task]> (tasks f) /\
      warnings f'
      = warnings f ++ [(tag (manager (t_manager task)),
                        String.append "Failed to load motion: " (t_path task))]
  end.
Proof.
  intros Ht Hp f'. subst f'. rewrite (settle_pending f t task outcome Ht Hp). cbv zeta.
  destruct (drop_cached_fields task f) as (Htd & Hld & Hwd & _).
  destruct outcome as [data|e]; simpl.
  - unfold on_loaded.
    destruct (createMotion (manager (t_manager task)) data (t_definition task)); simpl;
      rewrite Htd, Hld, ?Hwd; done.
  - done.
Qed.

Lemma store_cached f1 f2 mgr group index :
  store f1 = store f2 -> cached f1 mgr group index = cached f2 mgr group index.
Proof. unfold store. intros [= Hm _ _ _]. by apply cached_ext. Qed.

Lemma store_unpolluted f1 f2 : store f1 = store f2 -> unpolluted f2 -> unpolluted f1.
Proof. unfold store, unpolluted. intros [= _ -> -> ->]. done. Qed.

Lemma settle_tasks f t task outcome :
  tasks f !! t = Some task -> t_state task = Pending ->
  exists r, tasks (settle f t outcome) = <[t := set_state (Done (Fulfill r)) task]> (tasks f) /\
    warnings (settle f t outcome)
    = warnings f ++ match r with
                    | None => [(tag (manager (t_manager task)),
                                String.append "Failed to load motion: " (t_path task))]
                    | Some _ => []
                    end.
Proof.
  intros Ht Hp. destruct (settle_effect f t task outcome Ht Hp) as [_ Heff].
  destruct outcome as [data|e].
  - destruct Heff as [_ Heff].
    destruct (createMotion _ _ _) as [motion|e]; destruct Heff as [-> ->].
    + exists (Some motion). by rewrite app_nil_r.
    + by exists None.
  - destruct Heff as (_ & -> & ->). by exists None.
Qed.


Lemma filter_insert_length (l : list Task) t task task' :
  l !! t = Some task -> fulfilled_undefined task = false ->
  length (List.filter fulfilled_undefined (<[t := task']> l))
  = length (List.filter fulfilled_undefined l)
    + (if fulfilled_undefined task' then 1 else 0).
Proof.
  intros Ht Hold.
  rewrite insert_take_drop by (eapply lookup_lt_Some; exact Ht).
  rewrite <- (take_drop_middle l t task Ht) at 3.
  rewrite !List.filter_app, !length_app. simpl. rewrite Hold.
  destruct (fulfilled_undefined task'); simpl; lia.
Qed.

(** *** What holds in every state *)


Lemma reachable_own_is_destroying releasable f :
  reachable_own releasable f -> reachable_destroying f.
Proof. induction 1; by constructor. Qed.

Lemma reachable_destroying_invariants f :
  reachable_destroying f ->
  loads_of_tasks f /\ warned_once_each f /\ never_rejected f /\ tasks_defined f.
Proof.
  induction 1 as [|f mgr group index _ IH|f t outcome _ IH|f mgr target _ IH|f target _ IH].
  - split; [|split; [|split]]; try reflexivity.
    + intros t task e Hl. destruct t; discriminate Hl.
    + intros t task Hl. destruct t; discriminate Hl.
  - destruct IH as (Hl & Hw & Hnr & Htd). unfold loads_of_tasks, warned_once_each in Hl, Hw.
    destruct (loadMotion_lists f mgr group index) as [Hwarn [[Htasks Hloads]|Hnew]].
    + split; [|split; [|split]].
      * unfold loads_of_tasks. by rewrite Hloads, Htasks.
      * unfold warned_once_each. by rewrite Hwarn, Htasks.
      * intros t' task e. rewrite Htasks. apply Hnr.
      * intros t' task. rewrite Htasks. apply Htd.
    + destruct Hnew as (d & Hd & _ & Htasks & Hloads).
      split; [|split; [|split]].
      * unfold loads_of_tasks. rewrite Hloads, Htasks, fmap_app, Hl. reflexivity.
      * unfold warned_once_each. rewrite Hwarn, Htasks, List.filter_app, length_app.
        simpl. lia.
      * intros t' task e. rewrite Htasks. intros Hl'.
        apply lookup_app_Some in Hl' as [Hl'|[_ Hl']]; [by eapply Hnr|].
        apply list_lookup_singleton_Some in Hl' as [_ <-]. discriminate.
      * intros t' task. rewrite Htasks. intros Hl'.
        apply lookup_app_Some in Hl' as [Hl'|[_ Hl']]; [by eapply Htd|].
        apply list_lookup_singleton_Some in Hl' as [_ <-]. exact Hd.
  - destruct IH as (Hl & Hw & Hnr & Htd). unfold loads_of_tasks, warned_once_each in Hl, Hw.
    destruct (tasks f !! t) as [task|] eqn:Ht.
    2:{ rewrite settle_not_pending; [done|]. intros task. rewrite Ht. discriminate. }
    destruct (t_state task) as [|s] eqn:Hs.
    2:{ rewrite settle_not_pending; [done|]. intros task' Ht'. congruence. }
    destruct (settle_tasks f t task outcome Ht Hs) as (r & Htasks & Hwarn).
    destruct (settle_effect f t task outcome Ht Hs) as [Hloads _].
    split; [|split; [|split]].
    + unfold loads_of_tasks. rewrite Hloads, Htasks, Hl.
      rewrite list_fmap_insert. simpl. symmetry. apply list_insert_id.
      rewrite list_lookup_fmap, Ht. reflexivity.
    + unfold warned_once_each. rewrite Hwarn, Htasks, length_app.
      rewrite (filter_insert_length _ _ task) by (done || (unfold fulfilled_undefined; by rewrite Hs)).
      rewrite Hw. unfold fulfilled_undefined; simpl. destruct r; simpl; lia.
    + intros t' task' e. rewrite Htasks. intros Hl'.
      apply list_lookup_insert_Some in Hl' as [(_ & <- & _)|[_ Hl']]; [discriminate|].
      by eapply Hnr.
    + intros t' task'. rewrite Htasks. intros Hl'.
      apply list_lookup_insert_Some in Hl' as [(_ & <- & _)|[_ Hl']]; [|by eapply Htd].
      simpl. by eapply Htd.
  - destruct IH as (Hl & Hw & Hnr & Htd). unfold loads_of_tasks, warned_once_each in Hl, Hw.
    destruct (destroy_fields f mgr target) as (Ht' & Hl' & Hw' & _).
    unfold loads_of_tasks, warned_once_each, never_rejected, tasks_defined.
    rewrite Ht', Hl', Hw'. done.
  - destruct IH as (Hl & Hw & Hnr & Htd). unfold loads_of_tasks, warned_once_each in Hl, Hw.
    destruct (releaseTasks_fields f target) as (Ht' & Hl' & Hw' & _).
    unfold loads_of_tasks, warned_once_each, never_rejected, tasks_defined.
    rewrite Ht', Hl', Hw'. done.
Qed.

(** *** Groups that [tasks] holds as properties of its own *)

Lemma get_group_own f mgr group :
  unpolluted f -> group ∉ Object_prototype_names ->
  get_group f mgr group
  = match motionTasksMap f !! mgr ≫= (fun tasks_of_manager => tasks_of_manager !! group) with
    | Some _ => Some (OwnArray mgr group)
    | None => None
    end.
Proof.
  intros (Hop & _ & _) Hg. unfold get_group.
  destruct (motionTasksMap f !! mgr ≫= _); [reflexivity|].
  unfold inherited.
  rewrite decide_False by (intros ->; apply Hg; apply list_elem_of_here).
  rewrite decide_False by exact Hg.
  unfold object_prototype_at. rewrite Hop, map_to_list_empty. reflexivity.
Qed.

Lemma get_index_own f mgr group index :
  unpolluted f -> get_index f (OwnArray mgr group) index = cached f mgr group index.
Proof.
  intros (Hop & _ & _). unfold get_index, own_properties. rewrite Hop, lookup_empty.
  unfold cached, lookup_task.
  destruct (motionTasksMap f !! mgr) as [tm|]; simpl.
  - destruct (tm !! group) as [tg|]; simpl.
    + destruct (tg !! index); reflexivity.
    + rewrite lookup_empty. reflexivity.
  - rewrite lookup_empty. reflexivity.
Qed.

Lemma cached_update_own mgr group change f mgr' group' index' :
  cached (update_properties (OwnArray mgr group) change f) mgr' group' index'
  = if decide (mgr' = mgr /\ group' = group)
    then change (default ∅ (default ∅ (motionTasksMap f !! mgr) !! group)) !! index'
    else cached f mgr' group' index'.
Proof. unfold cached. simpl. apply lookup_nested_insert. Qed.

Lemma cached_ensure_tasks mgr f m g i : cached (ensure_tasks mgr f) m g i = cached f m g i.
Proof.
  unfold ensure_tasks. destruct (motionTasksMap f !! mgr) eqn:Hm; [reflexivity|].
  unfold cached, lookup_task; simpl.
  destruct (decide (m = mgr)) as [->|Hne].
  - rewrite lookup_insert_eq, Hm. simpl. by rewrite lookup_empty.
  - by rewrite lookup_insert_ne.
Qed.

Lemma ensure_taskGroup_own mgr group f :
  unpolluted f -> group ∉ Object_prototype_names ->
  (ensure_taskGroup mgr group f).1 = OwnArray mgr group /\
  unpolluted (ensure_taskGroup mgr group f).2 /\
  forall m g i, cached (ensure_taskGroup mgr group f).2 m g i = cached f m g i.
Proof.
  intros Hu Hg. unfold ensure_taskGroup. rewrite get_group_own by done.
  destruct (motionTasksMap f !! mgr ≫= _) eqn:Hown; cbn [fst snd]; [done|].
  split; [done|]. split; [done|].
  intros m g i. rewrite cached_update_own.
  destruct (decide _) as [[-> ->]|]; [|reflexivity].
  rewrite lookup_empty. symmetry. unfold cached, lookup_task.
  destruct (motionTasksMap f !! mgr); simpl in *; [rewrite Hown|]; reflexivity.
Qed.

(** A call for a group that [tasks] holds itself, in a state where no
    task was stored elsewhere. *)
Lemma loadMotion_own f mgr group index d :
  unpolluted f -> group ∉ Object_prototype_names ->
  definition_at mgr group index = Some d ->
  let r := loadMotion f mgr group index in
  unpolluted r.2 /\ mgr ∈ destroyListeners r.2 /\ warnings r.2 = warnings f /\
  match cached f mgr group index with
  | Some t =>
      r.1 = TaskRef t /\ tasks r.2 = tasks f /\ loads r.2 = loads f /\
      forall m g i, cached r.2 m g i = cached f m g i
  | None =>
      r.1 = TaskRef (length (tasks f)) /\
      tasks r.2 = tasks f ++ [mkTask mgr group index d (getMotionFile (manager mgr) d) Pending] /\
      loads r.2 = loads f ++ [(mgr, getMotionFile (manager mgr) d)] /\
      forall m g i, cached r.2 m g i
        = if decide (m = mgr /\ g = group /\ i = index) then Some (length (tasks f))
          else cached f m g i
  end.
Proof.
  intros Hu Hg Hd r. subst r. rewrite loadMotion_unfold, Hd. cbv zeta.
  set (f00 := set_destroyListeners ({[mgr]} ∪ destroyListeners f) f).
  assert (Hu00 : unpolluted f00) by exact Hu.
  destruct (ensure_tasks_fields mgr f00) as (Ht0 & Hl0 & Hw0 & Hreg0 & Hop0 & Hpm0 & Hpp0).
  pose proof (cached_ensure_tasks mgr f00) as Hc0.
  set (f0 := ensure_tasks mgr f00) in *.
  assert (Hu0 : unpolluted f0).
  { destruct Hu00 as (? & ? & ?). unfold unpolluted. rewrite Hop0, Hpm0, Hpp0. done. }
  destruct (ensure_taskGroup_own mgr group f0 Hu0 Hg) as (Hfound & Hu1 & Hc1).
  destruct (ensure_taskGroup_fields mgr group f0) as (Ht1 & Hl1 & Hw1 & Hreg1).
  set (found := ensure_taskGroup mgr group f0) in *.
  rewrite Hfound.
  assert (Hc : forall m g i, cached found.2 m g i = cached f m g i).
  { intros m g i. rewrite Hc1, Hc0. reflexivity. }
  assert (Hi : get_index found.2 (OwnArray mgr group) index = cached f mgr group index).
  { rewrite get_index_own by exact Hu1. apply Hc. }
  assert (Hreg : mgr ∈ destroyListeners found.2).
  { rewrite Hreg1, Hreg0. simpl. apply elem_of_union_l, elem_of_singleton. reflexivity. }
  destruct (cached f mgr group index) as [t|] eqn:Hcf.
  - rewrite (load_once_found _ _ _ _ _ _ _ _ Hi). simpl.
    split; [exact Hu1|]. split; [exact Hreg|]. split; [by rewrite Hw1, Hw0|].
    split; [reflexivity|]. split; [by rewrite Ht1, Ht0|].
    split; [by rewrite Hl1, Hl0 | exact Hc].
  - rewrite (load_once_started _ _ _ _ _ _ _ Hi). cbn [fst snd].
    split; [exact Hu1|]. split; [exact Hreg|].
    split; [simpl; by rewrite Hw1, Hw0|].
    split; [by rewrite Ht1, Ht0|].
    split; [simpl; by rewrite Ht1, Ht0|].
    split; [simpl; by rewrite Hl1, Hl0|].
    intros m g i. rewrite cached_update_own. simpl.
    rewrite Ht1, Ht0. simpl.
    destruct (decide (m = mgr /\ g = group)) as [[-> ->]|Hne].
    + destruct (decide (i = index)) as [->|Hii].
      * rewrite decide_True by done. apply lookup_insert_eq.
      * rewrite decide_False by (intros (_ & _ & ?); done).
        rewrite lookup_insert_ne by congruence.
        rewrite <- cached_default. apply Hc.
    + rewrite decide_False by (intros (? & ? & _); apply Hne; done).
      apply Hc.
Qed.

Lemma drop_cached_own task f :
  unpolluted f -> t_group task ∉ Object_prototype_names ->
  unpolluted (drop_cached task f) /\
  forall m g i, cached (drop_cached task f) m g i
    = if decide (m = t_manager task /\ g = t_group task /\ i = t_index task) then None
      else cached f m g i.
Proof.
  intros Hu Hg. unfold drop_cached.
  destruct (motionTasksMap f !! t_manager task) as [tm|] eqn:Htm.
  2:{ split; [exact Hu|]. intros m g i.
      destruct (decide _) as [(-> & -> & ->)|]; [|reflexivity].
      unfold cached, lookup_task. rewrite Htm. reflexivity. }
  rewrite get_group_own by done. rewrite Htm. simpl.
  destruct (tm !! t_group task) as [tg|] eqn:Htg.
  2:{ split; [exact Hu|]. intros m g i.
      destruct (decide _) as [(-> & -> & ->)|]; [|reflexivity].
      unfold cached, lookup_task. rewrite Htm. simpl. rewrite Htg. reflexivity. }
  split; [exact Hu|]. intros m g i. rewrite cached_update_own.
  destruct (decide (m = t_manager task /\ g = t_group task)) as [[-> ->]|Hne].
  - destruct (decide (i = t_index task)) as [->|Hi].
    + rewrite decide_True by done. apply lookup_delete_eq.
    + rewrite decide_False by (intros (_ & _ & ?); done).
      rewrite lookup_delete_ne by congruence.
      rewrite <- cached_default. reflexivity.
  - rewrite decide_False by (intros (? & ? & _); apply Hne; done). reflexivity.
Qed.

Lemma settle_own f t task outcome :
  tasks f !! t = Some task -> t_state task = Pending ->
  unpolluted f -> t_group task ∉ Object_prototype_names ->
  unpolluted (settle f t outcome) /\
  forall m g i, cached (settle f t outcome) m g i
    = match outcome with
      | Fulfill _ =>
          if decide (m = t_manager task /\ g = t_group task /\ i = t_index task) then None
          else cached f m g i
      | Reject _ => cached f m g i
      end.
Proof.
  intros Ht Hp Hu Hg.
  destruct (settle_effect f t task outcome Ht Hp) as [_ Heff].
  destruct (drop_cached_own task f Hu Hg) as [Hud Hcd].
  destruct outcome as [data|e]; destruct Heff as [Hstore _].
  - split; [by eapply store_unpolluted|].
    intros m g i. rewrite (store_cached _ _ _ _ _ Hstore). apply Hcd.
  - split; [by eapply store_unpolluted|].
    intros m g i. apply store_cached, Hstore.
Qed.

Lemma cached_releaseTasks f target m g i :
  cached (releaseTasks f target) m g i
  = if decide (target = MotionManagerTarget m) then None else cached f m g i.
Proof.
  destruct target as [mgr| |]; [|by rewrite decide_False..].
  destruct (decide (mgr = m)) as [->|Hne].
  - rewrite decide_True by done. unfold cached, lookup_task; simpl.
    by rewrite lookup_delete_eq.
  - rewrite decide_False by congruence. unfold cached, lookup_task; simpl.
    by rewrite lookup_delete_ne.
Qed.

Lemma cached_destroy f mgr target m g i :
  cached (destroy f mgr target) m g i
  = if decide (mgr ∈ destroyListeners f /\ target = MotionManagerTarget m) then None
    else cached f m g i.
Proof.
  unfold destroy. destruct (decide (mgr ∈ destroyListeners f)) as [Hin|Hnin].
  - rewrite cached_releaseTasks.
    destruct (decide (target = MotionManagerTarget m)) as [->|Hne].
    + by rewrite decide_True.
    + rewrite decide_False by (intros [_ ?]; done). reflexivity.
  - rewrite decide_False by (intros [? _]; done). reflexivity.
Qed.

(** In the states of [reachable_own] no task is stored outside the
    managers' own arrays, and every cached entry names a task of its
    resource. *)
Lemma reachable_own_invariants releasable f :
  reachable_own releasable f -> unpolluted f /\ own_groups f /\ cache_consistent f.
Proof.
  induction 1 as [|f mgr group index Hreach IH Hg|f t outcome Hreach IH
                  |f mgr target Hreach IH _|f target Hreach IH _].
  - split; [done|]. split.
    + intros t task Hl. destruct t; discriminate Hl.
    + intros mgr group index t Hc. discriminate Hc.
  - destruct IH as (Hu & Hog & Hcc).
    destruct (definition_at mgr group index) as [d|] eqn:Hd.
    2:{ rewrite (loadMotion_undefined f _ _ _ Hd). done. }
    destruct (loadMotion_own f mgr group index d Hu Hg Hd) as (Hu' & _ & _ & Heff).
    split; [exact Hu'|].
    destruct (cached f mgr group index) as [t|] eqn:Hc.
    + destruct Heff as (_ & Htasks & _ & Hcached). split.
      * intros t0 task0. rewrite Htasks. apply Hog.
      * intros m g i t0. rewrite Hcached, Htasks. apply Hcc.
    + destruct Heff as (_ & Htasks & _ & Hcached). split.
      * intros t0 task0. rewrite Htasks. intros H0.
        destruct (lookup_snoc_Some _ _ _ _ H0) as [Hold|[-> ->]]; [by eapply Hog | exact Hg].
      * intros m g i t0. rewrite Hcached, Htasks.
        destruct (decide _) as [(-> & -> & ->)|_].
        -- intros [= <-].
           exists (mkTask mgr group index d (getMotionFile (manager mgr) d) Pending).
           split; [|reflexivity].
           rewrite lookup_app_r by lia. by rewrite Nat.sub_diag.
        -- intros Hc'. destruct (Hcc _ _ _ _ Hc') as (task & Ht' & Hk).
           exists task. split; [by apply lookup_app_l_Some | exact Hk].
  - destruct IH as (Hu & Hog & Hcc).
    destruct (tasks f !! t) as [task|] eqn:Ht.
    2:{ rewrite settle_not_pending; [done|]. intros task. rewrite Ht. discriminate. }
    destruct (t_state task) as [|s] eqn:Hs.
    2:{ rewrite settle_not_pending; [done|]. intros task' Ht'. congruence. }
    destruct (settle_own f t task outcome Ht Hs Hu (Hog _ _ Ht)) as [Hu' Hcached].
    destruct (settle_tasks f t task outcome Ht Hs) as (r & Htasks & _).
    split; [exact Hu'|]. split.
    + intros t0 task0. rewrite Htasks. intros H0.
      destruct (lookup_insert_cases _ _ _ _ _ H0) as [[-> ->]|[_ Hold]];
        [simpl|]; by eapply Hog.
    + intros m g i t0 Hc'.
      assert (Hc0 : cached f m g i = Some t0).
      { rewrite Hcached in Hc'. destruct outcome; [|exact Hc'].
        by destruct (decide _). }
      destruct (Hcc _ _ _ _ Hc0) as (task' & Ht' & Hk). rewrite Htasks.
      destruct (decide (t0 = t)) as [->|Hne].
      * exists (set_state (Done (Fulfill r)) task). split.
        -- apply list_lookup_insert_eq. by eapply lookup_lt_Some.
        -- rewrite Ht in Ht'. by injection Ht' as <-.
      * exists task'. split; [|exact Hk]. by rewrite list_lookup_insert_ne.
  - destruct IH as (Hu & Hog & Hcc).
    destruct (destroy_fields f mgr target) as (Ht' & _ & _ & Hop & Hpm & Hpp).
    split; [|split].
    + unfold unpolluted. rewrite Hop, Hpm, Hpp. exact Hu.
    + unfold own_groups. rewrite Ht'. exact Hog.
    + intros m g i t. rewrite cached_destroy, Ht'.
      destruct (decide _); [discriminate | apply Hcc].
  - destruct IH as (Hu & Hog & Hcc).
    destruct (releaseTasks_fields f target) as (Ht' & _ & _ & _ & Hop & Hpm & Hpp).
    split; [|split].
    + unfold unpolluted. rewrite Hop, Hpm, Hpp. exact Hu.
    + unfold own_groups. rewrite Ht'. exact Hog.
    + intros m g i t. rewrite cached_releaseTasks, Ht'.
      destruct (decide _); [discriminate | apply Hcc].
Qed.

(** While [releaseTasks] has not run for the manager [mgr], each of its
    pending tasks is the one cached for its resource. *)
Lemma reachable_own_pending mgr f :
  reachable_own (fun target => target <> MotionManagerTarget mgr) f -> pending_cached_of mgr f.
Proof.
  induction 1 as [|f m group index Hreach IH Hg|f t outcome Hreach IH
                  |f m target Hreach IH Hrel|f target Hreach IH Hrel].
  - intros t task Hl. destruct t; discriminate Hl.
  - destruct (reachable_own_invariants _ _ Hreach) as (Hu & _ & _).
    destruct (definition_at m group index) as [d|] eqn:Hd.
    2:{ rewrite (loadMotion_undefined f _ _ _ Hd). exact IH. }
    destruct (loadMotion_own f m group index d Hu Hg Hd) as (_ & _ & _ & Heff).
    destruct (cached f m group index) as [t|] eqn:Hc.
    + destruct Heff as (_ & Htasks & _ & Hcached).
      intros t0 task0. rewrite Htasks, Hcached. apply IH.
    + destruct Heff as (_ & Htasks & _ & Hcached).
      intros t0 task0. rewrite Htasks, Hcached. intros H0 Hm Hp.
      destruct (lookup_snoc_Some _ _ _ _ H0) as [Hold|[-> ->]].
      * pose proof (IH _ _ Hold Hm Hp) as Hc0.
        rewrite decide_False; [exact Hc0|].
        intros (Hm' & Hg' & Hi'). rewrite Hm', Hg', Hi' in Hc0. congruence.
      * simpl in *. subst m. by rewrite decide_True.
  - destruct (reachable_own_invariants _ _ Hreach) as (Hu & Hog & _).
    destruct (tasks f !! t) as [task|] eqn:Ht.
    2:{ rewrite settle_not_pending; [exact IH|]. intros task. rewrite Ht. discriminate. }
    destruct (t_state task) as [|s] eqn:Hs.
    2:{ rewrite settle_not_pending; [exact IH|]. intros task' Ht'. congruence. }
    destruct (settle_own f t task outcome Ht Hs Hu (Hog _ _ Ht)) as [_ Hcached].
    destruct (settle_tasks f t task outcome Ht Hs) as (r & Htasks & _).
    intros t0 task0. rewrite Htasks, Hcached. intros H0 Hm Hp.
    destruct (lookup_insert_cases _ _ _ _ _ H0) as [[-> ->]|[Hne Hold]];
      [discriminate Hp|].
    pose proof (IH _ _ Hold Hm Hp) as Hc0.
    destruct outcome as [data|e]; [|exact Hc0].
    rewrite decide_False; [exact Hc0|].
    intros (Hm' & Hg' & Hi').
    pose proof (IH _ _ Ht (eq_sym Hm') Hs) as Hct.
    rewrite Hg', Hi' in Hc0. congruence.
  - destruct (destroy_fields f m target) as (Ht' & _).
    intros t0 task0. rewrite Ht', cached_destroy. intros H0 Hm Hp.
    rewrite decide_False by (intros [_ ?]; done). by apply IH.
  - destruct (releaseTasks_fields f target) as (Ht' & _).
    intros t0 task0. rewrite Ht', cached_releaseTasks. intros H0 Hm Hp.
    rewrite decide_False by done. by apply IH.
Qed.

Lemma get_group_OwnArray f mgr group m g :
  get_group f mgr group = Some (OwnArray m g) -> m = mgr /\ g = group.
Proof.
  unfold get_group. destruct (motionTasksMap f !! mgr ≫= _).
  - intros [= -> ->]. done.
  - unfold inherited. destruct (decide _); [discriminate|].
    destruct (decide _); [discriminate|].
    destruct (object_prototype_at f group); discriminate.
Qed.

Lemma settle_keeps_released f t outcome mgr :
  motionTasksMap f !! mgr = None -> motionTasksMap (settle f t outcome) !! mgr = None.
Proof.
  intros Hnone.
  destruct (tasks f !! t) as [task|] eqn:Ht.
  2:{ rewrite settle_not_pending; [done|]. intros task. rewrite Ht. discriminate. }
  destruct (t_state task) as [|s] eqn:Hs.
  2:{ rewrite settle_not_pending; [done|]. intros task' Ht'. congruence. }
  destruct (settle_effect f t task outcome Ht Hs) as [_ Heff].
  destruct outcome as [data|e]; destruct Heff as [Hstore _];
    unfold store in Hstore; injection Hstore as -> _ _ _; [|exact Hnone].
  unfold drop_cached.
  destruct (motionTasksMap f !! t_manager task) as [tm|] eqn:Htm; [|exact Hnone].
  destruct (get_group f (t_manager task) (t_group task)) as [[m g| | |]|] eqn:Hgg;
    try exact Hnone.
  apply get_group_OwnArray in Hgg as [-> ->]. simpl.
  rewrite lookup_insert_ne; [exact Hnone|]. intros <-. congruence.
Qed.


(** C3, amended.  Take a manager for which [releaseTasks] has not run, in
    a state reached by calls to [loadMotion] for groups not named like a
    member of [Object.prototype], by settling loads, and by [destroy]
    events and [releaseTasks] calls for other targets.  Then: (1) a call
    for a resource of the manager whose task is pending returns that task
    and starts no load; (2) when the load behind a pending task of the
    manager succeeds, the task leaves [motionTasksMap], and the next call
    for the resource starts one new load under a new pending task; (3) a
    call for such a group, of any manager, and a settling load leave the
    cached tasks of every other resource as they were. *)
Theorem loadMotion_reuses_pending_task (f : Factory) (mgr : nat) :
  reachable_own (fun target => target <> MotionManagerTarget mgr) f ->
  (forall t task,
     tasks f !! t = Some task -> t_manager task = mgr -> t_state task = Pending ->
     let r := loadMotion f mgr (t_group task) (t_index task) in
     r.1 = TaskRef t /\ loads r.2 = loads f /\ tasks r.2 = tasks f /\
     forall m g i, cached r.2 m g i = cached f m g i) /\
  (forall t task data,
     tasks f !! t = Some task -> t_manager task = mgr -> t_state task = Pending ->
     let f1 := settle f t (Fulfill data) in
     let r := loadMotion f1 mgr (t_group task) (t_index task) in
     cached f1 mgr (t_group task) (t_index task) = None /\
     r.1 = TaskRef (length (tasks f1)) /\
     length (tasks f1) <> t /\
     loads r.2 = loads f ++ [(mgr, getMotionFile (manager mgr) (t_definition task))] /\
     task_state r.2 (length (tasks f1)) = Some Pending) /\
  (forall m group index m' group' index',
     group ∉ Object_prototype_names ->
     (m', group', index') <> (m, group, index) ->
     cached (loadMotion f m group index).2 m' group' index'
     = cached f m' group' index') /\
  (forall t task outcome m' group' index',
     tasks f !! t = Some task ->
     (m', group', index') <> key_of task ->
     cached (settle f t outcome) m' group' index' = cached f m' group' index').
Proof.
  intros Hreach.
  pose proof (reachable_own_pending mgr f Hreach) as Hpc.
  destruct (reachable_own_invariants _ f Hreach) as (Hu & Hog & _).
  destruct (reachable_destroying_invariants f (reachable_own_is_destroying _ f Hreach))
    as (_ & _ & _ & Htd).
  split; [|split; [|split]].
  - intros t task Ht Hm Hp r. subst r.
    pose proof (Htd _ _ Ht) as Hd. rewrite Hm in Hd.
    destruct (loadMotion_own f mgr _ _ _ Hu (Hog _ _ Ht) Hd) as (_ & _ & _ & Heff).
    rewrite (Hpc _ _ Ht Hm Hp) in Heff. destruct Heff as (H1 & H2 & H3 & H4). done.
  - intros t task data Ht Hm Hp f1 r. subst r.
    pose proof (Htd _ _ Ht) as Hd. rewrite Hm in Hd.
    destruct (settle_effect f t task (Fulfill data) Ht Hp) as (Hloads & _ & Heff).
    destruct (settle_own f t task (Fulfill data) Ht Hp Hu (Hog _ _ Ht)) as [Hu1 Hcached].
    fold f1 in Hloads, Heff, Hu1, Hcached.
    assert (Hlen : length (tasks f1) = length (tasks f)).
    { destruct (createMotion _ _ _); destruct Heff as [-> _]; apply length_insert. }
    assert (Hc1 : cached f1 mgr (t_group task) (t_index task) = None).
    { rewrite Hcached. by rewrite decide_True. }
    destruct (loadMotion_own f1 mgr _ _ _ Hu1 (Hog _ _ Ht) Hd) as (_ & _ & _ & Hload).
    rewrite Hc1 in Hload. destruct Hload as (H1 & H2 & H3 & _).
    split; [exact Hc1|]. split; [exact H1|]. split.
    { rewrite Hlen. apply lookup_lt_Some in Ht. lia. }
    split; [by rewrite H3, Hloads|].
    unfold task_state. rewrite H2.
    rewrite lookup_app_r by lia. rewrite Nat.sub_diag. reflexivity.
  - intros m group index m' group' index' Hg Hne.
    destruct (definition_at m group index) as [d|] eqn:Hd.
    2:{ by rewrite (loadMotion_undefined f _ _ _ Hd). }
    destruct (loadMotion_own f m group index d Hu Hg Hd) as (_ & _ & _ & Heff).
    destruct (cached f m group index); destruct Heff as (_ & _ & _ & ->); [reflexivity|].
    rewrite decide_False; [reflexivity|].
    intros (-> & -> & ->). by apply Hne.
  - intros t task outcome m' group' index' Ht Hne.
    destruct (t_state task) as [|s] eqn:Hs.
    2:{ rewrite settle_not_pending; [reflexivity|]. intros task' Ht'. congruence. }
    destruct (settle_own f t task outcome Ht Hs Hu (Hog _ _ Ht)) as [_ ->].
    destruct outcome as [data|e]; [|reflexivity].
    rewrite decide_False; [reflexivity|].
    intros (-> & -> & ->). by apply Hne.
Qed.

(** ** Further properties: bookkeeping and released managers *)

Lemma destroyListeners_loadMotion f mgr group index d :
  definition_at mgr group index = Some d ->
  mgr ∈ destroyListeners (loadMotion f mgr group index).2.
Proof.
  intros Hd. rewrite loadMotion_unfold, Hd. cbv zeta.
  set (f00 := set_destroyListeners ({[mgr]} ∪ destroyListeners f) f).
  destruct (ensure_tasks_fields mgr f00) as (_ & _ & _ & Hreg0 & _).
  destruct (ensure_taskGroup_fields mgr group (ensure_tasks mgr f00)) as (_ & _ & _ & Hreg1).
  set (found := ensure_taskGroup mgr group (ensure_tasks mgr f00)) in *.
  assert (Hreg : mgr ∈ destroyListeners found.2).
  { rewrite Hreg1, Hreg0. simpl. apply elem_of_union_l, elem_of_singleton. reflexivity. }
  unfold load_once. destruct (get_index found.2 found.1 index); [exact Hreg|].
  cbn [fst snd].
  destruct (update_properties_fields found.1 (insert index (start_load mgr group index d
      (getMotionFile (manager mgr) d) found.2).1) (start_load mgr group index d
      (getMotionFile (manager mgr) d) found.2).2) as (_ & _ & _ & ->).
  exact Hreg.
Qed.

(** X1. In every state reached by [loadMotion] calls for groups not named
    like a member of [Object.prototype], settling loads, [destroy] events
    and [releaseTasks] calls, a call to [loadMotion] for such a group
    returns [Promise.resolve(undefined)] exactly when the manager has no
    definition at [group][index]; otherwise it returns a task that exists,
    was made for that very manager, group and index, and is not
    rejected. *)
Theorem loadMotion_returns_task_of_resource (f : Factory) (mgr : nat) (group : string)
    (index : Z) :
  reachable_own (fun _ => True) f ->
  group ∉ Object_prototype_names ->
  let r := loadMotion f mgr group index in
  (r.1 = ResolvedUndefined <-> definition_at mgr group index = None) /\
  (forall t, r.1 = TaskRef t ->
     exists task, tasks r.2 !! t = Some task /\ key_of task = (mgr, group, index) /\
       forall e, t_state task <> Done (Reject e)).
Proof.
  intros Hreach Hg r.
  pose proof (own_loadMotion _ f mgr group index Hreach Hg) as Hreach'.
  destruct (reachable_own_invariants _ _ Hreach') as (_ & _ & Hcc).
  destruct (reachable_destroying_invariants _ (reachable_own_is_destroying _ _ Hreach'))
    as (_ & _ & Hnr & _).
  destruct (reachable_own_invariants _ _ Hreach) as (Hu & _ & _).
  fold r in Hcc, Hnr.
  assert (Hret : match definition_at mgr group index with
                 | None => r.1 = ResolvedUndefined
                 | Some _ => exists t, r.1 = TaskRef t /\ cached r.2 mgr group index = Some t
                 end).
  { subst r. destruct (definition_at mgr group index) as [d|] eqn:Hd.
    - destruct (loadMotion_own f mgr group index d Hu Hg Hd) as (_ & _ & _ & Heff).
      destruct (cached f mgr group index) as [t|] eqn:Hc.
      + destruct Heff as (H1 & _ & _ & H4). exists t. split; [exact H1|]. by rewrite H4.
      + destruct Heff as (H1 & _ & _ & H4). exists (length (tasks f)).
        split; [exact H1|]. rewrite H4. by rewrite decide_True.
    - by rewrite (loadMotion_undefined f _ _ _ Hd). }
  split.
  - destruct (definition_at mgr group index); [|done].
    destruct Hret as (t & -> & _). split; discriminate.
  - intros t Ht. destruct (definition_at mgr group index); [|congruence].
    destruct Hret as (t' & Ht' & Hc). rewrite Ht in Ht'. injection Ht' as <-.
    destruct (Hcc _ _ _ _ Hc) as (task & Hl & Hk).
    exists task. split; [exact Hl|]. split; [exact Hk|].
    intros e. by eapply Hnr.
Qed.


(** X3. In every such state the number of warnings logged equals the
    number of tasks fulfilled with [undefined]: each failed load or failed
    motion creation is reported once, and nothing else is. *)
Theorem warning_logged_once_per_failed_task (f : Factory) :
  reachable_destroying f ->
  length (warnings f) = length (List.filter fulfilled_undefined (tasks f)).
Proof. intros Hreach. by destruct (reachable_destroying_invariants f Hreach) as (_ & Hw & _). Qed.

(** X4. A [destroy] event on a manager runs [releaseTasks] if [loadMotion]
    registered it there, once, with the event's first argument as target.
    If that argument is a motion manager, all cached tasks of that manager
    are forgotten, and a load that settles afterwards does not bring it
    back into [motionTasksMap]; no other manager loses a cached task, and
    with any other argument [motionTasksMap] stays as it was.  The event
    cancels nothing (tasks and loads stay), a second [destroy] changes
    nothing, and neither does a [destroy] of a manager that never
    loaded. *)
Theorem destroy_releases_tasks_once (f : Factory) (mgr : nat) (target : Target) :
  let f' := destroy f mgr target in
  (forall m, mgr ∈ destroyListeners f -> target = MotionManagerTarget m ->
   motionTasksMap f' !! m = None /\
   (forall group index, cached f' m group index = None) /\
   (forall t outcome, motionTasksMap (settle f' t outcome) !! m = None)) /\
  (forall m group index, target <> MotionManagerTarget m ->
     cached f' m group index = cached f m group index) /\
  ((forall m, target <> MotionManagerTarget m) -> motionTasksMap f' = motionTasksMap f) /\
  (mgr ∉ destroyListeners f -> f' = f) /\
  (forall target', destroy f' mgr target' = f') /\
  tasks f' = tasks f /\ loads f' = loads f.
Proof.
  intros f'. subst f'.
  split; [|split; [|split; [|split; [|split]]]].
  - intros m Hin ->.
    assert (Hnone : motionTasksMap (destroy f mgr (MotionManagerTarget m)) !! m = None).
    { unfold destroy. rewrite decide_True by done. simpl. apply lookup_delete_eq. }
    split; [exact Hnone|]. split.
    + intros group index. rewrite cached_destroy. by rewrite decide_True.
    + intros t outcome. by apply settle_keeps_released.
  - intros m group index Hne. rewrite cached_destroy.
    rewrite decide_False by (intros [_ ?]; done). reflexivity.
  - intros Hother. unfold destroy. destruct (decide _); [|reflexivity].
    destruct target as [m| |]; [|reflexivity..]. by destruct (Hother m).
  - intros Hnin. unfold destroy. by rewrite decide_False.
  - intros target'. unfold destroy at 1.
    destruct (decide (mgr ∈ destroyListeners (destroy f mgr target))) as [Hin|]; [|done].
    exfalso. revert Hin. unfold destroy.
    destruct (decide (mgr ∈ destroyListeners f)) as [Hreg|Hreg]; [|exact Hreg].
    destruct (releaseTasks_fields
                (set_destroyListeners (destroyListeners f ∖ {[mgr]}) f) target)
      as (_ & _ & _ & -> & _).
    simpl. intros Hin. apply elem_of_difference in Hin as [_ Hn].
    apply Hn. by apply elem_of_singleton.
  - by destruct (destroy_fields f mgr target) as (? & ? & _).
Qed.

(** X5. Dedupe does not survive [releaseTasks].  A manager loads a motion
    of a group not named like a member of [Object.prototype];
    [releaseTasks] runs for the manager while the load is pending; the
    manager is asked for the motion again: the second call starts a second
    load.  When the first load then succeeds, its callback deletes the
    entry of the second task, which is still pending, so a third call
    starts a third load of the same file. *)
Theorem stale_callback_drops_newer_task (mgr : nat) (group : string) (index : Z)
    (d : MotionSpec) (data : Data) :
  definition_at mgr group index = Some d ->
  group ∉ Object_prototype_names ->
  let f1 := (loadMotion empty_factory mgr group index).2 in
  let f2 := releaseTasks f1 (MotionManagerTarget mgr) in
  let r3 := loadMotion f2 mgr group index in
  let f4 := settle r3.2 0 (Fulfill data) in
  let r5 := loadMotion f4 mgr group index in
  r3.1 = TaskRef 1 /\
  task_state f4 1 = Some Pending /\
  cached f4 mgr group index = None /\
  r5.1 = TaskRef 2 /\
  loads r5.2 = [(mgr, getMotionFile (manager mgr) d); (mgr, getMotionFile (manager mgr) d);
                (mgr, getMotionFile (manager mgr) d)].
Proof.
  intros Hd Hg f1 f2 r3 f4 r5.
  set (task := mkTask mgr group index d (getMotionFile (manager mgr) d) Pending).
  assert (Hu0 : unpolluted empty_factory) by done.
  destruct (loadMotion_own empty_factory mgr group index d Hu0 Hg Hd) as (Hu1 & _ & _ & Heff1).
  change (cached empty_factory mgr group index) with (@None nat) in Heff1.
  destruct Heff1 as (_ & Ht1 & Hl1 & _).
  fold f1 in Hu1, Ht1, Hl1. simpl in Ht1, Hl1. fold task in Ht1.
  destruct (releaseTasks_fields f1 (MotionManagerTarget mgr))
    as (Ht2 & Hl2 & _ & _ & Hop2 & Hpm2 & Hpp2).
  fold f2 in Ht2, Hl2, Hop2, Hpm2, Hpp2.
  assert (Hu2 : unpolluted f2).
  { unfold unpolluted. rewrite Hop2, Hpm2, Hpp2. exact Hu1. }
  assert (Hc2 : cached f2 mgr group index = None).
  { unfold f2. rewrite cached_releaseTasks. by rewrite decide_True. }
  destruct (loadMotion_own f2 mgr group index d Hu2 Hg Hd) as (Hu3 & _ & _ & Heff3).
  rewrite Hc2 in Heff3. destruct Heff3 as (Hr3 & Ht3 & Hl3 & _).
  fold r3 in Hu3, Hr3, Ht3, Hl3. rewrite Ht2, Ht1 in Hr3, Ht3. rewrite Hl2, Hl1 in Hl3.
  fold task in Ht3. simpl in Hr3, Ht3, Hl3.
  assert (Hl0 : tasks r3.2 !! 0 = Some task) by (by rewrite Ht3).
  destruct (settle_effect r3.2 0 task (Fulfill data) Hl0 eq_refl) as (Hl4 & _ & Heff).
  destruct (settle_own r3.2 0 task (Fulfill data) Hl0 eq_refl Hu3 Hg) as [Hu4 Hcached].
  fold f4 in Hl4, Heff, Hu4, Hcached.
  assert (Ht4 : exists s, tasks f4 = [set_state s task; task]).
  { destruct (createMotion _ _ _); destruct Heff as [-> _]; rewrite Ht3; eauto. }
  destruct Ht4 as [s Ht4].
  assert (Hc4 : cached f4 mgr group index = None).
  { rewrite Hcached. by rewrite decide_True. }
  destruct (loadMotion_own f4 mgr group index d Hu4 Hg Hd) as (_ & _ & _ & Heff5).
  rewrite Hc4 in Heff5. destruct Heff5 as (Hr5 & _ & Hl5 & _).
  fold r5 in Hr5, Hl5. rewrite Ht4 in Hr5. rewrite Hl4, Hl3 in Hl5.
  split; [exact Hr3|]. split; [by unfold task_state; rewrite Ht4|].
  split; [exact Hc4|]. split; [exact Hr5 | exact Hl5].
Qed.

End LoadMotion.

(** ** A manager with two idle motions *)

(** Motions and file contents are numbers; creating a motion from the
    content 0 throws. *)
Definition ref_manager (mgr : nat) : @MotionManager nat string nat :=
  mkMotionManager "Cubism2MotionManager"
    {[ "idle" := ["idle_00.mtn"; "idle_01.mtn"] ]}
    (fun definition => definition)
    (fun data definition =>
       if Nat.eqb data 0 then inr (OtherError "empty motion") else inl data).

(** After [loadMotion(m0, "idle", 0)]: one task, pending. *)
Definition ref_loading : Factory := (loadMotion ref_manager empty_factory 0 "idle" 0).2.

Definition ref_task : @Task nat string :=
  mkTask 0 "idle" 0 "idle_00.mtn" "idle_00.mtn" Pending.

Lemma idle_is_own_name : "idle" ∉ Object_prototype_names.
Proof. intros Hin. revert Hin. refine (not_elem_of_decide _ _ _). reflexivity. Qed.

Lemma ref_loading_reachable : reachable ref_manager ref_loading.
Proof. apply reach_loadMotion, reach_empty. Qed.

Lemma ref_loading_reachable_own releasable : reachable_own ref_manager releasable ref_loading.
Proof. apply own_loadMotion; [apply own_empty | exact idle_is_own_name]. Qed.

Lemma ref_loading_task : tasks ref_loading !! 0 = Some ref_task.
Proof. reflexivity. Qed.

(** [releaseTasks(m0)] runs while the load of [ref_loading] is pending. *)
Definition ref_released : Factory := releaseTasks ref_loading (MotionManagerTarget 0).

Lemma ref_released_reachable : reachable_destroying ref_manager ref_released.
Proof. apply reachd_releaseTasks, reachd_loadMotion, reachd_empty. Qed.

(** Two managers: the motion definitions of manager 0 have a group named
    "__proto__", those of every other manager a group named "idle". *)
Definition proto_manager (mgr : nat) : @MotionManager nat string nat :=
  mkMotionManager "Cubism2MotionManager"
    (if Nat.eqb mgr 0 then {[ "__proto__" := ["hidden.mtn"] ]}
     else {[ "idle" := ["idle_00.mtn"] ]})
    (fun definition => definition)
    (fun data definition => inl data).

(** After [loadMotion(m0, "__proto__", 0)]: the task sits on
    [Object.prototype], under the key [0]. *)
Definition proto_loading : Factory := (loadMotion proto_manager empty_factory 0 "__proto__" 0).2.

Lemma proto_loading_reachable : reachable proto_manager proto_loading.
Proof. apply reach_loadMotion, reach_empty. Qed.

Example prototype_holds_the_task :
  objectPrototype proto_loading !! 0%Z = Some 0 /\
  cached proto_loading 0 "__proto__" 0 = None /\
  (loadMotion proto_manager proto_loading 1 "idle" 0).1 = TaskRef 0 /\
  loads (loadMotion proto_manager proto_loading 1 "idle" 0).2 = [(0, "hidden.mtn")].
Proof. vm_compute. repeat split; reflexivity. Qed.

(** The failed load of a pending task: the task is still the one cached
    for its resource. *)
Lemma failed_load_stays_cached :
  cached (settle ref_manager ref_loading 0 (Reject (OtherError "404"))) 0 "idle" 0 = Some 0.
Proof. reflexivity. Qed.

(** After [releaseTasks] the pending task 0 is not found: the call makes
    task 1 and loads the file a second time. *)
Lemma released_manager_loads_twice :
  (loadMotion ref_manager ref_released 0 "idle" 0).1 = TaskRef 1 /\
  loads (loadMotion ref_manager ref_released 0 "idle" 0).2
  = [(0, "idle_00.mtn"); (0, "idle_00.mtn")].
Proof. vm_compute. split; reflexivity. Qed.

(** C3 as first stated, refuted three times: the load behind a pending
    task fails, and the task is still the one cached for its resource;
    [releaseTasks] runs for the manager while a load is pending, and the
    next call for the resource does not return the pending task; a group
    is named "__proto__", and a call for another manager, group and index
    returns its task. *)
Lemma loadMotion_dedupe_refuted :
  ~ (forall (f : Factory) (t : nat) (task : Task) (outcome : Settled nat),
       reachable ref_manager f ->
       tasks f !! t = Some task -> t_state task = Pending ->
       cached (settle ref_manager f t outcome) (t_manager task) (t_group task) (t_index task)
       = None) /\
  ~ (forall (f : Factory) (t : nat) (task : Task),
       reachable_destroying ref_manager f ->
       tasks f !! t = Some task -> t_state task = Pending ->
       (loadMotion ref_manager f (t_manager task) (t_group task) (t_index task)).1
       = TaskRef t) /\
  ~ (forall (f : Factory) (mgr : nat) (group : string) (index : Z) (t : nat),
       reachable proto_manager f ->
       (loadMotion proto_manager f mgr group index).1 = TaskRef t ->
       exists task, tasks (loadMotion proto_manager f mgr group index).2 !! t = Some task /\
         key_of task = (mgr, group, index)).
Proof.
  split; [|split].
  - intros Hall.
    specialize (Hall ref_loading 0 ref_task (Reject (OtherError "404"))
                  ref_loading_reachable ref_loading_task eq_refl).
    pose proof failed_load_stays_cached as Hc. simpl in Hall. congruence.
  - intros Hall.
    specialize (Hall ref_released 0 ref_task ref_released_reachable eq_refl eq_refl).
    destruct released_manager_loads_twice as [Hr _]. simpl in Hall. congruence.
  - intros Hall.
    destruct (Hall proto_loading 1 "idle" 0%Z 0 proto_loading_reachable eq_refl)
      as (task & Ht & Hk).
    vm_compute in Ht. injection Ht as <-. discriminate Hk.
Qed.

(** The same history, continued: the next call for the resource returns
    the failed task, now fulfilled with [undefined], and starts no load. *)
Example failed_load_is_not_retried :
  let f := settle ref_manager ref_loading 0 (Reject (OtherError "404")) in
  let r := loadMotion ref_manager f 0 "idle" 0 in
  r.1 = TaskRef 0 /\
  task_state r.2 0 = Some (Done (Fulfill None)) /\
  loads r.2 = [(0, "idle_00.mtn")] /\
  warnings r.2 = [("Cubism2MotionManager", "Failed to load motion: idle_00.mtn")].
Proof. vm_compute. repeat split; reflexivity. Qed.

(** The pending task of [ref_loading] is returned again; once its load
    succeeds, the next call starts a second load under task 1; the other
    idle motion has a task of its own. *)
Lemma loadMotion_reuses_pending_task_witness :
  (loadMotion ref_manager ref_loading 0 "idle" 0).1 = TaskRef 0 /\
  loads (loadMotion ref_manager ref_loading 0 "idle" 0).2 = loads ref_loading.
Proof.
  pose proof (proj1 (loadMotion_reuses_pending_task ref_manager ref_loading 0
                       (ref_loading_reachable_own _)) 0 ref_task ref_loading_task
                eq_refl eq_refl) as Hw.
  cbv zeta in Hw. destruct Hw as (H1 & H2 & _). split; [exact H1 | exact H2].
Defined.

Example successful_load_is_forgotten :
  let f := settle ref_manager ref_loading 0 (Fulfill 7) in
  let r := loadMotion ref_manager f 0 "idle" 0 in
  task_state f 0 = Some (Done (Fulfill (Some 7))) /\
  cached f 0 "idle" 0 = None /\
  r.1 = TaskRef 1 /\
  loads r.2 = [(0, "idle_00.mtn"); (0, "idle_00.mtn")] /\
  (loadMotion ref_manager r.2 0 "idle" 1).1 = TaskRef 2 /\
  (loadMotion ref_manager r.2 0 "idle" 2).1 = ResolvedUndefined /\
  (loadMotion ref_manager r.2 0 "tap" 0).1 = ResolvedUndefined.
Proof. vm_compute. repeat split; reflexivity. Qed.

(** A motion whose creation throws: fulfilled with [undefined], warned. *)
Example failed_creation_resolves_undefined :
  let f := settle ref_manager ref_loading 0 (Fulfill 0) in
  task_state f 0 = Some (Done (Fulfill None)) /\
  cached f 0 "idle" 0 = None /\
  warnings f = [("Cubism2MotionManager", "Failed to load motion: idle_00.mtn")].
Proof. vm_compute. repeat split; reflexivity. Qed.

(** ** The reference manager, destroyed and asked again *)

(** The [destroy] event of manager 0, carrying the manager. *)
Definition ref_destroyed : Factory := destroy ref_loading 0 (MotionManagerTarget 0).

Lemma ref_destroyed_reachable : reachable_destroying ref_manager ref_destroyed.
Proof. apply reachd_destroy, reachd_loadMotion, reachd_empty. Qed.

Lemma ref_destroyed_reachable_own : reachable_own ref_manager (fun _ => True) ref_destroyed.
Proof. apply own_destroy; [apply ref_loading_reachable_own | exact I]. Qed.

(** The same event carrying no argument: the listener is used up and
    [motionTasksMap] is as it was. *)
Example destroy_without_argument_releases_nothing :
  let f := destroy ref_loading 0 OtherTarget in
  cached f 0 "idle" 0 = Some 0 /\
  destroyListeners f = ∅ /\
  destroy f 0 (MotionManagerTarget 0) = f.
Proof. vm_compute. repeat split; reflexivity. Qed.

Lemma loadMotion_returns_task_of_resource_witness :
  exists task, tasks (loadMotion ref_manager ref_destroyed 0 "idle" 1).2 !! 1 = Some task /\
    key_of task = (0, "idle", 1%Z) /\ forall e, t_state task <> Done (Reject e).
Proof.
  exact (proj2 (loadMotion_returns_task_of_resource ref_manager ref_destroyed 0 "idle" 1
                  ref_destroyed_reachable_own idle_is_own_name) 1 eq_refl).
Defined.


Lemma warning_logged_once_per_failed_task_witness :
  let f := settle ref_manager ref_destroyed 0 (Reject (OtherError "404")) in
  length (warnings f) = length (List.filter fulfilled_undefined (tasks f)).
Proof.
  exact (warning_logged_once_per_failed_task ref_manager _
           (reachd_settle ref_manager _ 0 (Reject (OtherError "404")) ref_destroyed_reachable)).
Defined.

Lemma destroy_releases_tasks_once_witness :
  motionTasksMap ref_destroyed !! 0 = None /\
  (forall group index, cached ref_destroyed 0 group index = None) /\
  (forall t outcome, motionTasksMap (settle ref_manager ref_destroyed t outcome) !! 0 = None).
Proof.
  refine (proj1 (destroy_releases_tasks_once ref_manager ref_loading 0 (MotionManagerTarget 0))
            0 _ eq_refl).
  apply elem_of_union_l, elem_of_singleton. reflexivity.
Defined.

Lemma stale_callback_drops_newer_task_witness :
  let f1 := (loadMotion ref_manager empty_factory 0 "idle" 0).2 in
  let r3 := loadMotion ref_manager (releaseTasks f1 (MotionManagerTarget 0)) 0 "idle" 0 in
  let f4 := settle ref_manager r3.2 0 (Fulfill 7) in
  task_state f4 1 = Some Pending /\ cached f4 0 "idle" 0 = None.
Proof.
  pose proof (stale_callback_drops_newer_task ref_manager 0 "idle" 0 "idle_00.mtn" 7 eq_refl
                idle_is_own_name) as Hw.
  cbv zeta in Hw. destruct Hw as (_ & H1 & H2 & _). split; [exact H1 | exact H2].
Defined.

End MotionLoading.

(* ===================================================================== *)
(** * src/factory/Live2DFactory.ts: expression loading *)
(* ===================================================================== *)

Module ExpressionLoading.
Import MotionLoading.

Section LoadExpression.
Context {Expression ExpressionSpec Data : Type}.

(** The members of [ExpressionManager<Expression, ExpressionSpec>] that
    [loadExpression] uses; [createExpression] may throw. *)
Record ExpressionManager : Type := mkExpressionManager {
  tag : string;
  definitions : list ExpressionSpec;
  getExpressionFile : ExpressionSpec -> string;
  createExpression : Data -> ExpressionSpec -> Expression + Error;
}.

Variable manager : nat -> ExpressionManager.

Record Task : Type := mkTask {
  t_manager : nat;
  t_index : Z;
  t_definition : ExpressionSpec;
  t_path : string;
  t_state : PromiseState (option Expression);
}.

Definition set_state (s : PromiseState (option Expression)) (t : Task) : Task :=
  mkTask (t_manager t) (t_index t) (t_definition t) (t_path t) s.

(** The factory's static state for expressions.  [expressionTasksMap]
    holds, for each manager, the elements of its [tasks] array.  The
    operations of this module store tasks in these arrays only: nothing
    here puts an indexed property on a prototype of theirs. *)
Record Factory : Type := mkFactory {
  expressionTasksMap : gmap nat (gmap Z nat);
  tasks : list Task;
  loads : list (nat * string);
  destroyListeners : gset nat;
  warnings : list (string * string);
}.

Definition empty_factory : Factory := mkFactory ∅ [] [] ∅ [].

Definition set_expressionTasksMap (m : gmap nat (gmap Z nat)) (f : Factory) :=
  mkFactory m (tasks f) (loads f) (destroyListeners f) (warnings f).

Definition set_tasks (ts : list Task) (f : Factory) :=
  mkFactory (expressionTasksMap f) ts (loads f) (destroyListeners f) (warnings f).

Definition set_loads (ls : list (nat * string)) (f : Factory) :=
  mkFactory (expressionTasksMap f) (tasks f) ls (destroyListeners f) (warnings f).

Definition set_destroyListeners (d : gset nat) (f : Factory) :=
  mkFactory (expressionTasksMap f) (tasks f) (loads f) d (warnings f).

Definition warn (tag message : string) (f : Factory) : Factory :=
  mkFactory (expressionTasksMap f) (tasks f) (loads f) (destroyListeners f)
    (warnings f ++ [(tag, message)]).

(** [expressionTasksMap.get(expressionManager)?.[index]]. *)
Definition cached (f : Factory) (mgr : nat) (index : Z) : option nat :=
  tasks_of_manager ← expressionTasksMap f !! mgr;
  tasks_of_manager !! index.

Definition task_state (f : Factory) (t : nat) : option (PromiseState (option Expression)) :=
  t_state <$> tasks f !! t.

(** The [try] block of [loadExpression].  The calls it makes on its
    collaborators return as their types say, so it completes normally. *)
Definition loadExpression_try (f : Factory) (mgr : nat) (index : Z)
    : Completion Returned * Factory :=
  let expressionManager := manager mgr in
  match at_index (definitions expressionManager) index with
  | None => (Normal ResolvedUndefined, f)
  | Some definition =>
      let f := set_destroyListeners ({[mgr]} ∪ destroyListeners f) f in
      let tasks_of_manager := default ∅ (expressionTasksMap f !! mgr) in
      let path := getExpressionFile expressionManager definition in
      match tasks_of_manager !! index with
      | Some t =>
          (Normal (TaskRef t),
           set_expressionTasksMap (<[mgr := tasks_of_manager]> (expressionTasksMap f)) f)
      | None =>
          let t := length (tasks f) in
          let f := set_loads (loads f ++ [(mgr, path)]) f in
          let f := set_tasks (tasks f ++ [mkTask mgr index definition path Pending]) f in
          (Normal (TaskRef t),
           set_expressionTasksMap
             (<[mgr := <[index := t]> tasks_of_manager]> (expressionTasksMap f)) f)
      end
  end.

Definition loadExpression (f : Factory) (mgr : nat) (index : Z) : Returned * Factory :=
  match loadExpression_try f mgr index with
  | (Normal returned, f) => (returned, f)
  | (Thrown e, f) =>
      (ResolvedUndefined,
       warn (tag (manager mgr))
         (String.append "Failed to load expression at ["
            (String.append (property_key index) "]")) f)
  end.

(** The first statement of a task's [then] callback:
    [delete expressionTasksMap.get(expressionManager)?.[index]]. *)
Definition drop_cached (task : Task) (f : Factory) : Factory :=
  match expressionTasksMap f !! t_manager task with
  | Some tasks_of_manager =>
      set_expressionTasksMap
        (<[t_manager task := delete (t_index task) tasks_of_manager]> (expressionTasksMap f)) f
  | None => f
  end.

Definition on_loaded (task : Task) (data : Data) (f : Factory)
    : Settled (option Expression) * Factory :=
  let f := drop_cached task f in
  match createExpression (manager (t_manager task)) data (t_definition task) with
  | inl expression => (Fulfill (Some expression), f)
  | inr e => (Reject e, f)
  end.

Definition on_failed (task : Task) (e : Error) (f : Factory) : option Expression * Factory :=
  (None,
   warn (tag (manager (t_manager task)))
     (String.append "Failed to load expression: " (t_path task)) f).

(** [promise.then(on_loaded).catch(on_failed)], run when the load settles. *)
Definition run_callbacks (task : Task) (outcome : Settled Data) (f : Factory)
    : Settled (option Expression) * Factory :=
  let p := match outcome with
           | Fulfill data => on_loaded task data f
           | Reject e => (Reject e, f)
           end in
  match p with
  | (Fulfill a, f) => (Fulfill a, f)
  | (Reject e, f) => let r := on_failed task e f in (Fulfill r.1, r.2)
  end.

Definition settle (f : Factory) (t : nat) (outcome : Settled Data) : Factory :=
  match tasks f !! t with
  | Some task =>
      match t_state task with
      | Pending =>
          let r := run_callbacks task outcome f in
          set_tasks (<[t := set_state (Done r.1) task]> (tasks r.2)) r.2
      | Done _ => f
      end
  | None => f
  end.

(** [releaseTasks(target)]: for a motion manager the call is
    [motionTasksMap.delete(target)], which leaves this state alone; for
    any other value it is [expressionTasksMap.delete(target)], which
    deletes the entry of an expression manager and nothing otherwise. *)
Definition releaseTasks (f : Factory) (target : Target) : Factory :=
  match target with
  | ExpressionManagerTarget mgr =>
      set_expressionTasksMap (delete mgr (expressionTasksMap f)) f
  | MotionManagerTarget _ | OtherTarget => f
  end.

(** A [destroy] event on the manager [mgr], with [target] as its first
    argument.  The listener was registered by [once]: it is removed when it
    runs.  It is [releaseTasks], which reads the manager from the event's
    argument; what the emitter passes is not decided here, so [target] is a
    parameter. *)
Definition destroy (f : Factory) (mgr : nat) (target : Target) : Factory :=
  if decide (mgr ∈ destroyListeners f)
  then releaseTasks (set_destroyListeners (destroyListeners f ∖ {[mgr]}) f) target
  else f.

(** The states that calls to [loadExpression], settling loads, [destroy]
    events with any argument and calls to [releaseTasks] lead to. *)
Inductive reachable : Factory -> Prop :=
| reach_empty : reachable empty_factory
| reach_loadExpression f mgr index :
    reachable f -> reachable (loadExpression f mgr index).2
| reach_settle f t outcome :
    reachable f -> reachable (settle f t outcome)
| reach_destroy f mgr target :
    reachable f -> reachable (destroy f mgr target)
| reach_releaseTasks f target :
    reachable f -> reachable (releaseTasks f target).

(** The same, where [releaseTasks] runs for the targets in [releasable]
    only. *)
Inductive reachable_unreleased (releasable : Target -> Prop) : Factory -> Prop :=
| unreleased_empty : reachable_unreleased releasable empty_factory
| unreleased_loadExpression f mgr index :
    reachable_unreleased releasable f ->
    reachable_unreleased releasable (loadExpression f mgr index).2
| unreleased_settle f t outcome :
    reachable_unreleased releasable f -> reachable_unreleased releasable (settle f t outcome)
| unreleased_destroy f mgr target :
    reachable_unreleased releasable f -> releasable target ->
    reachable_unreleased releasable (destroy f mgr target)
| unreleased_releaseTasks f target :
    reachable_unreleased releasable f -> releasable target ->
    reachable_unreleased releasable (releaseTasks f target).

(** ** Properties of [loadExpression] *)

Definition definition_at (mgr : nat) (index : Z) : option ExpressionSpec :=
  at_index (definitions (manager mgr)) index.

(** Every pending task of the manager [mgr] is the one cached for its
    resource. *)
Definition pending_cached_of (mgr : nat) (f : Factory) : Prop :=
  forall t task, tasks f !! t = Some task -> t_manager task = mgr -> t_state task = Pending ->
    cached f mgr (t_index task) = Some t.

Definition tasks_defined (f : Factory) : Prop :=
  forall t task, tasks f !! t = Some task ->
    definition_at (t_manager task) (t_index task) = Some (t_definition task) /\
    t_path task = getExpressionFile (manager (t_manager task)) (t_definition task).

Definition never_rejected (f : Factory) : Prop :=
  forall t task e, tasks f !! t = Some task -> t_state task <> Done (Reject e).

Lemma loadExpression_unfold f mgr index :
  loadExpression f mgr index
  = match at_index (definitions (manager mgr)) index with
    | None => (ResolvedUndefined, f)
    | Some definition =>
        let f := set_destroyListeners ({[mgr]} ∪ destroyListeners f) f in
        let tasks_of_manager := default ∅ (expressionTasksMap f !! mgr) in
        let path := getExpressionFile (manager mgr) definition in
        match tasks_of_manager !! index with
        | Some t =>
            (TaskRef t,
             set_expressionTasksMap (<[mgr := tasks_of_manager]> (expressionTasksMap f)) f)
        | None =>
            let t := length (tasks f) in
            let f := set_loads (loads f ++ [(mgr, path)]) f in
            let f := set_tasks (tasks f ++ [mkTask mgr index definition path Pending]) f in
            (TaskRef t,
             set_expressionTasksMap
               (<[mgr := <[index := t]> tasks_of_manager]> (expressionTasksMap f)) f)
        end
    end.
Proof.
  unfold loadExpression, loadExpression_try. cbv zeta.
  destruct (at_index (definitions (manager mgr)) index); [|reflexivity].
  destruct (default ∅ (expressionTasksMap _ !! mgr) !! index); reflexivity.
Qed.

Lemma cached_expression_default f mgr index :
  cached f mgr index = default ∅ (expressionTasksMap f !! mgr) !! index.
Proof. unfold cached. by destruct (expressionTasksMap f !! mgr). Qed.

Lemma cached_expression_ext f1 f2 mgr index :
  expressionTasksMap f1 = expressionTasksMap f2 -> cached f1 mgr index = cached f2 mgr index.
Proof. unfold cached. intros ->. reflexivity. Qed.

Lemma loadExpression_undefined f mgr index :
  definition_at mgr index = None -> loadExpression f mgr index = (ResolvedUndefined, f).
Proof. rewrite loadExpression_unfold. unfold definition_at. intros ->. reflexivity. Qed.

Lemma loadExpression_cached f mgr index d t :
  definition_at mgr index = Some d -> cached f mgr index = Some t ->
  (loadExpression f mgr index).1 = TaskRef t /\
  expressionTasksMap (loadExpression f mgr index).2 = expressionTasksMap f /\
  tasks (loadExpression f mgr index).2 = tasks f /\
  loads (loadExpression f mgr index).2 = loads f /\
  warnings (loadExpression f mgr index).2 = warnings f.
Proof.
  intros Hd Hc. rewrite loadExpression_unfold. fold (definition_at mgr index). rewrite Hd. simpl.
  rewrite cached_expression_default in Hc. rewrite Hc. simpl.
  split; [reflexivity|]. split; [|done].
  destruct (expressionTasksMap f !! mgr) as [tm|] eqn:Htm; simpl in *.
  - by apply insert_id.
  - rewrite lookup_empty in Hc. discriminate.
Qed.

Lemma loadExpression_fresh f mgr index d :
  definition_at mgr index = Some d -> cached f mgr index = None ->
  (loadExpression f mgr index).1 = TaskRef (length (tasks f)) /\
  tasks (loadExpression f mgr index).2
  = tasks f ++ [mkTask mgr index d (getExpressionFile (manager mgr) d) Pending] /\
  loads (loadExpression f mgr index).2
  = loads f ++ [(mgr, getExpressionFile (manager mgr) d)] /\
  warnings (loadExpression f mgr index).2 = warnings f.
Proof.
  intros Hd Hc. rewrite loadExpression_unfold. fold (definition_at mgr index). rewrite Hd. simpl.
  rewrite cached_expression_default in Hc. rewrite Hc. simpl. done.
Qed.

Lemma cached_loadExpression f mgr index mgr' index' :
  cached (loadExpression f mgr index).2 mgr' index'
  = if decide (mgr' = mgr /\ index' = index)
    then match definition_at mgr index, cached f mgr index with
         | Some _, None => Some (length (tasks f))
         | _, c => c
         end
    else cached f mgr' index'.
Proof.
  rewrite loadExpression_unfold. fold (definition_at mgr index).
  destruct (definition_at mgr index) as [d|]; simpl.
  2:{ destruct (decide _) as [[-> ->]|]; [|reflexivity]. by destruct (cached f mgr index). }
  rewrite (cached_expression_default f mgr index).
  destruct (default ∅ (expressionTasksMap f !! mgr) !! index) as [t|] eqn:Ht;
    unfold cached; simpl.
  - destruct (decide (mgr' = mgr)) as [->|Hm].
    + rewrite lookup_insert_eq. simpl.
      destruct (decide (index' = index)) as [->|Hi].
      * by rewrite decide_True.
      * rewrite decide_False by (intros [_ ?]; done).
        by destruct (expressionTasksMap f !! mgr).
    + rewrite lookup_insert_ne by congruence.
      by rewrite decide_False by (intros [? _]; done).
  - destruct (decide (mgr' = mgr)) as [->|Hm].
    + rewrite lookup_insert_eq. simpl.
      destruct (decide (index' = index)) as [->|Hi].
      * rewrite decide_True by done. apply lookup_insert_eq.
      * rewrite decide_False by (intros [_ ?]; done).
        rewrite lookup_insert_ne by congruence.
        by destruct (expressionTasksMap f !! mgr).
    + rewrite lookup_insert_ne by congruence.
      by rewrite decide_False by (intros [? _]; done).
Qed.

Lemma cached_drop_cached_expression task f mgr' index' :
  cached (drop_cached task f) mgr' index'
  = if decide (mgr' = t_manager task /\ index' = t_index task)
    then None else cached f mgr' index'.
Proof.
  unfold drop_cached, cached.
  destruct (expressionTasksMap f !! t_manager task) as [tm|] eqn:Htm; simpl.
  - destruct (decide (mgr' = t_manager task)) as [->|Hm].
    + rewrite lookup_insert_eq, Htm. simpl.
      destruct (decide (index' = t_index task)) as [->|Hi].
      * rewrite decide_True by done. apply lookup_delete_eq.
      * rewrite decide_False by (intros [_ ?]; done). by apply lookup_delete_ne.
    + rewrite lookup_insert_ne by congruence.
      by rewrite decide_False by (intros [? _]; done).
  - destruct (decide _) as [[-> ->]|]; [|reflexivity]. by rewrite Htm.
Qed.

Lemma settle_expression_not_pending f t outcome :
  (forall task, tasks f !! t = Some task -> t_state task <> Pending) ->
  settle f t outcome = f.
Proof.
  intros Hn. unfold settle. destruct (tasks f !! t) as [task|] eqn:Ht; [|reflexivity].
  destruct (t_state task) eqn:Hs; [|reflexivity].
  exfalso. exact (Hn task eq_refl Hs).
Qed.

(** What settling does, by the way the load ended. *)
Lemma settle_expression_effect f t task outcome :
  tasks f !! t = Some task -> t_state task = Pending ->
  let f' := settle f t outcome in
  loads f' = loads f /\
  match outcome with
  | Fulfill data =>
      expressionTasksMap f' = expressionTasksMap (drop_cached task f) /\
      match createExpression (manager (t_manager task)) data (t_definition task) with
      | inl expression =>
          tasks f' = <[t := set_state (Done (Fulfill (Some expression))) task]> (tasks f) /\
          warnings f' = warnings f
      | inr e =>
          tasks f' = <[t := set_state (Done (Fulfill None)) task]> (tasks f) /\
          warnings f'
          = warnings f ++ [(tag (manager (t_manager task)),
                            String.append "Failed to load expression: " (t_path task))]
      end
  | Reject e =>
      expressionTasksMap f' = expressionTasksMap f /\
      tasks f' = <[t := set_state (Done (Fulfill None)) task]> (tasks f) /\
      warnings f'
      = warnings f ++ [(tag (manager (t_manager task)),
                        String.append "Failed to load expression: " (t_path task))]
  end.
Proof.
  intros Ht Hp f'. subst f'. unfold settle. rewrite Ht, Hp.
  destruct outcome as [data|e]; simpl; [|done].
  unfold run_callbacks, on_loaded.
  destruct (createExpression (manager (t_manager task)) data (t_definition task)); simpl.
  - unfold drop_cached. by destruct (expressionTasksMap f !! t_manager task).
  - unfold drop_cached. by destruct (expressionTasksMap f !! t_manager task).
Qed.

Lemma releaseTasks_expression_fields f target :
  tasks (releaseTasks f target) = tasks f /\ loads (releaseTasks f target) = loads f /\
  warnings (releaseTasks f target) = warnings f /\
  destroyListeners (releaseTasks f target) = destroyListeners f.
Proof. destruct target; done. Qed.

Lemma destroy_expression_fields f mgr target :
  tasks (destroy f mgr target) = tasks f /\ loads (destroy f mgr target) = loads f /\
  warnings (destroy f mgr target) = warnings f.
Proof. unfold destroy. destruct (decide _); [|done]. destruct target; done. Qed.

Lemma cached_releaseTasks_expression f target m i :
  cached (releaseTasks f target) m i
  = if decide (target = ExpressionManagerTarget m) then None else cached f m i.
Proof.
  destruct target as [mgr|mgr|]; [by rewrite decide_False| |by rewrite decide_False].
  destruct (decide (mgr = m)) as [->|Hne].
  - rewrite decide_True by done. unfold cached; simpl. by rewrite lookup_delete_eq.
  - rewrite decide_False by congruence. unfold cached; simpl. by rewrite lookup_delete_ne.
Qed.

Lemma cached_destroy_expression f mgr target m i :
  cached (destroy f mgr target) m i
  = if decide (mgr ∈ destroyListeners f /\ target = ExpressionManagerTarget m) then None
    else cached f m i.
Proof.
  unfold destroy. destruct (decide (mgr ∈ destroyListeners f)) as [Hin|Hnin].
  - rewrite cached_releaseTasks_expression.
    destruct (decide (target = ExpressionManagerTarget m)) as [->|Hne].
    + by rewrite decide_True.
    + rewrite decide_False by (intros [_ ?]; done). reflexivity.
  - rewrite decide_False by (intros [? _]; done). reflexivity.
Qed.

Lemma settle_expression_tasks f t task outcome :
  tasks f !! t = Some task -> t_state task = Pending ->
  exists r, tasks (settle f t outcome) = <[t := set_state (Done (Fulfill r)) task]> (tasks f).
Proof.
  intros Ht Hs. destruct (settle_expression_effect f t task outcome Ht Hs) as [_ Heff].
  destruct outcome as [data|e].
  - destruct Heff as [_ Heff].
    destruct (createExpression _ _ _); destruct Heff as [-> _]; eauto.
  - destruct Heff as (_ & -> & _). eauto.
Qed.

Lemma loadExpression_invariants f mgr index :
  tasks_defined f /\ never_rejected f ->
  let f' := (loadExpression f mgr index).2 in
  tasks_defined f' /\ never_rejected f'.
Proof.
  intros (Htd & Hnr) f'. subst f'.
  destruct (definition_at mgr index) as [d|] eqn:Hd.
  2:{ rewrite (loadExpression_undefined f _ _ Hd). done. }
  destruct (cached f mgr index) as [t|] eqn:Hc.
  - destruct (loadExpression_cached f _ _ d t Hd Hc) as (_ & _ & Htasks & _ & _).
    split.
    + intros t0 task0 H0. rewrite Htasks in H0. by eapply Htd.
    + intros t0 task0 e H0. rewrite Htasks in H0. by eapply Hnr.
  - destruct (loadExpression_fresh f _ _ d Hd Hc) as (_ & Htasks & _ & _).
    split.
    + intros t0 task0 H0. rewrite Htasks in H0.
      destruct (lookup_snoc_Some _ _ _ _ H0) as [Hold|[-> ->]]; [by eapply Htd | by split].
    + intros t0 task0 e H0. rewrite Htasks in H0.
      destruct (lookup_snoc_Some _ _ _ _ H0) as [Hold|[-> ->]];
        [by eapply Hnr | discriminate].
Qed.

Lemma settle_expression_invariants f t outcome :
  tasks_defined f /\ never_rejected f ->
  let f' := settle f t outcome in
  tasks_defined f' /\ never_rejected f'.
Proof.
  intros (Htd & Hnr) f'. subst f'.
  destruct (tasks f !! t) as [task|] eqn:Ht.
  2:{ rewrite settle_expression_not_pending; [done|]. intros task. rewrite Ht. discriminate. }
  destruct (t_state task) as [|s] eqn:Hs.
  2:{ rewrite settle_expression_not_pending; [done|]. intros task' Ht'. congruence. }
  destruct (settle_expression_tasks f t task outcome Ht Hs) as [r Htasks].
  split.
  - intros t0 task0 H0. rewrite Htasks in H0.
    destruct (lookup_insert_cases _ _ _ _ _ H0) as [[-> ->]|[Hne Hold]]; [|by eapply Htd].
    simpl. by eapply Htd.
  - intros t0 task0 e H0. rewrite Htasks in H0.
    destruct (lookup_insert_cases _ _ _ _ _ H0) as [[-> ->]|[Hne Hold]];
      [discriminate | by eapply Hnr].
Qed.

Lemma reachable_expression_invariants f :
  reachable f -> tasks_defined f /\ never_rejected f.
Proof.
  induction 1 as [|f mgr index _ IH|f t outcome _ IH|f mgr target _ IH|f target _ IH].
  - split.
    + intros t task Hl. destruct t; discriminate Hl.
    + intros t task e Hl. destruct t; discriminate Hl.
  - apply loadExpression_invariants, IH.
  - apply settle_expression_invariants, IH.
  - destruct (destroy_expression_fields f mgr target) as (Ht & _).
    unfold tasks_defined, never_rejected. rewrite Ht. exact IH.
  - destruct (releaseTasks_expression_fields f target) as (Ht & _).
    unfold tasks_defined, never_rejected. rewrite Ht. exact IH.
Qed.

Lemma reachable_unreleased_is_reachable releasable f :
  reachable_unreleased releasable f -> reachable f.
Proof. induction 1; by constructor. Qed.

(** While [releaseTasks] has not run for the manager [mgr], each of its
    pending tasks is the one cached for its resource. *)
Lemma reachable_unreleased_pending mgr f :
  reachable_unreleased (fun target => target <> ExpressionManagerTarget mgr) f ->
  pending_cached_of mgr f.
Proof.
  induction 1 as [|f m index Hreach IH|f t outcome Hreach IH
                  |f m target Hreach IH Hrel|f target Hreach IH Hrel].
  - intros t task Hl. destruct t; discriminate Hl.
  - destruct (definition_at m index) as [d|] eqn:Hd.
    2:{ rewrite (loadExpression_undefined f _ _ Hd). exact IH. }
    destruct (cached f m index) as [t|] eqn:Hc.
    + destruct (loadExpression_cached f _ _ d t Hd Hc) as (_ & Hmap & Htasks & _ & _).
      intros t0 task0. rewrite Htasks, (cached_expression_ext _ f _ _ Hmap). apply IH.
    + destruct (loadExpression_fresh f _ _ d Hd Hc) as (_ & Htasks & _ & _).
      intros t0 task0. rewrite Htasks, cached_loadExpression. intros H0 Hm Hp.
      destruct (lookup_snoc_Some _ _ _ _ H0) as [Hold|[-> ->]].
      * pose proof (IH _ _ Hold Hm Hp) as Hc0.
        rewrite decide_False; [exact Hc0|].
        intros (Hm' & Hi'). rewrite Hm', Hi' in Hc0. congruence.
      * simpl in *. subst m. rewrite decide_True by done. by rewrite Hd, Hc.
  - destruct (tasks f !! t) as [task|] eqn:Ht.
    2:{ rewrite settle_expression_not_pending; [exact IH|].
        intros task. rewrite Ht. discriminate. }
    destruct (t_state task) as [|s] eqn:Hs.
    2:{ rewrite settle_expression_not_pending; [exact IH|]. intros task' Ht'. congruence. }
    destruct (settle_expression_effect f t task outcome Ht Hs) as [_ Heff].
    destruct (settle_expression_tasks f t task outcome Ht Hs) as [r Htasks].
    intros t0 task0. rewrite Htasks. intros H0 Hm Hp.
    destruct (lookup_insert_cases _ _ _ _ _ H0) as [[-> ->]|[Hne Hold]];
      [discriminate Hp|].
    pose proof (IH _ _ Hold Hm Hp) as Hc0.
    destruct outcome as [data|e].
    + destruct Heff as [Hmap _].
      rewrite (cached_expression_ext _ _ _ _ Hmap), cached_drop_cached_expression.
      rewrite decide_False; [exact Hc0|].
      intros (Hm' & Hi').
      pose proof (IH _ _ Ht (eq_sym Hm') Hs) as Hct.
      rewrite Hi' in Hc0. congruence.
    + destruct Heff as [Hmap _]. rewrite (cached_expression_ext _ _ _ _ Hmap). exact Hc0.
  - destruct (destroy_expression_fields f m target) as (Ht' & _).
    intros t0 task0. rewrite Ht', cached_destroy_expression. intros H0 Hm Hp.
    rewrite decide_False by (intros [_ ?]; done). by apply IH.
  - destruct (releaseTasks_expression_fields f target) as (Ht' & _).
    intros t0 task0. rewrite Ht', cached_releaseTasks_expression. intros H0 Hm Hp.
    rewrite decide_False by done. by apply IH.
Qed.


(** X6. While the load of an expression is pending and [releaseTasks] has
    not run for its manager, [loadExpression] for the same manager and
    index returns that very task and starts no second load.  The states
    are those reached by [loadExpression] calls, settling loads, and
    [destroy] events and [releaseTasks] calls whose target is not this
    manager. *)
Theorem loadExpression_reuses_pending_task (f : Factory) (t : nat) (task : Task) :
  reachable_unreleased (fun target => target <> ExpressionManagerTarget (t_manager task)) f ->
  tasks f !! t = Some task -> t_state task = Pending ->
  let r := loadExpression f (t_manager task) (t_index task) in
  r.1 = TaskRef t /\ tasks r.2 = tasks f /\ loads r.2 = loads f.
Proof.
  intros Hr Ht Hp r. subst r.
  pose proof (reachable_unreleased_pending _ f Hr) as Hpc.
  destruct (reachable_expression_invariants f (reachable_unreleased_is_reachable _ f Hr))
    as (Htd & _).
  destruct (loadExpression_cached f _ _ _ t (proj1 (Htd _ _ Ht)) (Hpc _ _ Ht eq_refl Hp))
    as (H1 & _ & H2 & H3 & _).
  done.
Qed.


(** X8. A failed load is not retried: the [catch] handler does not clear the
    cache, so after the load of a pending task was rejected, and as long as
    [releaseTasks] has not run for the task's manager, [loadExpression]
    for the same manager and index returns the same task, which is
    fulfilled with [undefined], and no new load is started.  The states
    are those reached by [loadExpression] calls, settling loads, and
    [destroy] events and [releaseTasks] calls whose target is not this
    manager. *)
Theorem failed_expression_is_not_reloaded (f : Factory) (t : nat) (task : Task) (e : Error) :
  reachable_unreleased (fun target => target <> ExpressionManagerTarget (t_manager task)) f ->
  tasks f !! t = Some task -> t_state task = Pending ->
  let f' := settle f t (Reject e) in
  let r := loadExpression f' (t_manager task) (t_index task) in
  r.1 = TaskRef t /\
  task_state r.2 t = Some (Done (Fulfill None)) /\
  loads r.2 = loads f.
Proof.
  intros Hr Ht Hp f' r. subst r f'.
  pose proof (reachable_unreleased_pending _ f Hr) as Hpc.
  destruct (reachable_expression_invariants f (reachable_unreleased_is_reachable _ f Hr))
    as (Htd & _).
  destruct (settle_expression_effect f t task (Reject e) Ht Hp) as (Hl & Hmap & Htasks & _).
  assert (Hc : cached (settle f t (Reject e)) (t_manager task) (t_index task) = Some t).
  { rewrite (cached_expression_ext _ f _ _ Hmap). by apply Hpc. }
  destruct (loadExpression_cached _ _ _ _ t (proj1 (Htd _ _ Ht)) Hc)
    as (H1 & _ & H2 & H3 & _).
  split; [exact H1|]. split; [|congruence].
  unfold task_state. rewrite H2, Htasks.
  rewrite list_lookup_insert_eq by (by eapply lookup_lt_Some). reflexivity.
Qed.


End LoadExpression.

(** Expressions and file contents are numbers; creating an expression from
    the content 0 throws. *)
Definition ref_manager (mgr : nat) : @ExpressionManager nat string nat :=
  mkExpressionManager "Cubism2ExpressionManager"
    ["f01.exp.json"; "f02.exp.json"]
    (fun definition => definition)
    (fun data definition =>
       if Nat.eqb data 0 then inr (OtherError "empty expression") else inl data).

(** After [loadExpression(m0, 1)]: one task, pending. *)
Definition ref_loading : Factory := (loadExpression ref_manager empty_factory 0 1).2.

Definition ref_task : @Task nat string :=
  mkTask 0 1 "f02.exp.json" "f02.exp.json" Pending.


Lemma ref_expression_unreleased releasable :
  reachable_unreleased ref_manager releasable ref_loading.
Proof. apply unreleased_loadExpression, unreleased_empty. Qed.

Lemma ref_expression_task : tasks ref_loading !! 0 = Some ref_task.
Proof. reflexivity. Qed.

(** [releaseTasks] runs for the manager while its load is pending: the
    next call does not find the pending task and loads the file again. *)
Example released_expression_is_loaded_twice :
  let f := releaseTasks ref_loading (ExpressionManagerTarget 0) in
  (loadExpression ref_manager f 0 1).1 = TaskRef 1 /\
  loads (loadExpression ref_manager f 0 1).2 = [(0, "f02.exp.json"); (0, "f02.exp.json")].
Proof. vm_compute. split; reflexivity. Qed.

Lemma loadExpression_reuses_pending_task_witness :
  reachable_unreleased ref_manager (fun target => target <> ExpressionManagerTarget 0)
    ref_loading /\
  tasks ref_loading !! 0 = Some ref_task /\
  (loadExpression ref_manager ref_loading 0 1).1 = TaskRef 0 /\
  loads (loadExpression ref_manager ref_loading 0 1).2 = [(0, "f02.exp.json")].
Proof.
  split; [exact (ref_expression_unreleased _)|]. split; [reflexivity|].
  pose proof (loadExpression_reuses_pending_task ref_manager ref_loading 0 ref_task
                (ref_expression_unreleased _) ref_expression_task eq_refl) as (H1 & _ & H2).
  split; [exact H1 | exact H2].
Defined.


Lemma failed_expression_is_not_reloaded_witness :
  let f := settle ref_manager ref_loading 0 (Reject (OtherError "404")) in
  (loadExpression ref_manager f 0 1).1 = TaskRef 0 /\
  task_state (loadExpression ref_manager f 0 1).2 0 = Some (Done (Fulfill None)) /\
  loads (loadExpression ref_manager f 0 1).2 = [(0, "f02.exp.json")].
Proof.
  exact (failed_expression_is_not_reloaded ref_manager ref_loading 0 ref_task
           (OtherError "404") (ref_expression_unreleased _) ref_expression_task eq_refl).
Defined.


End ExpressionLoading.

(* ===================================================================== *)
(** * src/factory/Live2DFactory.ts: the middleware chain and its events *)
(* ===================================================================== *)

Module SetupModel.
Import MotionLoading.

(** Values the factory only passes on are named by numbers: parsed JSON
    (with the [url] property that [urlToJSON] sets), core models, textures,
    poses and physics objects.  A model file is its bytes. *)
Record JSON : Type := mkJSON {
  json_id : nat;
  json_url : option string;
}.

(** An object held as settings.  [isModelSettings] tells whether it is an
    instance of the class [ModelSettings]: [createInternalModel] asks, and
    an object that a runtime's [createModelSettings] returns need not be
    one ([jsonToSettings] takes whatever is truthy). *)
Module ModelSettings.
Record t : Type := mk {
  url : string;
  moc : string;
  textures : list string;
  pose : option string;
  physics : option string;
  resolveURL : string -> string;
  isModelSettings : bool;
}.
End ModelSettings.

Record Live2DFactoryOptions : Type := mkOptions {
  crossOrigin : option string;
}.

Module InternalModel.
Record t : Type := mk {
  coreModel : nat;
  settings : ModelSettings.t;
  pose : option nat;
  physics : option nat;
}.
Definition set_pose (p : nat) (im : t) : t := mk (coreModel im) (settings im) (Some p) (physics im).
Definition set_physics (p : nat) (im : t) : t := mk (coreModel im) (settings im) (pose im) (Some p).
End InternalModel.

(** [Live2DRuntime]; [ready] is how the promise it returns settles. *)
Module Live2DRuntime.
Record t : Type := mk {
  version : Z;
  createModelSettings : JSON -> option ModelSettings.t;
  test : ModelSettings.t -> bool;
  ready : option Error;
  createCoreModel : list Z -> nat;
  createInternalModel : nat -> ModelSettings.t -> Live2DFactoryOptions -> InternalModel.t;
  createPose : nat -> JSON -> nat;
  createPhysics : nat -> JSON -> nat;
}.
End Live2DRuntime.

(** [context.source]: a URL, a [ModelSettings] instance, another object, or
    a value that is no object.  The settings of [SourceSettings] are an
    instance: their [isModelSettings] is [true]. *)
Inductive Source : Type :=
| SourceString (url : string)
| SourceSettings (settings : ModelSettings.t)
| SourceObject (json : JSON)
| SourceOther.

(** The display object, as far as the factory touches it: the events
    emitted on it, in order, and the two members the chain assigns.  Its
    [internalModel], once assigned, is the object [context.internalModel]
    refers to, so the assignment is recorded and the object kept in the
    context alone. *)
Record Live2DModel : Type := mkLive2DModel {
  emitted : list string;
  internalModel_assigned : bool;
  model_textures : option (list nat);
}.

Record Live2DFactoryContext : Type := mkContext {
  source : Source;
  options : Live2DFactoryOptions;
  live2dModel : Live2DModel;
  internalModel : option InternalModel.t;
  settings : option ModelSettings.t;
  warned : list string;
}.

Definition set_source (s : Source) (c : Live2DFactoryContext) :=
  mkContext s (options c) (live2dModel c) (internalModel c) (settings c) (warned c).
Definition set_live2dModel (m : Live2DModel) (c : Live2DFactoryContext) :=
  mkContext (source c) (options c) m (internalModel c) (settings c) (warned c).
Definition set_internalModel (im : option InternalModel.t) (c : Live2DFactoryContext) :=
  mkContext (source c) (options c) (live2dModel c) im (settings c) (warned c).
Definition set_settings (s : option ModelSettings.t) (c : Live2DFactoryContext) :=
  mkContext (source c) (options c) (live2dModel c) (internalModel c) s (warned c).

(** [context.live2dModel.emit(event)]. *)
Definition emit (event : string) (c : Live2DFactoryContext) : Live2DFactoryContext :=
  let m := live2dModel c in
  set_live2dModel
    (mkLive2DModel (emitted m ++ [event]) (internalModel_assigned m) (model_textures m)) c.

(** [logger.warn(TAG, message)]. *)
Definition warn (message : string) (c : Live2DFactoryContext) : Live2DFactoryContext :=
  mkContext (source c) (options c) (live2dModel c) (internalModel c) (settings c)
    (warned c ++ [message]).

(** How the promise of a middleware settles, with the context as it then is. *)
Inductive Outcome : Type :=
| Resolved (c : Live2DFactoryContext)
| Rejected (e : Error) (c : Live2DFactoryContext).

Definition Middleware : Type :=
  Live2DFactoryContext -> (Live2DFactoryContext -> Outcome) -> Outcome.

Section Chain.

(** [Live2DFactory.runtimes], and what is fetched from outside:
    [Live2DLoader.load] for JSON and for model files, and [createTexture]. *)
Variable runtimes : list Live2DRuntime.t.
Variable load_json : string -> JSON + Error.
Variable load_arraybuffer : string -> list Z + Error.
Variable createTexture : string -> option string -> nat + Error.

Definition urlToJSON : Middleware := fun context next =>
  match source context with
  | SourceString url =>
      match load_json url with
      | inl data =>
          let data := mkJSON (json_id data) (Some url) in
          let context := set_source (SourceObject data) context in
          let context := emit "settingsJSONLoaded" context in
          next context
      | inr e => Rejected e context
      end
  | _ => next context
  end.

(** The [for] loop of [jsonToSettings]: the settings of the first runtime
    whose [createModelSettings] returns some. *)
Fixpoint first_settings (rs : list Live2DRuntime.t) (json : JSON) : option ModelSettings.t :=
  match rs with
  | [] => None
  | runtime :: rs' =>
      match Live2DRuntime.createModelSettings runtime json with
      | Some settings => Some settings
      | None => first_settings rs' json
      end
  end.

Definition jsonToSettings : Middleware := fun context next =>
  match source context with
  | SourceSettings s =>
      let context := set_settings (Some s) context in
      next context
  | SourceObject json =>
      match first_settings runtimes json with
      | Some settings =>
          let context := set_settings (Some settings) context in
          let context := emit "settingsLoaded" context in
          next context
      | None => Rejected (TypeError "Unknown settings format.") context
      end
  | _ => Rejected (TypeError "Unknown settings format.") context
  end.

(** [Live2DFactory.runtimes.find(f => f.test(settings))]. *)
Definition find_runtime (s : ModelSettings.t) : option Live2DRuntime.t :=
  List.find (fun f => Live2DRuntime.test f s) runtimes.

Definition waitUntilReady : Middleware := fun context next =>
  match settings context with
  | Some s =>
      match find_runtime s with
      | Some runtime =>
          match Live2DRuntime.ready runtime with
          | None => next context
          | Some e => Rejected e context
          end
      | None => next context
      end
  | None => next context
  end.

(** One of the two optional loads of [setupOptionals]: on success the
    created object is stored and the event emitted, on failure a warning
    is logged. *)
Definition load_optional (file : option string)
    (create : JSON -> InternalModel.t -> InternalModel.t) (event failure : string)
    (im : InternalModel.t) (context : Live2DFactoryContext)
    : InternalModel.t * Live2DFactoryContext :=
  match file with
  | Some path =>
      match load_json path with
      | inl data => (create data im, emit event context)
      | inr e => (im, warn failure context)
      end
  | None => (im, context)
  end.

(** [setupOptionals]; [context.settings!] is taken to be set whenever the
    internal model is. *)
Definition setupOptionals : Middleware := fun context next =>
  match next context with
  | Rejected e context => Rejected e context
  | Resolved context =>
      match internalModel context, settings context with
      | Some im, Some s =>
          match find_runtime s with
          | Some runtime =>
              let createPose data im :=
                InternalModel.set_pose
                  (Live2DRuntime.createPose runtime (InternalModel.coreModel im) data) im in
              let createPhysics data im :=
                InternalModel.set_physics
                  (Live2DRuntime.createPhysics runtime (InternalModel.coreModel im) data) im in
              let r := load_optional (ModelSettings.pose s) createPose
                         "poseLoaded" "Failed to load pose." im context in
              let r := load_optional (ModelSettings.physics s) createPhysics
                         "physicsLoaded" "Failed to load physics." r.1 r.2 in
              Resolved (set_internalModel (Some r.1) r.2)
          | None => Resolved context
          end
      | _, _ => Resolved context
      end
  end.

(** [Promise.all] over loads that have settled. *)
Fixpoint all_settled (results : list (nat + Error)) : list nat + Error :=
  match results with
  | [] => inl []
  | inr e :: _ => inr e
  | inl x :: rest =>
      match all_settled rest with
      | inl xs => inl (x :: xs)
      | inr e => inr e
      end
  end.

Definition setupLive2DModel : Middleware := fun context next =>
  match settings context with
  | Some s =>
      let textureLoadings :=
        List.map (fun tex => createTexture (ModelSettings.resolveURL s tex)
                               (crossOrigin (options context)))
                 (ModelSettings.textures s) in
      match next context with
      | Rejected e context => Rejected e context
      | Resolved context =>
          match internalModel context with
          | Some im =>
              let m := live2dModel context in
              let context :=
                set_live2dModel (mkLive2DModel (emitted m) true (model_textures m)) context in
              let context := emit "modelLoaded" context in
              match all_settled textureLoadings with
              | inl texs =>
                  let m := live2dModel context in
                  let context :=
                    set_live2dModel
                      (mkLive2DModel (emitted m) (internalModel_assigned m) (Some texs)) context in
                  let context := emit "textureLoaded" context in
                  Resolved context
              | inr e => Rejected e context
              end
          | None => Rejected (TypeError "Missing internal model.") context
          end
      end
  | None => Rejected (TypeError "Missing settings.") context
  end.

Definition createInternalModel : Middleware := fun context next =>
  match settings context with
  | Some s =>
      if ModelSettings.isModelSettings s then
        match find_runtime s with
        | None => Rejected (TypeError "Unknown model settings.") context
        | Some runtime =>
            match load_arraybuffer (ModelSettings.moc s) with
            | inl modelData =>
                let coreModel := Live2DRuntime.createCoreModel runtime modelData in
                let context :=
                  set_internalModel
                    (Some (Live2DRuntime.createInternalModel runtime coreModel s
                             (options context)))
                    context in
                next context
            | inr e => Rejected e context
            end
        end
      else Rejected (TypeError "Missing settings.") context
  | None => Rejected (TypeError "Missing settings.") context
  end.

(** Modelled from the spec: [runMiddlewares] of [utils/middleware] is not
    among the sources; the spec calls it a middleware chain.  Each
    middleware gets the rest of the chain as its [next]; past the last one
    [next] resolves. *)
Fixpoint runMiddlewares (middlewares : list Middleware) (context : Live2DFactoryContext)
    : Outcome :=
  match middlewares with
  | [] => Resolved context
  | middleware :: rest => middleware context (runMiddlewares rest)
  end.

Definition live2DModelMiddlewares : list Middleware :=
  [urlToJSON; jsonToSettings; waitUntilReady; setupOptionals; setupLive2DModel;
   createInternalModel].

(** ** [Live2DFactory.setupLive2DModel]: promises and events *)

(** The method waits for the chain and for [readyEventEmitted]; the
    callback that emits "ready" runs once both [once] listeners have
    resolved their promises, at some later turn of the job queue.  The
    chain's emissions are replayed one at a time, and the callback may run
    between any two of them. *)
Inductive Phase : Type :=
| AwaitingMiddlewares
| AwaitingReady
| Loaded
| Failed (e : Error).

Record Setup : Type := mkSetup {
  log : list string;
  pending : list string;
  chain_error : option Error;
  textureLoaded : bool;
  modelLoaded : bool;
  readyEventEmitted : bool;
  phase : Phase;
}.

Definition outcome_context (o : Outcome) : Live2DFactoryContext :=
  match o with
  | Resolved c => c
  | Rejected _ c => c
  end.

Definition outcome_error (o : Outcome) : option Error :=
  match o with
  | Resolved _ => None
  | Rejected e _ => Some e
  end.

(** The context [setupLive2DModel] hands to [runMiddlewares]. *)
Definition initial_context (src : Source) (opts : Live2DFactoryOptions) : Live2DFactoryContext :=
  mkContext src opts (mkLive2DModel [] false None) None None [].

Definition start (src : Source) (opts : Live2DFactoryOptions) : Setup :=
  let o := runMiddlewares live2DModelMiddlewares (initial_context src opts) in
  mkSetup [] (emitted (live2dModel (outcome_context o))) (outcome_error o)
    false false false AwaitingMiddlewares.

(** [live2dModel.emit(event)] with the two [once] listeners attached. *)
Definition emit_on_model (event : string) (s : Setup) : Setup :=
  mkSetup (log s ++ [event]) (pending s) (chain_error s)
    (textureLoaded s || String.eqb event "textureLoaded")
    (modelLoaded s || String.eqb event "modelLoaded")
    (readyEventEmitted s) (phase s).

Definition set_pending (p : list string) (s : Setup) : Setup :=
  mkSetup (log s) p (chain_error s) (textureLoaded s) (modelLoaded s)
    (readyEventEmitted s) (phase s).

Definition set_phase (p : Phase) (s : Setup) : Setup :=
  mkSetup (log s) (pending s) (chain_error s) (textureLoaded s) (modelLoaded s)
    (readyEventEmitted s) p.

Definition set_readyEventEmitted (s : Setup) : Setup :=
  mkSetup (log s) (pending s) (chain_error s) (textureLoaded s) (modelLoaded s)
    true (phase s).

Inductive step : Setup -> Setup -> Prop :=
| step_chain_emits s event rest :
    phase s = AwaitingMiddlewares -> pending s = event :: rest ->
    step s (set_pending rest (emit_on_model event s))
| step_ready s :
    textureLoaded s = true -> modelLoaded s = true -> readyEventEmitted s = false ->
    step s (set_readyEventEmitted (emit_on_model "ready" s))
| step_chain_resolves s :
    phase s = AwaitingMiddlewares -> pending s = [] -> chain_error s = None ->
    step s (set_phase AwaitingReady s)
| step_chain_rejects s e :
    phase s = AwaitingMiddlewares -> pending s = [] -> chain_error s = Some e ->
    step s (set_phase (Failed e) s)
| step_load s :
    phase s = AwaitingReady -> readyEventEmitted s = true ->
    step s (set_phase Loaded (emit_on_model "load" s)).

(** One schedule: the "ready" callback runs as soon as it can. *)
Definition fire_ready (s : Setup) : Setup :=
  if textureLoaded s && modelLoaded s && negb (readyEventEmitted s)
  then set_readyEventEmitted (emit_on_model "ready" s)
  else s.

Fixpoint drain (events : list string) (s : Setup) : Setup :=
  match events with
  | [] => s
  | event :: rest => drain rest (fire_ready (set_pending rest (emit_on_model event s)))
  end.

Definition finish (s : Setup) : Setup :=
  match chain_error s with
  | Some e => set_phase (Failed e) s
  | None =>
      let s := set_phase AwaitingReady s in
      if readyEventEmitted s then set_phase Loaded (emit_on_model "load" s) else s
  end.

Definition Live2DFactory_setupLive2DModel (src : Source) (opts : Live2DFactoryOptions) : Setup :=
  let s := start src opts in
  finish (drain (pending s) s).

(** ** Properties of [jsonToSettings] *)

Lemma first_settings_None rs json :
  first_settings rs json = None <->
  (forall runtime, runtime ∈ rs -> Live2DRuntime.createModelSettings runtime json = None).
Proof.
  induction rs as [|r rs IH]; simpl.
  - split; [|reflexivity]. intros _ runtime Hin. inversion Hin.
  - destruct (Live2DRuntime.createModelSettings r json) as [s|] eqn:Hr.
    + split; [discriminate|]. intros Hall.
      specialize (Hall r (list_elem_of_here _ _)). congruence.
    + rewrite IH. split.
      * intros Hall runtime Hin. apply elem_of_cons in Hin as [->|Hin]; [exact Hr | by apply Hall].
      * intros Hall runtime Hin. apply Hall. by apply list_elem_of_further.
Qed.

Lemma first_settings_Some rs json s :
  first_settings rs json = Some s ->
  exists runtime, runtime ∈ rs /\ Live2DRuntime.createModelSettings runtime json = Some s.
Proof.
  induction rs as [|r rs IH]; simpl; [discriminate|].
  destruct (Live2DRuntime.createModelSettings r json) as [s'|] eqn:Hr.
  - intros [= <-]. exists r. split; [apply list_elem_of_here | exact Hr].
  - intros Hs. destruct (IH Hs) as (runtime & Hin & Hc).
    exists runtime. split; [by apply list_elem_of_further | exact Hc].
Qed.

(** The source is neither a [ModelSettings] instance nor an object that
    some registered runtime makes settings from. *)
Definition unknown_format (context : Live2DFactoryContext) : Prop :=
  (forall s, source context <> SourceSettings s) /\
  (forall json runtime,
     source context = SourceObject json -> runtime ∈ runtimes ->
     Live2DRuntime.createModelSettings runtime json = None).

(** C4. [jsonToSettings] throws [TypeError("Unknown settings format.")],
    without calling [next], exactly when the source is neither a
    [ModelSettings] instance nor an object from which a registered runtime
    makes settings.  Otherwise it stores settings in the context (the
    instance itself, or what the first runtime that accepts the object
    made, announced by "settingsLoaded") and its result is the result of
    [next] on that context. *)
Theorem jsonToSettings_throws_iff_unknown_format (context : Live2DFactoryContext) :
  (unknown_format context <->
   jsonToSettings context Resolved
   = Rejected (TypeError "Unknown settings format.") context) /\
  (unknown_format context ->
   forall next,
     jsonToSettings context next
     = Rejected (TypeError "Unknown settings format.") context) /\
  (~ unknown_format context ->
   exists s context',
     settings context' = Some s /\
     (forall next, jsonToSettings context next = next context') /\
     match source context with
     | SourceSettings s' => s = s' /\ context' = set_settings (Some s) context
     | SourceObject json =>
         first_settings runtimes json = Some s /\
         (exists runtime, runtime ∈ runtimes /\
            Live2DRuntime.createModelSettings runtime json = Some s) /\
         context' = emit "settingsLoaded" (set_settings (Some s) context)
     | _ => False
     end).
Proof.
  assert (Hthrow : unknown_format context ->
    forall next, jsonToSettings context next
                 = Rejected (TypeError "Unknown settings format.") context).
  { intros [Hinst Hobj] next. unfold jsonToSettings.
    destruct (source context) as [u|s|json|] eqn:Hsrc; try reflexivity.
    - exfalso. by eapply Hinst.
    - assert (Hnone : first_settings runtimes json = None).
      { apply first_settings_None. intros runtime Hin. by eapply Hobj. }
      rewrite Hnone. reflexivity. }
  split; [|split].
  - split; [intros Hu; by apply Hthrow|].
    unfold jsonToSettings, unknown_format.
    destruct (source context) as [u|s|json|] eqn:Hsrc.
    + intros _. split; [intros ? [=] | intros ? ? [=]].
    + intros Heq; discriminate Heq.
    + destruct (first_settings runtimes json) as [s|] eqn:Hfirst; [intros Heq; discriminate Heq|].
      intros _. split; [intros ? [=]|].
      intros json' runtime [= <-] Hin.
      by apply (proj1 (first_settings_None runtimes json) Hfirst).
    + intros _. split; [intros ? [=] | intros ? ? [=]].
  - exact Hthrow.
  - intros Hknown. unfold jsonToSettings.
    destruct (source context) as [u|s|json|] eqn:Hsrc.
    + exfalso. apply Hknown. unfold unknown_format. rewrite Hsrc.
      split; [intros ? [=] | intros ? ? [=]].
    + exists s, (set_settings (Some s) context). repeat split; reflexivity.
    + destruct (first_settings runtimes json) as [s|] eqn:Hfirst.
      * exists s, (emit "settingsLoaded" (set_settings (Some s) context)).
        split; [reflexivity|]. split; [reflexivity|].
        split; [reflexivity|]. split; [by apply first_settings_Some | reflexivity].
      * exfalso. apply Hknown. unfold unknown_format. rewrite Hsrc.
        split; [intros ? [=]|].
        intros json' runtime [= <-] Hin.
        by apply (proj1 (first_settings_None runtimes json) Hfirst).
    + exfalso. apply Hknown. unfold unknown_format. rewrite Hsrc.
      split; [intros ? [=] | intros ? ? [=]].
Qed.

(** ** Properties of the chain's events *)

(** An event the middlewares may emit: any but "ready" and "load". *)
Definition chain_event (event : string) : Prop := event <> "ready" /\ event <> "load".

Definition quiet (c : Live2DFactoryContext) : Prop :=
  Forall chain_event (emitted (live2dModel c)).

Definition keeps_quiet (k : Live2DFactoryContext -> Outcome) : Prop :=
  forall c, quiet c -> quiet (outcome_context (k c)).

Lemma quiet_emit event c : chain_event event -> quiet c -> quiet (emit event c).
Proof.
  intros He Hq. unfold quiet, emit; simpl.
  apply Forall_app. split; [exact Hq|]. by apply Forall_singleton.
Qed.

Lemma chain_event_named event :
  event ∈ ["settingsJSONLoaded"; "settingsLoaded"; "poseLoaded"; "physicsLoaded";
           "modelLoaded"; "textureLoaded"] ->
  chain_event event.
Proof.
  intros Hin. split; intros ->; (revert Hin; refine (not_elem_of_decide _ _ _); reflexivity).
Qed.

Lemma urlToJSON_quiet next : keeps_quiet next -> keeps_quiet (fun c => urlToJSON c next).
Proof.
  intros Hn c Hq. unfold urlToJSON.
  destruct (source c); try (by apply Hn).
  destruct (load_json url); [|exact Hq].
  apply Hn. apply quiet_emit; [apply chain_event_named; set_solver | exact Hq].
Qed.

Lemma jsonToSettings_quiet next : keeps_quiet next -> keeps_quiet (fun c => jsonToSettings c next).
Proof.
  intros Hn c Hq. unfold jsonToSettings.
  destruct (source c); try exact Hq.
  - by apply Hn.
  - destruct (first_settings runtimes json); [|exact Hq].
    apply Hn. apply quiet_emit; [apply chain_event_named; set_solver | exact Hq].
Qed.

Lemma waitUntilReady_quiet next : keeps_quiet next -> keeps_quiet (fun c => waitUntilReady c next).
Proof.
  intros Hn c Hq. unfold waitUntilReady.
  destruct (settings c) as [s|]; [|by apply Hn].
  destruct (find_runtime s) as [runtime|]; [|by apply Hn].
  destruct (Live2DRuntime.ready runtime); [exact Hq | by apply Hn].
Qed.

Lemma load_optional_quiet file create event failure im c :
  chain_event event -> quiet c ->
  quiet (load_optional file create event failure im c).2.
Proof.
  intros He Hq. unfold load_optional.
  destruct file as [path|]; [|exact Hq].
  destruct (load_json path); simpl; [by apply quiet_emit | exact Hq].
Qed.

Lemma setupOptionals_quiet next : keeps_quiet next -> keeps_quiet (fun c => setupOptionals c next).
Proof.
  intros Hn c Hq. unfold setupOptionals.
  specialize (Hn c Hq). destruct (next c) as [c'|e c']; simpl in Hn; [|exact Hn].
  destruct (internalModel c'); [|exact Hn].
  destruct (settings c') as [s|]; [|exact Hn].
  destruct (find_runtime s); [|exact Hn].
  simpl. apply load_optional_quiet; [apply chain_event_named; set_solver|].
  apply load_optional_quiet; [apply chain_event_named; set_solver | exact Hn].
Qed.

Lemma setupLive2DModel_quiet next :
  keeps_quiet next -> keeps_quiet (fun c => setupLive2DModel c next).
Proof.
  intros Hn c Hq. unfold setupLive2DModel.
  destruct (settings c); [|exact Hq].
  specialize (Hn c Hq). destruct (next c) as [c'|e c']; simpl in Hn; [|exact Hn].
  destruct (internalModel c'); [|exact Hn].
  assert (Hm : quiet (emit "modelLoaded"
             (set_live2dModel
                (mkLive2DModel (emitted (live2dModel c')) true (model_textures (live2dModel c')))
                c'))).
  { apply quiet_emit; [apply chain_event_named; set_solver | exact Hn]. }
  destruct (all_settled _); [|exact Hm].
  simpl. apply quiet_emit; [apply chain_event_named; set_solver | exact Hm].
Qed.

Lemma createInternalModel_quiet next :
  keeps_quiet next -> keeps_quiet (fun c => createInternalModel c next).
Proof.
  intros Hn c Hq. unfold createInternalModel.
  destruct (settings c) as [s|]; [|exact Hq].
  destruct (ModelSettings.isModelSettings s); [|exact Hq].
  destruct (find_runtime s); [|exact Hq].
  destruct (load_arraybuffer _); [|exact Hq].
  by apply Hn.
Qed.

Lemma chain_quiet : keeps_quiet (runMiddlewares live2DModelMiddlewares).
Proof.
  unfold live2DModelMiddlewares; simpl.
  apply urlToJSON_quiet, jsonToSettings_quiet, waitUntilReady_quiet, setupOptionals_quiet,
    setupLive2DModel_quiet, createInternalModel_quiet.
  intros c Hq. exact Hq.
Qed.

Lemma start_pending_quiet src opts : Forall chain_event (pending (start src opts)).
Proof. unfold start; simpl. apply chain_quiet. constructor. Qed.

(** ** Properties of [Live2DFactory.setupLive2DModel] *)

(** In [l], every [b] comes after some [a]. *)
Definition before (a b : string) (l : list string) : Prop :=
  forall pre post, l = pre ++ b :: post -> a ∈ pre.

Lemma before_nil a b : before a b [].
Proof. intros pre post Heq. destruct pre; discriminate Heq. Qed.

Lemma before_snoc_other a b l e : e <> b -> before a b l -> before a b (l ++ [e]).
Proof.
  intros Hne Hb pre post Heq.
  destruct post as [|x post _] using rev_ind.
  - apply app_inj_tail in Heq as [_ ->]. contradiction.
  - change (pre ++ b :: post ++ [x]) with (pre ++ (b :: post) ++ [x]) in Heq.
    rewrite app_assoc in Heq. apply app_inj_tail in Heq as [-> _].
    by eapply Hb.
Qed.

Lemma before_snoc a b l : a ∈ l -> before a b l -> before a b (l ++ [b]).
Proof.
  intros Hin Hb pre post Heq.
  destruct post as [|x post _] using rev_ind.
  - apply app_inj_tail in Heq as [-> _]. exact Hin.
  - change (pre ++ b :: post ++ [x]) with (pre ++ (b :: post) ++ [x]) in Heq.
    rewrite app_assoc in Heq. apply app_inj_tail in Heq as [-> _].
    by eapply Hb.
Qed.

Definition invariant (s : Setup) : Prop :=
  Forall chain_event (pending s) /\
  (textureLoaded s = true -> "textureLoaded" ∈ log s) /\
  (modelLoaded s = true -> "modelLoaded" ∈ log s) /\
  (readyEventEmitted s = true -> "ready" ∈ log s) /\
  before "modelLoaded" "ready" (log s) /\
  before "textureLoaded" "ready" (log s) /\
  before "ready" "load" (log s) /\
  (phase s = Loaded -> readyEventEmitted s = true /\ last (log s) = Some "load").

Lemma start_invariant src opts : invariant (start src opts).
Proof.
  split; [apply start_pending_quiet|].
  unfold start; simpl.
  repeat split; try discriminate; apply before_nil.
Qed.

Lemma step_invariant s s' : invariant s -> step s s' -> invariant s'.
Proof.
  intros (Hq & Ht & Hm & Hr & Hmr & Htr & Hrl & Hl) Hstep.
  destruct Hstep as [s event rest Hph Hpend | s Htl Hml Hre | s Hph Hpend Herr
                    | s e Hph Hpend Herr | s Hph Hre].
  - rewrite Hpend in Hq. apply Forall_cons in Hq as [[Hnr Hnl] Hq].
    unfold invariant; simpl.
    split; [exact Hq|]. split; [|split; [|split; [|split; [|split; [|split]]]]].
    + intros Hor. apply orb_true_iff in Hor as [Hold|Hnew].
      * apply elem_of_app; left. by apply Ht.
      * apply String.eqb_eq in Hnew as ->. apply elem_of_app; right. apply list_elem_of_here.
    + intros Hor. apply orb_true_iff in Hor as [Hold|Hnew].
      * apply elem_of_app; left. by apply Hm.
      * apply String.eqb_eq in Hnew as ->. apply elem_of_app; right. apply list_elem_of_here.
    + intros Hready. apply elem_of_app; left. by apply Hr.
    + by apply before_snoc_other.
    + by apply before_snoc_other.
    + by apply before_snoc_other.
    + rewrite Hph. discriminate.
  - unfold invariant; simpl. rewrite !orb_false_r.
    split; [exact Hq|]. split; [|split; [|split; [|split; [|split; [|split]]]]].
    + intros _. apply elem_of_app; left. by apply Ht.
    + intros _. apply elem_of_app; left. by apply Hm.
    + intros _. apply elem_of_app; right. apply list_elem_of_here.
    + apply before_snoc; [by apply Hm | exact Hmr].
    + apply before_snoc; [by apply Ht | exact Htr].
    + apply before_snoc_other; [discriminate | exact Hrl].
    + intros Hloaded. destruct (Hl Hloaded) as [Hready _]. congruence.
  - unfold invariant; simpl. repeat split; try assumption; discriminate.
  - unfold invariant; simpl. repeat split; try assumption; discriminate.
  - unfold invariant; simpl. rewrite !orb_false_r.
    split; [exact Hq|]. split; [|split; [|split; [|split; [|split; [|split]]]]].
    + intros Hold. apply elem_of_app; left. by apply Ht.
    + intros Hold. apply elem_of_app; left. by apply Hm.
    + intros Hold. apply elem_of_app; left. by apply Hr.
    + apply before_snoc_other; [discriminate | exact Hmr].
    + apply before_snoc_other; [discriminate | exact Htr].
    + apply before_snoc; [by apply Hr | exact Hrl].
    + intros _. split; [exact Hre | apply last_snoc].
Qed.

Lemma steps_invariant src opts s : rtc step (start src opts) s -> invariant s.
Proof.
  revert s. apply rtc_ind_r.
  - apply start_invariant.
  - intros y z _ Hstep IH. by eapply step_invariant.
Qed.

(** C2. In every run of [Live2DFactory.setupLive2DModel], at every moment,
    each "ready" on the model comes after a "modelLoaded" and after a
    "textureLoaded", and each "load" comes after a "ready".  A run that
    completes has emitted "modelLoaded", "textureLoaded" and "ready", and
    "load" is the last event it emitted. *)
Theorem ready_follows_modelLoaded_and_textureLoaded
    (src : Source) (opts : Live2DFactoryOptions) (s : Setup) :
  rtc step (start src opts) s ->
  before "modelLoaded" "ready" (log s) /\
  before "textureLoaded" "ready" (log s) /\
  before "ready" "load" (log s) /\
  (phase s = Loaded ->
   "modelLoaded" ∈ log s /\ "textureLoaded" ∈ log s /\ "ready" ∈ log s /\
   last (log s) = Some "load").
Proof.
  intros Hsteps.
  destruct (steps_invariant _ _ _ Hsteps) as (_ & _ & _ & Hr & Hmr & Htr & Hrl & Hl).
  split; [exact Hmr|]. split; [exact Htr|]. split; [exact Hrl|].
  intros Hloaded. destruct (Hl Hloaded) as [Hready Hlast].
  specialize (Hr Hready).
  apply list_elem_of_split in Hr as (pre & post & Heq).
  pose proof (Hmr _ _ Heq) as Hmodel. pose proof (Htr _ _ Heq) as Htexture.
  rewrite Heq. repeat split.
  - apply elem_of_app; by left.
  - apply elem_of_app; by left.
  - apply elem_of_app; right. apply list_elem_of_here.
  - rewrite <- Heq. exact Hlast.
Qed.

(** The schedule of [Live2DFactory_setupLive2DModel] is one of the runs. *)
Lemma fire_ready_steps s : rtc step s (fire_ready s).
Proof.
  unfold fire_ready.
  destruct (textureLoaded s) eqn:Ht; simpl; [|apply rtc_refl].
  destruct (modelLoaded s) eqn:Hm; simpl; [|apply rtc_refl].
  destruct (readyEventEmitted s) eqn:Hr; simpl; [apply rtc_refl|].
  apply rtc_once. by apply step_ready.
Qed.

Lemma fire_ready_phase s : phase (fire_ready s) = phase s /\ pending (fire_ready s) = pending s.
Proof.
  unfold fire_ready.
  destruct (textureLoaded s && modelLoaded s && negb (readyEventEmitted s)); done.
Qed.

Lemma drain_steps events s :
  phase s = AwaitingMiddlewares -> pending s = events ->
  rtc step s (drain events s) /\
  phase (drain events s) = AwaitingMiddlewares /\ pending (drain events s) = [].
Proof.
  revert s. induction events as [|event rest IH]; intros s Hph Hpend; simpl.
  - split; [apply rtc_refl | done].
  - destruct (fire_ready_phase (set_pending rest (emit_on_model event s))) as [Hph' Hpend'].
    destruct (IH (fire_ready (set_pending rest (emit_on_model event s)))) as (Hsteps & Hp & Hq).
    { rewrite Hph'. exact Hph. }
    { rewrite Hpend'. reflexivity. }
    split; [|done].
    eapply rtc_l; [by apply step_chain_emits|].
    eapply rtc_trans; [apply fire_ready_steps | exact Hsteps].
Qed.

Lemma finish_steps s :
  phase s = AwaitingMiddlewares -> pending s = [] -> rtc step s (finish s).
Proof.
  intros Hph Hpend. unfold finish.
  destruct (chain_error s) as [e|] eqn:Herr.
  - apply rtc_once. by apply step_chain_rejects.
  - simpl. destruct (readyEventEmitted s) eqn:Hr.
    + eapply rtc_l; [by apply step_chain_resolves|].
      apply rtc_once. by apply step_load.
    + apply rtc_once. by apply step_chain_resolves.
Qed.

Lemma setupLive2DModel_is_a_run src opts :
  rtc step (start src opts) (Live2DFactory_setupLive2DModel src opts).
Proof.
  unfold Live2DFactory_setupLive2DModel. cbv zeta.
  destruct (drain_steps (pending (start src opts)) (start src opts)) as (Hsteps & Hph & Hpend);
    [reflexivity | reflexivity |].
  eapply rtc_trans; [exact Hsteps |]. by apply finish_steps.
Qed.

(** When the chain resolves, it has emitted "modelLoaded" and
    "textureLoaded": the middleware [setupLive2DModel] throws otherwise. *)
Definition announces (o : Outcome) : Prop :=
  match o with
  | Resolved c =>
      "modelLoaded" ∈ emitted (live2dModel c) /\ "textureLoaded" ∈ emitted (live2dModel c)
  | Rejected _ _ => True
  end.

Lemma load_optional_emitted file create event failure im c (e : string) :
  e ∈ emitted (live2dModel c) ->
  e ∈ emitted (live2dModel (load_optional file create event failure im c).2).
Proof.
  intros Hin. unfold load_optional.
  destruct file as [path|]; [|exact Hin].
  destruct (load_json path); simpl; [|exact Hin].
  apply elem_of_app; by left.
Qed.

Lemma setupLive2DModel_announces c next : announces (setupLive2DModel c next).
Proof.
  unfold setupLive2DModel.
  destruct (settings c); [|exact I].
  destruct (next c) as [c'|e c']; [|exact I].
  destruct (internalModel c'); [|exact I].
  destruct (all_settled _); [|exact I].
  simpl. split.
  - apply elem_of_app; left. apply elem_of_app; right. apply list_elem_of_here.
  - apply elem_of_app; right. apply list_elem_of_here.
Qed.

Lemma setupOptionals_announces c next :
  (forall c', announces (next c')) -> announces (setupOptionals c next).
Proof.
  intros Hn. unfold setupOptionals.
  specialize (Hn c). destruct (next c) as [c'|e c']; [|exact I].
  destruct (internalModel c'); [|exact Hn].
  destruct (settings c') as [s|]; [|exact Hn].
  destruct (find_runtime s); [|exact Hn].
  destruct Hn as [Hm Ht]. simpl. split; by do 2 apply load_optional_emitted.
Qed.

Lemma chain_announces c : announces (runMiddlewares live2DModelMiddlewares c).
Proof.
  unfold live2DModelMiddlewares; simpl.
  assert (Hrest : forall c', announces
            (waitUntilReady c' (fun c1 => setupOptionals c1
               (fun c2 => setupLive2DModel c2
                  (fun c3 => createInternalModel c3 (fun c4 => Resolved c4)))))).
  { intros c'. unfold waitUntilReady.
    assert (Hopt : forall c1, announces (setupOptionals c1
               (fun c2 => setupLive2DModel c2
                  (fun c3 => createInternalModel c3 (fun c4 => Resolved c4))))).
    { intros c1. apply setupOptionals_announces. intros c2. apply setupLive2DModel_announces. }
    destruct (settings c') as [s|]; [|apply Hopt].
    destruct (find_runtime s) as [runtime|]; [|apply Hopt].
    destruct (Live2DRuntime.ready runtime); [exact I | apply Hopt]. }
  assert (Hjson : forall c', announces
            (jsonToSettings c' (fun c0 => waitUntilReady c0 (fun c1 => setupOptionals c1
               (fun c2 => setupLive2DModel c2
                  (fun c3 => createInternalModel c3 (fun c4 => Resolved c4))))))).
  { intros c'. unfold jsonToSettings.
    destruct (source c'); try exact I; [apply Hrest|].
    destruct (first_settings runtimes json); [apply Hrest | exact I]. }
  unfold urlToJSON.
  destruct (source c); try apply Hjson.
  destruct (load_json url); [apply Hjson | exact I].
Qed.

(** Once both events have been replayed, the schedule has emitted "ready". *)
Lemma drain_ready events s :
  (textureLoaded s && modelLoaded s = true -> readyEventEmitted s = true) ->
  (textureLoaded s = true \/ "textureLoaded" ∈ events) ->
  (modelLoaded s = true \/ "modelLoaded" ∈ events) ->
  readyEventEmitted (drain events s) = true.
Proof.
  revert s. induction events as [|event rest IH]; intros s Hinv Ht Hm; simpl.
  - destruct Ht as [Ht|Ht]; [|inversion Ht]. destruct Hm as [Hm|Hm]; [|inversion Hm].
    apply Hinv. rewrite Ht, Hm. reflexivity.
  - apply IH.
    + unfold fire_ready; simpl.
      destruct ((textureLoaded s || String.eqb event "textureLoaded")
                && (modelLoaded s || String.eqb event "modelLoaded")
                && negb (readyEventEmitted s)) eqn:Hfire; simpl.
      * intros _. reflexivity.
      * intros Hboth. rewrite Hboth in Hfire. simpl in Hfire.
        by apply negb_false_iff in Hfire.
    + assert (Hflag : textureLoaded (fire_ready (set_pending rest (emit_on_model event s)))
                      = textureLoaded s || String.eqb event "textureLoaded").
      { unfold fire_ready; simpl.
        destruct (_ && _ && _); simpl; rewrite ?orb_false_r; reflexivity. }
      rewrite Hflag. destruct Ht as [->|Ht]; [by left|].
      apply elem_of_cons in Ht as [<-|Ht]; [left | by right].
      rewrite String.eqb_refl. apply orb_true_r.
    + assert (Hflag : modelLoaded (fire_ready (set_pending rest (emit_on_model event s)))
                      = modelLoaded s || String.eqb event "modelLoaded").
      { unfold fire_ready; simpl.
        destruct (_ && _ && _); simpl; rewrite ?orb_false_r; reflexivity. }
      rewrite Hflag. destruct Hm as [->|Hm]; [by left|].
      apply elem_of_cons in Hm as [<-|Hm]; [left | by right].
      rewrite String.eqb_refl. apply orb_true_r.
Qed.

Lemma drain_chain_error events s : chain_error (drain events s) = chain_error s.
Proof.
  revert s. induction events as [|event rest IH]; intros s; simpl; [reflexivity|].
  rewrite IH. unfold fire_ready; simpl. by destruct (_ && _ && _).
Qed.

(** Whenever the chain resolves, the schedule ends with "load" emitted:
    successful runs exist for every source that the chain accepts. *)
Lemma setupLive2DModel_completes src opts :
  outcome_error (runMiddlewares live2DModelMiddlewares (initial_context src opts)) = None ->
  phase (Live2DFactory_setupLive2DModel src opts) = Loaded.
Proof.
  intros Hok.
  pose proof (chain_announces (initial_context src opts)) as Hann.
  unfold Live2DFactory_setupLive2DModel, start. cbv zeta.
  destruct (runMiddlewares live2DModelMiddlewares (initial_context src opts)) as [c|e c];
    [|discriminate Hok].
  destruct Hann as [Hm Ht]. cbn [outcome_context outcome_error pending].
  unfold finish. rewrite drain_chain_error. cbn [chain_error].
  assert (Hready : forall s, readyEventEmitted (set_phase AwaitingReady s) = readyEventEmitted s)
    by reflexivity.
  rewrite Hready, drain_ready; [reflexivity | discriminate | by right | by right].
Qed.

(** ** Failed setups, repeated events, progress *)

Definition untextured (c : Live2DFactoryContext) : Prop :=
  "textureLoaded" ∉ emitted (live2dModel c).

(** [k] emits no "textureLoaded". *)
Definition keeps_untextured (k : Live2DFactoryContext -> Outcome) : Prop :=
  forall c, untextured c -> untextured (outcome_context (k c)).

(** When [k] rejects, no "textureLoaded" has been emitted. *)
Definition rejects_untextured (k : Live2DFactoryContext -> Outcome) : Prop :=
  forall c, untextured c ->
    match k c with
    | Rejected _ c' => untextured c'
    | Resolved _ => True
    end.

Lemma untextured_emit event c :
  event <> "textureLoaded" -> untextured c -> untextured (emit event c).
Proof.
  intros Hne Hu. unfold untextured, emit; simpl.
  rewrite elem_of_app, list_elem_of_singleton. intros [Hin|Heq]; [by apply Hu | congruence].
Qed.

Lemma createInternalModel_untextured : keeps_untextured (fun c => createInternalModel c Resolved).
Proof.
  intros c Hu. unfold createInternalModel.
  destruct (settings c) as [s|]; [|exact Hu].
  destruct (ModelSettings.isModelSettings s); [|exact Hu].
  destruct (find_runtime s); [|exact Hu].
  destruct (load_arraybuffer _); exact Hu.
Qed.

Lemma setupLive2DModel_rejects_untextured next :
  keeps_untextured next -> rejects_untextured (fun c => setupLive2DModel c next).
Proof.
  intros Hn c Hu. unfold setupLive2DModel.
  destruct (settings c); [|exact Hu].
  specialize (Hn c Hu). destruct (next c) as [c'|e c']; simpl in Hn; [|exact Hn].
  destruct (internalModel c'); [|exact Hn].
  destruct (all_settled _); [exact I|].
  apply untextured_emit; [discriminate | exact Hn].
Qed.

Lemma setupOptionals_rejects_untextured next :
  rejects_untextured next -> rejects_untextured (fun c => setupOptionals c next).
Proof.
  intros Hn c Hu. unfold setupOptionals.
  specialize (Hn c Hu). destruct (next c) as [c'|e c']; [|exact Hn].
  destruct (internalModel c'); [|exact I].
  destruct (settings c') as [s|]; [|exact I].
  destruct (find_runtime s); exact I.
Qed.

Lemma waitUntilReady_rejects_untextured next :
  rejects_untextured next -> rejects_untextured (fun c => waitUntilReady c next).
Proof.
  intros Hn c Hu. unfold waitUntilReady.
  destruct (settings c) as [s|]; [|by apply Hn].
  destruct (find_runtime s) as [runtime|]; [|by apply Hn].
  destruct (Live2DRuntime.ready runtime); [exact Hu | by apply Hn].
Qed.

Lemma jsonToSettings_rejects_untextured next :
  rejects_untextured next -> rejects_untextured (fun c => jsonToSettings c next).
Proof.
  intros Hn c Hu. unfold jsonToSettings.
  destruct (source c); try exact Hu.
  - by apply Hn.
  - destruct (first_settings runtimes json); [|exact Hu].
    apply Hn. apply untextured_emit; [discriminate | exact Hu].
Qed.

Lemma urlToJSON_rejects_untextured next :
  rejects_untextured next -> rejects_untextured (fun c => urlToJSON c next).
Proof.
  intros Hn c Hu. unfold urlToJSON.
  destruct (source c); try (by apply Hn).
  destruct (load_json url); [|exact Hu].
  apply Hn. apply untextured_emit; [discriminate | exact Hu].
Qed.

Lemma chain_rejects_untextured : rejects_untextured (runMiddlewares live2DModelMiddlewares).
Proof.
  unfold live2DModelMiddlewares; simpl.
  apply urlToJSON_rejects_untextured, jsonToSettings_rejects_untextured,
    waitUntilReady_rejects_untextured, setupOptionals_rejects_untextured,
    setupLive2DModel_rejects_untextured, createInternalModel_untextured.
Qed.

Lemma start_rejected src opts e :
  chain_error (start src opts) = Some e -> "textureLoaded" ∉ pending (start src opts).
Proof.
  unfold start. cbn [chain_error pending]. intros He.
  pose proof (chain_rejects_untextured (initial_context src opts)) as Hq.
  destruct (runMiddlewares live2DModelMiddlewares (initial_context src opts)) as [c|e' c];
    [discriminate He|].
  apply Hq. unfold untextured; simpl. apply not_elem_of_nil.
Qed.

(** What holds all along a run whose chain rejects with [e]. *)
Definition failing (e : Error) (s : Setup) : Prop :=
  chain_error s = Some e /\
  ("textureLoaded" ∉ pending s) /\
  Forall chain_event (pending s) /\
  textureLoaded s = false /\
  ("ready" ∉ log s) /\ ("load" ∉ log s) /\
  (phase s = AwaitingMiddlewares \/ phase s = Failed e).

Lemma step_failing e s s' : failing e s -> step s s' -> failing e s'.
Proof.
  intros (He & Hnt & Hq & Ht & Hr & Hl & Hph) Hstep.
  destruct Hstep as [s event rest Hphase Hpend | s Htl Hml Hre | s Hphase Hpend Herr
                    | s e' Hphase Hpend Herr | s Hphase Hre].
  - rewrite Hpend in Hnt, Hq. apply not_elem_of_cons in Hnt as [Hne Hnt].
    apply Forall_cons in Hq as [[Hnr Hnl] Hq].
    unfold failing; simpl.
    split; [exact He|]. split; [exact Hnt|]. split; [exact Hq|].
    split; [|split; [|split]].
    + rewrite Ht. simpl. apply String.eqb_neq. congruence.
    + rewrite elem_of_app, list_elem_of_singleton. intros [Hin|Heq]; [by apply Hr | congruence].
    + rewrite elem_of_app, list_elem_of_singleton. intros [Hin|Heq]; [by apply Hl | congruence].
    + left. exact Hphase.
  - congruence.
  - congruence.
  - assert (e' = e) as -> by congruence.
    unfold failing; simpl. repeat split; try assumption. by right.
  - destruct Hph as [Hph|Hph]; congruence.
Qed.

Lemma steps_failing src opts e s :
  chain_error (start src opts) = Some e -> rtc step (start src opts) s -> failing e s.
Proof.
  intros He. revert s. apply rtc_ind_r.
  - split; [exact He|]. split; [by eapply start_rejected|].
    split; [apply start_pending_quiet|].
    unfold start; simpl. repeat split; try apply not_elem_of_nil. by left.
  - intros y z _ Hstep IH. by eapply step_failing.
Qed.

(** X10. When the middleware chain rejects, no run of
    [Live2DFactory.setupLive2DModel] emits "ready" or "load", at any moment:
    the run is still replaying the chain or has failed with the chain's
    error. *)
Theorem failed_setup_emits_neither_ready_nor_load
    (src : Source) (opts : Live2DFactoryOptions) (e : Error) (s : Setup) :
  outcome_error (runMiddlewares live2DModelMiddlewares (initial_context src opts)) = Some e ->
  rtc step (start src opts) s ->
  ("ready" ∉ log s) /\ ("load" ∉ log s) /\ ("textureLoaded" ∉ log s) /\
  (phase s = AwaitingMiddlewares \/ phase s = Failed e).
Proof.
  intros He Hsteps.
  assert (Hlog : forall s', rtc step (start src opts) s' ->
            ("textureLoaded" ∈ log s' -> textureLoaded s' = true)).
  { apply (rtc_ind_r (fun s' => "textureLoaded" ∈ log s' -> textureLoaded s' = true)).
    - unfold start; simpl. intros Hin. by apply not_elem_of_nil in Hin.
    - intros y z _ Hstep IH.
      destruct Hstep; simpl; rewrite ?elem_of_app, ?list_elem_of_singleton.
      + intros [Hin|Heq]; [rewrite (IH Hin); reflexivity|].
        rewrite <- Heq, String.eqb_refl. apply orb_true_r.
      + intros [Hin|Heq]; [rewrite (IH Hin); reflexivity | discriminate Heq].
      + exact IH.
      + exact IH.
      + intros [Hin|Heq]; [rewrite (IH Hin); reflexivity | discriminate Heq]. }
  destruct (steps_failing src opts e s He Hsteps) as (_ & _ & _ & Ht & Hr & Hl & Hph).
  split; [exact Hr|]. split; [exact Hl|]. split; [|exact Hph].
  intros Hin. rewrite (Hlog s Hsteps Hin) in Ht. discriminate Ht.
Qed.

Lemma count_snoc_other (l : list string) (e x : string) :
  e <> x -> count_occ string_dec (l ++ [e]) x = count_occ string_dec l x.
Proof.
  intros Hne. rewrite count_occ_app. simpl.
  destruct (string_dec e x); [contradiction | lia].
Qed.

Lemma count_snoc_same (l : list string) (x : string) :
  count_occ string_dec (l ++ [x]) x = S (count_occ string_dec l x).
Proof.
  rewrite count_occ_app. simpl. destruct (string_dec x x); [lia | contradiction].
Qed.

(** Each of the two events is in the log as often as its flag says. *)
Definition counted (s : Setup) : Prop :=
  Forall chain_event (pending s) /\
  count_occ string_dec (log s) "ready" = (if readyEventEmitted s then 1 else 0) /\
  count_occ string_dec (log s) "load"
  = (match phase s with Loaded => 1 | _ => 0 end).

Lemma step_counted s s' : counted s -> step s s' -> counted s'.
Proof.
  intros (Hq & Hr & Hl) Hstep.
  destruct Hstep as [s event rest Hphase Hpend | s Htl Hml Hre | s Hphase Hpend Herr
                    | s e' Hphase Hpend Herr | s Hphase Hre].
  - rewrite Hpend in Hq. apply Forall_cons in Hq as [[Hnr Hnl] Hq].
    unfold counted; simpl. rewrite !count_snoc_other by assumption.
    rewrite Hphase in *. done.
  - unfold counted; simpl. rewrite count_snoc_same, count_snoc_other by discriminate.
    rewrite Hre in Hr. rewrite Hr. done.
  - unfold counted; simpl. rewrite Hphase in Hl. done.
  - unfold counted; simpl. rewrite Hphase in Hl. done.
  - unfold counted; simpl. rewrite count_snoc_same, count_snoc_other by discriminate.
    rewrite Hphase in Hl. rewrite Hl. done.
Qed.

(** X11. No run of [Live2DFactory.setupLive2DModel] emits "ready" twice or
    "load" twice: "ready" is in the log once when the callback has run and
    not at all before, "load" once when the method has returned and not at
    all before. *)
Theorem ready_and_load_emitted_at_most_once
    (src : Source) (opts : Live2DFactoryOptions) (s : Setup) :
  rtc step (start src opts) s ->
  count_occ string_dec (log s) "ready" = (if readyEventEmitted s then 1 else 0) /\
  count_occ string_dec (log s) "load" = (match phase s with Loaded => 1 | _ => 0 end) /\
  count_occ string_dec (log s) "ready" <= 1 /\
  count_occ string_dec (log s) "load" <= 1.
Proof.
  intros Hsteps.
  assert (Hc : counted s).
  { revert s Hsteps. apply rtc_ind_r.
    - split; [apply start_pending_quiet|]. unfold start; simpl. done.
    - intros y z _ Hstep IH. by eapply step_counted. }
  destruct Hc as (_ & Hr & Hl). rewrite Hr, Hl.
  split; [reflexivity|]. split; [reflexivity|].
  split; [destruct (readyEventEmitted s); lia | destruct (phase s); lia].
Qed.

(** While the chain has not rejected, each of "modelLoaded" and
    "textureLoaded" has been replayed or is still to come. *)
Definition progressing (s : Setup) : Prop :=
  (chain_error s = None ->
   (textureLoaded s = true \/ "textureLoaded" ∈ pending s) /\
   (modelLoaded s = true \/ "modelLoaded" ∈ pending s)) /\
  (phase s = AwaitingReady -> pending s = [] /\ chain_error s = None).

Lemma start_progressing src opts : progressing (start src opts).
Proof.
  split; [|discriminate].
  unfold start. cbn [chain_error pending textureLoaded modelLoaded]. intros Hok.
  pose proof (chain_announces (initial_context src opts)) as Hann.
  destruct (runMiddlewares live2DModelMiddlewares (initial_context src opts)) as [c|e c];
    [|discriminate Hok].
  destruct Hann as [Hm Ht]. split; by right.
Qed.

Lemma step_progressing s s' : progressing s -> step s s' -> progressing s'.
Proof.
  intros [Hev Hph] Hstep.
  destruct Hstep as [s event rest Hphase Hpend | s Htl Hml Hre | s Hphase Hpend Herr
                    | s e' Hphase Hpend Herr | s Hphase Hre].
  - split; simpl; [|rewrite Hphase; discriminate].
    intros Hok. destruct (Hev Hok) as [Ht Hm]. rewrite Hpend in Ht, Hm. split.
    + destruct Ht as [->|Ht]; [by left|].
      apply elem_of_cons in Ht as [<-|Ht]; [left | by right].
      rewrite String.eqb_refl. apply orb_true_r.
    + destruct Hm as [->|Hm]; [by left|].
      apply elem_of_cons in Hm as [<-|Hm]; [left | by right].
      rewrite String.eqb_refl. apply orb_true_r.
  - split; simpl; [|exact Hph]. intros _. rewrite Htl, Hml. split; by left.
  - split; simpl; [exact Hev|]. intros _. done.
  - split; simpl; [exact Hev | discriminate].
  - split; simpl; [|discriminate].
    intros Hok. destruct (Hev Hok) as [Ht Hm]. rewrite !orb_false_r. done.
Qed.

Lemma steps_progressing src opts s : rtc step (start src opts) s -> progressing s.
Proof.
  revert s. apply rtc_ind_r.
  - apply start_progressing.
  - intros y z _ Hstep IH. by eapply step_progressing.
Qed.

(** The chain's events replayed while the "ready" callback is held back. *)
Fixpoint replay (events : list string) (s : Setup) : Setup :=
  match events with
  | [] => s
  | event :: rest => replay rest (set_pending rest (emit_on_model event s))
  end.

Lemma replay_steps events s :
  phase s = AwaitingMiddlewares -> pending s = events ->
  rtc step s (replay events s) /\
  phase (replay events s) = AwaitingMiddlewares /\ pending (replay events s) = [] /\
  chain_error (replay events s) = chain_error s /\
  readyEventEmitted (replay events s) = readyEventEmitted s.
Proof.
  revert s. induction events as [|event rest IH]; intros s Hph Hpend; simpl.
  - split; [apply rtc_refl | done].
  - destruct (IH (set_pending rest (emit_on_model event s)) Hph eq_refl)
      as (Hsteps & Hp & Hq & He & Hr).
    split; [|done].
    eapply rtc_l; [by apply step_chain_emits | exact Hsteps].
Qed.

(** X12. Once the middleware chain has resolved, the wait for
    [readyEventEmitted] ends in every run of
    [Live2DFactory.setupLive2DModel]: both [once] listeners have fired, so
    the "ready" callback runs if it has not run yet, then "load" is
    emitted and the method returns; no other step is possible from there.
    (That the loads of the chain settle is not part of this property: the
    chain is taken as settled.) *)
Theorem ready_wait_ends (src : Source) (opts : Live2DFactoryOptions) (s : Setup) :
  rtc step (start src opts) s ->
  phase s = AwaitingReady ->
  textureLoaded s = true /\ modelLoaded s = true /\
  (forall s1, step s s1 ->
     (readyEventEmitted s = false /\
      s1 = set_readyEventEmitted (emit_on_model "ready" s)) \/
     (readyEventEmitted s = true /\
      s1 = set_phase Loaded (emit_on_model "load" s))) /\
  (exists s', rtc step s s' /\ phase s' = Loaded /\ last (log s') = Some "load").
Proof.
  intros Hsteps Hphase.
  destruct (steps_progressing src opts s Hsteps) as [Hev Hph].
  destruct (Hph Hphase) as [Hpend Hok].
  destruct (Hev Hok) as [Ht Hm]. rewrite Hpend in Ht, Hm.
  destruct Ht as [Ht|Ht]; [|by apply not_elem_of_nil in Ht].
  destruct Hm as [Hm|Hm]; [|by apply not_elem_of_nil in Hm].
  split; [exact Ht|]. split; [exact Hm|]. split.
  - intros s1 Hstep.
    inversion Hstep as [s0 event rest Hp0 Hq0 | s0 Htl Hml Hre | s0 Hp0 Hq0 He0
                       | s0 e0 Hp0 Hq0 He0 | s0 Hp0 Hre]; subst; try congruence.
    + left. done.
    + right. done.
  - destruct (readyEventEmitted s) eqn:Hre.
    + exists (set_phase Loaded (emit_on_model "load" s)).
      split; [apply rtc_once; by apply step_load|].
      split; [reflexivity | apply last_snoc].
    + exists (set_phase Loaded (emit_on_model "load"
                (set_readyEventEmitted (emit_on_model "ready" s)))).
      split; [|split; [reflexivity | apply last_snoc]].
      eapply rtc_l; [by apply step_ready|].
      apply rtc_once. by apply step_load.
Qed.

(** X13. The schedule in which the "ready" callback runs as soon as it
    can ends with "load" emitted exactly when the middleware chain
    resolves, and otherwise fails with the chain's error. *)
Theorem setup_loads_iff_chain_resolves (src : Source) (opts : Live2DFactoryOptions) :
  let o := runMiddlewares live2DModelMiddlewares (initial_context src opts) in
  let s := Live2DFactory_setupLive2DModel src opts in
  (phase s = Loaded <-> outcome_error o = None) /\
  (forall e, phase s = Failed e <-> outcome_error o = Some e) /\
  (outcome_error o = None -> last (log s) = Some "load").
Proof.
  intros o s. subst o s.
  assert (Hfail : forall e,
    outcome_error (runMiddlewares live2DModelMiddlewares (initial_context src opts)) = Some e ->
    phase (Live2DFactory_setupLive2DModel src opts) = Failed e).
  { intros e He. unfold Live2DFactory_setupLive2DModel. cbv zeta.
    assert (Hce : chain_error (start src opts) = Some e) by exact He.
    unfold finish. rewrite drain_chain_error, Hce. reflexivity. }
  destruct (outcome_error (runMiddlewares live2DModelMiddlewares (initial_context src opts)))
    as [e|] eqn:Herr.
  - rewrite (Hfail e eq_refl). split; [|split].
    + split; intros Heq; discriminate Heq.
    + intros e'. split; intros Heq; congruence.
    + intros Heq; discriminate Heq.
  - pose proof (setupLive2DModel_completes src opts Herr) as Hloaded.
    rewrite Hloaded. split; [|split].
    + done.
    + intros e'. split; intros Heq; discriminate Heq.
    + intros _.
      destruct (steps_invariant _ _ _ (setupLive2DModel_is_a_run src opts))
        as (_ & _ & _ & _ & _ & _ & _ & Hl).
      by apply Hl.
Qed.

(** ** The optional files and the shape of a resolved chain *)

(** What one optional load adds to the model's events, and to the log of
    warnings. *)
Definition loaded_event (file : option string) (event : string) : list string :=
  match file with
  | Some path => match load_json path with inl _ => [event] | inr _ => [] end
  | None => []
  end.

Definition failed_warning (file : option string) (failure : string) : list string :=
  match file with
  | Some path => match load_json path with inl _ => [] | inr _ => [failure] end
  | None => []
  end.

Lemma load_optional_effect file create event failure im c :
  let r := load_optional file create event failure im c in
  emitted (live2dModel r.2) = emitted (live2dModel c) ++ loaded_event file event /\
  warned r.2 = warned c ++ failed_warning file failure /\
  internalModel_assigned (live2dModel r.2) = internalModel_assigned (live2dModel c) /\
  model_textures (live2dModel r.2) = model_textures (live2dModel c) /\
  settings r.2 = settings c /\ options r.2 = options c /\ source r.2 = source c.
Proof.
  unfold load_optional, loaded_event, failed_warning.
  destruct file as [path|]; simpl; [|by rewrite !app_nil_r].
  destruct (load_json path); simpl; by rewrite ?app_nil_r.
Qed.

Lemma load_optional_coreModel file create event failure im c :
  (forall data im', InternalModel.coreModel (create data im') = InternalModel.coreModel im') ->
  InternalModel.coreModel (load_optional file create event failure im c).1
  = InternalModel.coreModel im.
Proof.
  intros Hc. unfold load_optional.
  destruct file as [path|]; [|reflexivity].
  destruct (load_json path); simpl; [apply Hc | reflexivity].
Qed.

Lemma setupOptionals_outcome_error context next :
  outcome_error (setupOptionals context next) = outcome_error (next context).
Proof.
  unfold setupOptionals. destruct (next context) as [c'|e c']; [|reflexivity].
  destruct (internalModel c'); [|reflexivity].
  destruct (settings c') as [s|]; [|reflexivity].
  destruct (find_runtime s); reflexivity.
Qed.

Lemma setupOptionals_rejected context next e c' :
  next context = Rejected e c' -> setupOptionals context next = Rejected e c'.
Proof. intros Hn. unfold setupOptionals. rewrite Hn. reflexivity. Qed.

Lemma setupOptionals_resolved context next c' im s runtime :
  next context = Resolved c' -> internalModel c' = Some im ->
  settings c' = Some s -> find_runtime s = Some runtime ->
  exists c'' im'',
    setupOptionals context next = Resolved c'' /\
    internalModel c'' = Some im'' /\
    InternalModel.coreModel im'' = InternalModel.coreModel im /\
    emitted (live2dModel c'')
    = emitted (live2dModel c')
      ++ loaded_event (ModelSettings.pose s) "poseLoaded"
      ++ loaded_event (ModelSettings.physics s) "physicsLoaded" /\
    warned c''
    = warned c'
      ++ failed_warning (ModelSettings.pose s) "Failed to load pose."
      ++ failed_warning (ModelSettings.physics s) "Failed to load physics." /\
    model_textures (live2dModel c'') = model_textures (live2dModel c') /\
    internalModel_assigned (live2dModel c'') = internalModel_assigned (live2dModel c') /\
    settings c'' = Some s.
Proof.
  intros Hn Him Hs Hr.
  unfold setupOptionals. rewrite Hn, Him, Hs, Hr. cbv zeta.
  eexists _, _. split; [reflexivity|]. split; [reflexivity|].
  match goal with
  | |- context [load_optional (ModelSettings.pose s) ?cp ?ev ?fl im c'] =>
      pose proof (load_optional_effect (ModelSettings.pose s) cp ev fl im c') as H1;
      pose proof (load_optional_coreModel (ModelSettings.pose s) cp ev fl im c'
                    (fun _ _ => eq_refl)) as C1;
      set (r1 := load_optional (ModelSettings.pose s) cp ev fl im c') in *
  end.
  match goal with
  | |- context [load_optional (ModelSettings.physics s) ?cp ?ev ?fl (r1.1) (r1.2)] =>
      pose proof (load_optional_effect (ModelSettings.physics s) cp ev fl r1.1 r1.2) as H2;
      pose proof (load_optional_coreModel (ModelSettings.physics s) cp ev fl r1.1 r1.2
                    (fun _ _ => eq_refl)) as C2;
      set (r2 := load_optional (ModelSettings.physics s) cp ev fl r1.1 r1.2) in *
  end.
  cbv zeta in H1, H2.
  destruct H1 as (E1 & W1 & A1 & T1 & S1 & _ & _).
  destruct H2 as (E2 & W2 & A2 & T2 & S2 & _ & _).
  simpl. split; [congruence|].
  split; [rewrite E2, E1, <- app_assoc; reflexivity|].
  split; [rewrite W2, W1, <- app_assoc; reflexivity|].
  split; [congruence|]. split; congruence.
Qed.

(** X14. [setupOptionals] does not fail by itself: it rejects exactly when
    the rest of the chain does, with the same error.  When the rest
    resolves with an internal model of a registered runtime, each
    configured optional file (pose, physics) adds its event when it loads
    and one warning when it does not; settings, textures and core model
    stay as they were. *)
Theorem setupOptionals_never_fails_by_itself
    (context : Live2DFactoryContext) (next : Live2DFactoryContext -> Outcome) :
  outcome_error (setupOptionals context next) = outcome_error (next context) /\
  (forall c' im s runtime,
     next context = Resolved c' -> internalModel c' = Some im ->
     settings c' = Some s -> find_runtime s = Some runtime ->
     exists c'' im'',
       setupOptionals context next = Resolved c'' /\
       internalModel c'' = Some im'' /\
       InternalModel.coreModel im'' = InternalModel.coreModel im /\
       emitted (live2dModel c'')
       = emitted (live2dModel c')
         ++ loaded_event (ModelSettings.pose s) "poseLoaded"
         ++ loaded_event (ModelSettings.physics s) "physicsLoaded" /\
       warned c''
       = warned c'
         ++ failed_warning (ModelSettings.pose s) "Failed to load pose."
         ++ failed_warning (ModelSettings.physics s) "Failed to load physics." /\
       model_textures (live2dModel c'') = model_textures (live2dModel c') /\
       settings c'' = Some s).
Proof.
  split.
  - apply setupOptionals_outcome_error.
  - intros c' im s runtime Hn Him Hs Hr.
    destruct (setupOptionals_resolved context next c' im s runtime Hn Him Hs Hr)
      as (c'' & im'' & H1 & H2 & H3 & H4 & H5 & H6 & _ & H8).
    exists c'', im''. done.
Qed.

(** The events that announce the settings, by the kind of source. *)
Definition settings_events (src : Source) : list string :=
  match src with
  | SourceString _ => ["settingsJSONLoaded"; "settingsLoaded"]
  | SourceObject _ => ["settingsLoaded"]
  | _ => []
  end.

Lemma all_settled_length results xs : all_settled results = inl xs -> length xs = length results.
Proof.
  revert xs. induction results as [|[x|e] rest IH]; intros xs; simpl.
  - intros [= <-]. reflexivity.
  - destruct (all_settled rest) as [ys|e]; [|discriminate].
    intros [= <-]. simpl. f_equal. by apply IH.
  - discriminate.
Qed.

(** X15. When the middleware chain resolves, the context holds settings
    that a registered, ready runtime accepts; the internal model that this
    runtime made from the loaded model file is assigned to the display
    object, together with one texture per texture of the settings; and the
    events emitted are, in this order, those announcing the settings,
    "modelLoaded", "textureLoaded", then "poseLoaded" and "physicsLoaded"
    for the optional files that loaded. *)
Theorem resolved_chain_has_model_and_textures
    (src : Source) (opts : Live2DFactoryOptions) (c : Live2DFactoryContext) :
  runMiddlewares live2DModelMiddlewares (initial_context src opts) = Resolved c ->
  exists s runtime modelData texs im,
    settings c = Some s /\
    find_runtime s = Some runtime /\
    Live2DRuntime.ready runtime = None /\
    load_arraybuffer (ModelSettings.moc s) = inl modelData /\
    all_settled
      (List.map (fun tex => createTexture (ModelSettings.resolveURL s tex) (crossOrigin opts))
                (ModelSettings.textures s)) = inl texs /\
    length texs = length (ModelSettings.textures s) /\
    model_textures (live2dModel c) = Some texs /\
    internalModel_assigned (live2dModel c) = true /\
    internalModel c = Some im /\
    InternalModel.coreModel im
    = InternalModel.coreModel
        (Live2DRuntime.createInternalModel runtime
           (Live2DRuntime.createCoreModel runtime modelData) s opts) /\
    emitted (live2dModel c)
    = settings_events src ++ ["modelLoaded"; "textureLoaded"]
      ++ loaded_event (ModelSettings.pose s) "poseLoaded"
      ++ loaded_event (ModelSettings.physics s) "physicsLoaded".
Proof.
  revert c. unfold live2DModelMiddlewares, runMiddlewares.
  assert (Hinner : forall c0 s c,
    settings c0 = Some s ->
    setupOptionals c0 (fun c2 => setupLive2DModel c2 (fun c3 => createInternalModel c3 Resolved))
    = Resolved c ->
    exists runtime modelData texs im,
      settings c = Some s /\
      find_runtime s = Some runtime /\
      load_arraybuffer (ModelSettings.moc s) = inl modelData /\
      all_settled
        (List.map (fun tex => createTexture (ModelSettings.resolveURL s tex)
                                (crossOrigin (options c0)))
                  (ModelSettings.textures s)) = inl texs /\
      model_textures (live2dModel c) = Some texs /\
      internalModel_assigned (live2dModel c) = true /\
      internalModel c = Some im /\
      InternalModel.coreModel im
      = InternalModel.coreModel
          (Live2DRuntime.createInternalModel runtime
             (Live2DRuntime.createCoreModel runtime modelData) s (options c0)) /\
      emitted (live2dModel c)
      = emitted (live2dModel c0) ++ ["modelLoaded"; "textureLoaded"]
        ++ loaded_event (ModelSettings.pose s) "poseLoaded"
        ++ loaded_event (ModelSettings.physics s) "physicsLoaded").
  { intros c0 s c Hs Hres.
    destruct (setupLive2DModel c0 (fun c3 => createInternalModel c3 Resolved))
      as [c5|e c5] eqn:Hm.
    2:{ rewrite (setupOptionals_rejected c0 _ e c5 Hm) in Hres. discriminate Hres. }
    pose proof Hm as Hm0.
    unfold setupLive2DModel in Hm. rewrite Hs in Hm.
    unfold createInternalModel in Hm. rewrite Hs in Hm.
    destruct (ModelSettings.isModelSettings s) eqn:Hinst; [|discriminate Hm].
    destruct (find_runtime s) as [runtime|] eqn:Hr; [|discriminate Hm].
    destruct (load_arraybuffer (ModelSettings.moc s)) as [modelData|e] eqn:Hl;
      [|discriminate Hm].
    cbn [internalModel set_internalModel] in Hm.
    destruct (all_settled _) as [texs|e] eqn:Ht; [|discriminate Hm].
    injection Hm as Hc5.
    destruct (setupOptionals_resolved c0
                (fun c2 => setupLive2DModel c2 (fun c3 => createInternalModel c3 Resolved)) c5
                (Live2DRuntime.createInternalModel runtime
                   (Live2DRuntime.createCoreModel runtime modelData) s (options c0))
                s runtime Hm0 ltac:(subst c5; reflexivity) ltac:(subst c5; exact Hs) Hr)
      as (c'' & im'' & H1 & H2 & H3 & H4 & _ & H6 & H7 & H8).
    rewrite H1 in Hres. injection Hres as <-.
    exists runtime, modelData, texs, im''.
    split; [exact H8|]. split; [reflexivity|]. split; [reflexivity|].
    split; [reflexivity|].
    split; [rewrite H6; subst c5; reflexivity|].
    split; [rewrite H7; subst c5; reflexivity|].
    split; [exact H2|]. split; [exact H3|].
    rewrite H4. subst c5. simpl. rewrite <- !app_assoc. reflexivity. }
  assert (Hready : forall c0 s c,
    settings c0 = Some s ->
    waitUntilReady c0 (fun c1 => setupOptionals c1
      (fun c2 => setupLive2DModel c2 (fun c3 => createInternalModel c3 Resolved)))
    = Resolved c ->
    exists runtime,
      find_runtime s = Some runtime /\ Live2DRuntime.ready runtime = None /\
      setupOptionals c0
        (fun c2 => setupLive2DModel c2 (fun c3 => createInternalModel c3 Resolved))
      = Resolved c).
  { intros c0 s c Hs Hres.
    destruct (find_runtime s) as [runtime|] eqn:Hr.
    - exists runtime. unfold waitUntilReady in Hres. rewrite Hs, Hr in Hres.
      destruct (Live2DRuntime.ready runtime); [discriminate Hres | done].
    - exfalso. unfold waitUntilReady in Hres. rewrite Hs, Hr in Hres.
      destruct (Hinner c0 s c Hs Hres) as (runtime & _ & _ & _ & _ & Hr' & _). congruence. }
  assert (Hsettings : forall c0 s c,
    settings c0 = Some s -> options c0 = opts ->
    waitUntilReady c0 (fun c1 => setupOptionals c1
      (fun c2 => setupLive2DModel c2 (fun c3 => createInternalModel c3 Resolved)))
    = Resolved c ->
    exists runtime modelData texs im,
      settings c = Some s /\
      find_runtime s = Some runtime /\
      Live2DRuntime.ready runtime = None /\
      load_arraybuffer (ModelSettings.moc s) = inl modelData /\
      all_settled
        (List.map (fun tex => createTexture (ModelSettings.resolveURL s tex) (crossOrigin opts))
                  (ModelSettings.textures s)) = inl texs /\
      length texs = length (ModelSettings.textures s) /\
      model_textures (live2dModel c) = Some texs /\
      internalModel_assigned (live2dModel c) = true /\
      internalModel c = Some im /\
      InternalModel.coreModel im
      = InternalModel.coreModel
          (Live2DRuntime.createInternalModel runtime
             (Live2DRuntime.createCoreModel runtime modelData) s opts) /\
      emitted (live2dModel c)
      = emitted (live2dModel c0) ++ ["modelLoaded"; "textureLoaded"]
        ++ loaded_event (ModelSettings.pose s) "poseLoaded"
        ++ loaded_event (ModelSettings.physics s) "physicsLoaded").
  { intros c0 s c Hs Ho Hres.
    destruct (Hready c0 s c Hs Hres) as (runtime & Hr & Hrd & Hopt).
    destruct (Hinner c0 s c Hs Hopt)
      as (runtime' & modelData & texs & im & H1 & H2 & H3 & H4 & H5 & H6 & H7 & H8 & H9).
    assert (runtime' = runtime) as -> by congruence.
    rewrite Ho in H4, H8.
    exists runtime, modelData, texs, im.
    split; [exact H1|]. split; [exact Hr|]. split; [exact Hrd|]. split; [exact H3|].
    split; [exact H4|].
    split; [rewrite (all_settled_length _ _ H4); apply length_map|].
    done. }
  intros c Hres. unfold urlToJSON, jsonToSettings in Hres.
  destruct src as [url|s|json|]; cbn [source initial_context] in Hres.
  - destruct (load_json url) as [data|e]; [|discriminate Hres].
    cbn [source set_source emit set_live2dModel] in Hres.
    destruct (first_settings runtimes _) as [s|]; [|discriminate Hres].
    match type of Hres with
    | waitUntilReady ?c0 _ = _ =>
        destruct (Hsettings c0 s c eq_refl eq_refl Hres)
          as (runtime & modelData & texs & im & H)
    end.
    exists s, runtime, modelData, texs, im. exact H.
  - match type of Hres with
    | waitUntilReady ?c0 _ = _ =>
        destruct (Hsettings c0 s c eq_refl eq_refl Hres)
          as (runtime & modelData & texs & im & H)
    end.
    exists s, runtime, modelData, texs, im. exact H.
  - destruct (first_settings runtimes json) as [s|]; [|discriminate Hres].
    match type of Hres with
    | waitUntilReady ?c0 _ = _ =>
        destruct (Hsettings c0 s c eq_refl eq_refl Hres)
          as (runtime & modelData & texs & im & H)
    end.
    exists s, runtime, modelData, texs, im. exact H.
  - discriminate Hres.
Qed.

(** ** The errors of the chain *)

(** The errors that come from outside the chain: a failed load of the
    settings file, a runtime that fails to get ready, a failed load of the
    model file, a failed texture. *)
Definition external_error (e : Error) : Prop :=
  (exists url, load_json url = inr e) \/
  (exists runtime, runtime ∈ runtimes /\ Live2DRuntime.ready runtime = Some e) \/
  (exists path, load_arraybuffer path = inr e) \/
  (exists url crossOrigin, createTexture url crossOrigin = inr e).

Lemma all_settled_error results e :
  all_settled results = inr e -> inr e ∈ results.
Proof.
  induction results as [|[x|e'] rest IH]; simpl; [discriminate| |].
  - destruct (all_settled rest) as [xs|e'']; [discriminate|].
    intros [= <-]. apply list_elem_of_further. by apply IH.
  - intros [= <-]. apply list_elem_of_here.
Qed.

Lemma find_runtime_elem_of s runtime : find_runtime s = Some runtime -> runtime ∈ runtimes.
Proof.
  unfold find_runtime. intros Hf. apply List.find_some in Hf as [Hin _].
  by apply list_elem_of_In.
Qed.

(** X26. The chain rejects with an error of its own or with an error that
    came from outside (the loader, a runtime's [ready], [createTexture]).
    Its own errors are [TypeError("Unknown settings format.")] from
    [jsonToSettings], [TypeError("Unknown model settings.")] from
    [createInternalModel], and [TypeError("Missing settings.")] from
    [createInternalModel], the last one only when the settings that
    [jsonToSettings] stored are no instance of [ModelSettings].  The
    [throw] statements of the middleware [setupLive2DModel], "Missing
    settings." and "Missing internal model.", are not reached when the
    middlewares run as this chain. *)
Theorem chain_rejects_with_known_error
    (src : Source) (opts : Live2DFactoryOptions) (e : Error) :
  let o := runMiddlewares live2DModelMiddlewares (initial_context src opts) in
  outcome_error o = Some e ->
  e = TypeError "Unknown settings format." \/
  e = TypeError "Unknown model settings." \/
  (e = TypeError "Missing settings." /\
   exists s, settings (outcome_context o) = Some s /\
             ModelSettings.isModelSettings s = false) \/
  external_error e.
Proof.
  unfold live2DModelMiddlewares, runMiddlewares.
  set (known c :=
    e = TypeError "Unknown model settings." \/
    (e = TypeError "Missing settings." /\
     exists s, settings c = Some s /\ ModelSettings.isModelSettings s = false) \/
    external_error e).
  assert (Hinner : forall c0 s,
    settings c0 = Some s ->
    outcome_error (setupLive2DModel c0 (fun c3 => createInternalModel c3 Resolved)) = Some e ->
    known (outcome_context (setupLive2DModel c0 (fun c3 => createInternalModel c3 Resolved)))).
  { intros c0 s Hs. unfold setupLive2DModel. rewrite Hs.
    unfold createInternalModel. rewrite Hs.
    destruct (ModelSettings.isModelSettings s) eqn:Hinst.
    2:{ intros [= <-]. right. left. split; [reflexivity|]. by exists s. }
    destruct (find_runtime s) as [runtime|]; [|intros [= <-]; by left].
    destruct (load_arraybuffer (ModelSettings.moc s)) as [modelData|e'] eqn:Hl.
    2:{ intros [= <-]. right. right. right. right. left. by eexists. }
    cbn [internalModel set_internalModel].
    destruct (all_settled _) as [texs|e'] eqn:Ht; [discriminate|].
    intros [= <-]. right. right. right. right. right.
    apply all_settled_error, list_elem_of_fmap in Ht as (tex & Htex & _).
    eexists _, _. symmetry. exact Htex. }
  assert (Hopt : forall c0 s,
    settings c0 = Some s ->
    outcome_error
      (setupOptionals c0
         (fun c2 => setupLive2DModel c2 (fun c3 => createInternalModel c3 Resolved))) = Some e ->
    known (outcome_context
      (setupOptionals c0
         (fun c2 => setupLive2DModel c2 (fun c3 => createInternalModel c3 Resolved))))).
  { intros c0 s Hs. rewrite setupOptionals_outcome_error. intros He.
    pose proof (Hinner c0 s Hs He) as Hk.
    destruct (setupLive2DModel c0 (fun c3 => createInternalModel c3 Resolved))
      as [c5|e5 c5] eqn:Hm; [discriminate He|].
    rewrite (setupOptionals_rejected c0 _ e5 c5 Hm). exact Hk. }
  assert (Hready : forall c0 s,
    settings c0 = Some s ->
    outcome_error
      (waitUntilReady c0 (fun c1 => setupOptionals c1
         (fun c2 => setupLive2DModel c2 (fun c3 => createInternalModel c3 Resolved))))
    = Some e ->
    known (outcome_context
      (waitUntilReady c0 (fun c1 => setupOptionals c1
         (fun c2 => setupLive2DModel c2 (fun c3 => createInternalModel c3 Resolved)))))).
  { intros c0 s Hs. unfold waitUntilReady. rewrite Hs.
    destruct (find_runtime s) as [runtime|] eqn:Hr.
    - destruct (Live2DRuntime.ready runtime) as [e'|] eqn:Hrd.
      + intros [= <-]. right. right. right. left. exists runtime.
        split; [by eapply find_runtime_elem_of | exact Hrd].
      + by apply Hopt with s.
    - by apply Hopt with s. }
  unfold urlToJSON, jsonToSettings.
  destruct src as [url|s|json|]; cbn [source initial_context].
  - destruct (load_json url) as [data|e'] eqn:Hl.
    2:{ intros [= <-]. right. right. right. left. by eexists. }
    cbn [source set_source emit set_live2dModel].
    destruct (first_settings runtimes _) as [s|]; [|intros [= <-]; by left].
    intros He. right. eapply Hready; [|exact He]. reflexivity.
  - intros He. right. eapply Hready; [|exact He]. reflexivity.
  - destruct (first_settings runtimes json) as [s|]; [|intros [= <-]; by left].
    intros He. right. eapply Hready; [|exact He]. reflexivity.
  - intros [= <-]. by left.
Qed.

End Chain.

(** ** A registered runtime and a model that loads *)

Definition ref_settings : ModelSettings.t :=
  ModelSettings.mk "shizuku.model.json" "shizuku.moc" ["shizuku.1024/texture_00.png"]
    (Some "shizuku.pose.json") None (fun path => path) true.

(** A runtime that makes settings from the object numbered 2 and from no
    other. *)
Definition ref_runtime : Live2DRuntime.t :=
  Live2DRuntime.mk 2
    (fun json => if Nat.eqb (json_id json) 2 then Some ref_settings else None)
    (fun _ => true) None (fun _ => 1)
    (fun coreModel s _ => InternalModel.mk coreModel s None None)
    (fun _ _ => 5) (fun _ _ => 6).

Definition ref_load_json (url : string) : JSON + Error := inl (mkJSON 2 None).
Definition ref_load_arraybuffer (url : string) : list Z + Error := inl [109; 111; 99]%Z.
Definition ref_createTexture (url : string) (crossOrigin : option string) : nat + Error :=
  inl (String.length url).

Definition ref_setup (src : Source) : Setup :=
  Live2DFactory_setupLive2DModel [ref_runtime] ref_load_json ref_load_arraybuffer
    ref_createTexture src (mkOptions None).

(** Loading from a URL: the events in the order they are emitted. *)
Example ref_setup_log :
  log (ref_setup (SourceString "shizuku.model.json"))
  = ["settingsJSONLoaded"; "settingsLoaded"; "modelLoaded"; "textureLoaded"; "ready";
     "poseLoaded"; "load"] /\
  phase (ref_setup (SourceString "shizuku.model.json")) = Loaded.
Proof. vm_compute. split; reflexivity. Qed.

(** A source that is no object, and an object no runtime accepts: the
    chain rejects and neither "ready" nor "load" is emitted. *)
Example ref_setup_unknown_format :
  ref_setup SourceOther
  = mkSetup [] [] (Some (TypeError "Unknown settings format.")) false false false
      (Failed (TypeError "Unknown settings format.")) /\
  phase (ref_setup (SourceObject (mkJSON 4 None)))
  = Failed (TypeError "Unknown settings format.").
Proof. vm_compute. split; reflexivity. Qed.

Lemma ready_follows_modelLoaded_and_textureLoaded_witness :
  "modelLoaded" ∈ log (ref_setup (SourceString "shizuku.model.json")) /\
  "textureLoaded" ∈ log (ref_setup (SourceString "shizuku.model.json")) /\
  "ready" ∈ log (ref_setup (SourceString "shizuku.model.json")) /\
  last (log (ref_setup (SourceString "shizuku.model.json"))) = Some "load".
Proof.
  apply (ready_follows_modelLoaded_and_textureLoaded
           [ref_runtime] ref_load_json ref_load_arraybuffer ref_createTexture
           (SourceString "shizuku.model.json") (mkOptions None)).
  - apply setupLive2DModel_is_a_run.
  - vm_compute. reflexivity.
Defined.

(** A texture loader that fails: the chain rejects after "modelLoaded". *)
Definition failing_createTexture (url : string) (crossOrigin : option string) : nat + Error :=
  inr (OtherError "404").

Lemma failed_setup_emits_neither_ready_nor_load_witness :
  let s := Live2DFactory_setupLive2DModel [ref_runtime] ref_load_json ref_load_arraybuffer
             failing_createTexture (SourceString "shizuku.model.json") (mkOptions None) in
  log s = ["settingsJSONLoaded"; "settingsLoaded"; "modelLoaded"] /\
  ("ready" ∉ log s) /\ ("load" ∉ log s) /\ ("textureLoaded" ∉ log s) /\
  (phase s = AwaitingMiddlewares \/ phase s = Failed (OtherError "404")).
Proof.
  split; [vm_compute; reflexivity|].
  apply (failed_setup_emits_neither_ready_nor_load
           [ref_runtime] ref_load_json ref_load_arraybuffer failing_createTexture
           (SourceString "shizuku.model.json") (mkOptions None) (OtherError "404")).
  - vm_compute. reflexivity.
  - apply setupLive2DModel_is_a_run.
Defined.

Lemma ready_and_load_emitted_at_most_once_witness :
  count_occ string_dec (log (ref_setup (SourceString "shizuku.model.json"))) "ready" <= 1 /\
  count_occ string_dec (log (ref_setup (SourceString "shizuku.model.json"))) "load" <= 1.
Proof.
  apply (ready_and_load_emitted_at_most_once
           [ref_runtime] ref_load_json ref_load_arraybuffer ref_createTexture
           (SourceString "shizuku.model.json") (mkOptions None)).
  apply setupLive2DModel_is_a_run.
Defined.

(** The run of the reference model in which the "ready" callback has not
    run when the chain resolves. *)
Definition ref_waiting : Setup :=
  let s := start [ref_runtime] ref_load_json ref_load_arraybuffer ref_createTexture
             (SourceString "shizuku.model.json") (mkOptions None) in
  set_phase AwaitingReady (replay (pending s) s).

Lemma ref_waiting_reachable :
  rtc step
    (start [ref_runtime] ref_load_json ref_load_arraybuffer ref_createTexture
       (SourceString "shizuku.model.json") (mkOptions None))
    ref_waiting.
Proof.
  unfold ref_waiting. cbv zeta.
  set (s := start [ref_runtime] ref_load_json ref_load_arraybuffer ref_createTexture
              (SourceString "shizuku.model.json") (mkOptions None)).
  destruct (replay_steps (pending s) s eq_refl eq_refl) as (Hsteps & Hp & Hq & He & _).
  eapply rtc_r; [exact Hsteps|].
  apply step_chain_resolves; [exact Hp | exact Hq |]. rewrite He. reflexivity.
Qed.

Lemma ready_wait_ends_witness :
  phase ref_waiting = AwaitingReady /\
  readyEventEmitted ref_waiting = false /\
  textureLoaded ref_waiting = true /\ modelLoaded ref_waiting = true /\
  (exists s', rtc step ref_waiting s' /\ phase s' = Loaded /\ last (log s') = Some "load").
Proof.
  split; [reflexivity|]. split; [reflexivity|].
  destruct (ready_wait_ends
              [ref_runtime] ref_load_json ref_load_arraybuffer ref_createTexture
              (SourceString "shizuku.model.json") (mkOptions None) ref_waiting
              ref_waiting_reachable eq_refl) as (Ht & Hm & _ & Hex).
  split; [exact Ht|]. split; [exact Hm | exact Hex].
Defined.

Lemma resolved_chain_has_model_and_textures_witness :
  let c := outcome_context
             (runMiddlewares
                (live2DModelMiddlewares [ref_runtime] ref_load_json ref_load_arraybuffer
                   ref_createTexture)
                (initial_context (SourceString "shizuku.model.json") (mkOptions None))) in
  exists s runtime modelData texs im,
    settings c = Some s /\
    find_runtime [ref_runtime] s = Some runtime /\
    Live2DRuntime.ready runtime = None /\
    ref_load_arraybuffer (ModelSettings.moc s) = inl modelData /\
    all_settled
      (List.map (fun tex => ref_createTexture (ModelSettings.resolveURL s tex) None)
                (ModelSettings.textures s)) = inl texs /\
    length texs = length (ModelSettings.textures s) /\
    model_textures (live2dModel c) = Some texs /\
    internalModel_assigned (live2dModel c) = true /\
    internalModel c = Some im /\
    InternalModel.coreModel im
    = InternalModel.coreModel
        (Live2DRuntime.createInternalModel runtime
           (Live2DRuntime.createCoreModel runtime modelData) s (mkOptions None)) /\
    emitted (live2dModel c)
    = ["settingsJSONLoaded"; "settingsLoaded"] ++ ["modelLoaded"; "textureLoaded"]
      ++ loaded_event ref_load_json (ModelSettings.pose s) "poseLoaded"
      ++ loaded_event ref_load_json (ModelSettings.physics s) "physicsLoaded".
Proof.
  apply (resolved_chain_has_model_and_textures
           [ref_runtime] ref_load_json ref_load_arraybuffer ref_createTexture
           (SourceString "shizuku.model.json") (mkOptions None)).
  vm_compute. reflexivity.
Defined.

(** A runtime whose [createModelSettings] returns an object that is no
    instance of [ModelSettings]. *)
Definition foreign_settings : ModelSettings.t :=
  ModelSettings.mk "shizuku.model.json" "shizuku.moc" [] None None (fun path => path) false.

Definition foreign_runtime : Live2DRuntime.t :=
  Live2DRuntime.mk 2 (fun _ => Some foreign_settings) (fun _ => true) None (fun _ => 1)
    (fun coreModel s _ => InternalModel.mk coreModel s None None)
    (fun _ _ => 5) (fun _ _ => 6).

(** With that runtime the chain reaches the [throw] of
    [createInternalModel]. *)
Lemma chain_rejects_with_known_error_witness :
  let o := runMiddlewares
             (live2DModelMiddlewares [foreign_runtime] ref_load_json ref_load_arraybuffer
                ref_createTexture)
             (initial_context (SourceObject (mkJSON 2 None)) (mkOptions None)) in
  outcome_error o = Some (TypeError "Missing settings.") /\
  (TypeError "Missing settings." = TypeError "Unknown settings format." \/
   TypeError "Missing settings." = TypeError "Unknown model settings." \/
   (TypeError "Missing settings." = TypeError "Missing settings." /\
    exists s, settings (outcome_context o) = Some s /\
              ModelSettings.isModelSettings s = false) \/
   external_error [foreign_runtime] ref_load_json ref_load_arraybuffer ref_createTexture
     (TypeError "Missing settings.")).
Proof.
  split; [vm_compute; reflexivity|].
  apply (chain_rejects_with_known_error
           [foreign_runtime] ref_load_json ref_load_arraybuffer ref_createTexture
           (SourceObject (mkJSON 2 None)) (mkOptions None)).
  vm_compute. reflexivity.
Defined.

(** ** [Live2DFactory.registerRuntime] *)

(** [Array.prototype.sort] with the comparator [(a, b) => b.version - a.version]:
    a stable sort by version, highest first.  [insert_runtime] puts a
    runtime behind those of a higher version and before the others. *)
Fixpoint insert_runtime (runtime : Live2DRuntime.t) (sorted : list Live2DRuntime.t)
    : list Live2DRuntime.t :=
  match sorted with
  | [] => [runtime]
  | other :: rest =>
      if (Live2DRuntime.version runtime <? Live2DRuntime.version other)%Z
      then other :: insert_runtime runtime rest
      else runtime :: other :: rest
  end.

Definition sort_by_version (rs : list Live2DRuntime.t) : list Live2DRuntime.t :=
  foldr insert_runtime [] rs.

(** [runtimes.push(runtime)] and then the sort. *)
Definition registerRuntime (runtimes : list Live2DRuntime.t) (runtime : Live2DRuntime.t)
    : list Live2DRuntime.t :=
  sort_by_version (runtimes ++ [runtime]).

(** The lists of runtimes that calls of [registerRuntime] build. *)
Inductive registered : list Live2DRuntime.t -> Prop :=
| registered_none : registered []
| registered_more runtimes runtime :
    registered runtimes -> registered (registerRuntime runtimes runtime).

(** Higher versions first. *)
Definition by_version (a b : Live2DRuntime.t) : Prop :=
  (Live2DRuntime.version b <= Live2DRuntime.version a)%Z.

Lemma insert_runtime_Permutation runtime rs : insert_runtime runtime rs ≡ₚ runtime :: rs.
Proof.
  induction rs as [|other rest IH]; simpl; [reflexivity|].
  destruct (Live2DRuntime.version runtime <? Live2DRuntime.version other)%Z; [|reflexivity].
  rewrite IH. apply Permutation_swap.
Qed.

Lemma sort_by_version_Permutation rs : sort_by_version rs ≡ₚ rs.
Proof.
  induction rs as [|r rs IH]; simpl; [reflexivity|].
  rewrite insert_runtime_Permutation. by constructor.
Qed.

Lemma insert_runtime_sorted runtime rs :
  StronglySorted by_version rs -> StronglySorted by_version (insert_runtime runtime rs).
Proof.
  induction rs as [|other rest IH]; intros Hs; simpl.
  - repeat constructor.
  - apply StronglySorted_inv in Hs as [Hrest Hall].
    destruct (Z.ltb_spec (Live2DRuntime.version runtime) (Live2DRuntime.version other))
      as [Hlt|Hge].
    + constructor; [by apply IH|].
      rewrite insert_runtime_Permutation. constructor; [|exact Hall].
      unfold by_version. lia.
    + constructor; [by constructor|].
      constructor; [exact Hge|].
      eapply Forall_impl; [exact Hall|]. unfold by_version. intros x Hx. lia.
Qed.

Lemma sort_by_version_sorted rs : StronglySorted by_version (sort_by_version rs).
Proof.
  induction rs as [|r rs IH]; simpl; [constructor | by apply insert_runtime_sorted].
Qed.

Lemma insert_runtime_front runtime rs :
  Forall (by_version runtime) rs -> insert_runtime runtime rs = runtime :: rs.
Proof.
  destruct rs as [|other rest]; [reflexivity|]. intros Hall.
  apply Forall_cons in Hall as [Hle _]. simpl.
  destruct (Z.ltb_spec (Live2DRuntime.version runtime) (Live2DRuntime.version other));
    [unfold by_version in Hle; lia | reflexivity].
Qed.

Lemma Forall_List_filter {A : Type} (P : A -> Prop) (f : A -> bool) (l : list A) :
  Forall P l -> Forall P (List.filter f l).
Proof.
  induction 1 as [|x l Hx _ IH]; simpl; [constructor|].
  destruct (f x); [by constructor | exact IH].
Qed.

(** Sorting a sorted list with one more runtime pushed at its end. *)
Lemma sort_by_version_push rs runtime :
  StronglySorted by_version rs ->
  sort_by_version (rs ++ [runtime])
  = List.filter (fun r => (Live2DRuntime.version runtime <=? Live2DRuntime.version r)%Z) rs
    ++ runtime
    :: List.filter (fun r => (Live2DRuntime.version r <? Live2DRuntime.version runtime)%Z) rs.
Proof.
  induction rs as [|x rest IH]; intros Hs; [reflexivity|].
  apply StronglySorted_inv in Hs as [Hrest Hall]. simpl.
  change (foldr insert_runtime [] (rest ++ [runtime])) with (sort_by_version (rest ++ [runtime])).
  rewrite (IH Hrest).
  destruct (Z.leb_spec (Live2DRuntime.version runtime) (Live2DRuntime.version x)) as [Hle|Hgt].
  - destruct (Z.ltb_spec (Live2DRuntime.version x) (Live2DRuntime.version runtime)); [lia|].
    simpl. apply insert_runtime_front.
    apply Forall_app. split; [|constructor].
    + by apply Forall_List_filter.
    + exact Hle.
    + by apply Forall_List_filter.
  - destruct (Z.ltb_spec (Live2DRuntime.version x) (Live2DRuntime.version runtime)); [|lia].
    assert (Hfilter :
      List.filter (fun r => (Live2DRuntime.version runtime <=? Live2DRuntime.version r)%Z) rest
      = [] /\
      List.filter (fun r => (Live2DRuntime.version r <? Live2DRuntime.version runtime)%Z) rest
      = rest).
    { clear IH Hrest. induction Hall as [|y rest' Hy _ IH']; [done|]. simpl.
      unfold by_version in Hy. destruct IH' as [-> ->].
      destruct (Z.leb_spec (Live2DRuntime.version runtime) (Live2DRuntime.version y)); [lia|].
      destruct (Z.ltb_spec (Live2DRuntime.version y) (Live2DRuntime.version runtime)); [|lia].
      done. }
    destruct Hfilter as [-> ->]. simpl.
    destruct (Z.ltb_spec (Live2DRuntime.version x) (Live2DRuntime.version runtime)); [|lia].
    f_equal. by apply insert_runtime_front.
Qed.

Lemma registered_sorted rs : registered rs -> StronglySorted by_version rs.
Proof. destruct 1; [constructor | apply sort_by_version_sorted]. Qed.

(** X16. [registerRuntime] keeps every runtime registered so far and adds
    the new one; the list stays ordered by version, highest first; and in
    a list that was built by [registerRuntime] the new runtime is placed
    behind all runtimes of its own or a higher version and before all of a
    lower one, the order of the others being kept. *)
Theorem registerRuntime_orders_by_version
    (runtimes : list Live2DRuntime.t) (runtime : Live2DRuntime.t) :
  registered runtimes ->
  registerRuntime runtimes runtime ≡ₚ runtime :: runtimes /\
  StronglySorted by_version (registerRuntime runtimes runtime) /\
  registerRuntime runtimes runtime
  = List.filter (fun r => (Live2DRuntime.version runtime <=? Live2DRuntime.version r)%Z)
      runtimes
    ++ runtime
    :: List.filter (fun r => (Live2DRuntime.version r <? Live2DRuntime.version runtime)%Z)
         runtimes.
Proof.
  intros Hreg. split; [|split].
  - unfold registerRuntime. rewrite sort_by_version_Permutation.
    symmetry. apply Permutation_cons_append.
  - apply sort_by_version_sorted.
  - apply sort_by_version_push, registered_sorted, Hreg.
Qed.

Lemma first_settings_sorted rs json s :
  StronglySorted by_version rs -> first_settings rs json = Some s ->
  exists runtime,
    runtime ∈ rs /\ Live2DRuntime.createModelSettings runtime json = Some s /\
    forall other, other ∈ rs -> is_Some (Live2DRuntime.createModelSettings other json) ->
      (Live2DRuntime.version other <= Live2DRuntime.version runtime)%Z.
Proof.
  induction rs as [|r rest IH]; intros Hs; simpl; [discriminate|].
  apply StronglySorted_inv in Hs as [Hrest Hall].
  destruct (Live2DRuntime.createModelSettings r json) as [s'|] eqn:Hr.
  - intros [= <-]. exists r. split; [apply list_elem_of_here|]. split; [exact Hr|].
    intros other Hin _. apply elem_of_cons in Hin as [->|Hin]; [lia|].
    by apply (proj1 (Forall_forall _ _) Hall).
  - intros Hf. destruct (IH Hrest Hf) as (runtime & Hin & Hc & Hmax).
    exists runtime. split; [by apply list_elem_of_further|]. split; [exact Hc|].
    intros other Ho [s' Hs']. apply elem_of_cons in Ho as [->|Ho]; [congruence|].
    apply Hmax; [exact Ho | by exists s'].
Qed.

(** X17. Higher version, higher priority: over runtimes registered with
    [registerRuntime], the settings that [jsonToSettings] takes for a JSON
    object are those made by a runtime whose version is the highest among
    the runtimes that accept the object, and the runtime that
    [waitUntilReady] and [createInternalModel] find for given settings has
    the highest version among those whose [test] accepts them. *)
Theorem highest_version_runtime_wins
    (runtimes : list Live2DRuntime.t) (json : JSON) (s : ModelSettings.t) :
  registered runtimes ->
  (first_settings runtimes json = Some s ->
   exists runtime,
     runtime ∈ runtimes /\ Live2DRuntime.createModelSettings runtime json = Some s /\
     forall other, other ∈ runtimes ->
       is_Some (Live2DRuntime.createModelSettings other json) ->
       (Live2DRuntime.version other <= Live2DRuntime.version runtime)%Z) /\
  (forall runtime, find_runtime runtimes s = Some runtime ->
     runtime ∈ runtimes /\ Live2DRuntime.test runtime s = true /\
     forall other, other ∈ runtimes -> Live2DRuntime.test other s = true ->
       (Live2DRuntime.version other <= Live2DRuntime.version runtime)%Z).
Proof.
  intros Hreg. apply registered_sorted in Hreg. split.
  - by apply first_settings_sorted.
  - unfold find_runtime. induction runtimes as [|r rest IH]; simpl; [discriminate|].
    apply StronglySorted_inv in Hreg as [Hrest Hall].
    intros runtime. destruct (Live2DRuntime.test r s) eqn:Hr.
    + intros [= <-]. split; [apply list_elem_of_here|]. split; [exact Hr|].
      intros other Hin _. apply elem_of_cons in Hin as [->|Hin]; [lia|].
      by apply (proj1 (Forall_forall _ _) Hall).
    + intros Hf. destruct (IH Hrest runtime Hf) as (Hin & Ht & Hmax).
      split; [by apply list_elem_of_further|]. split; [exact Ht|].
      intros other Ho Hto. apply elem_of_cons in Ho as [->|Ho]; [congruence|].
      by apply Hmax.
Qed.

(** A runtime of version 4 for the same files, registered first. *)
Definition ref_runtime4 : Live2DRuntime.t :=
  Live2DRuntime.mk 4
    (fun json => if Nat.eqb (json_id json) 4 then Some ref_settings else None)
    (fun _ => true) None (fun _ => 1)
    (fun coreModel s _ => InternalModel.mk coreModel s None None)
    (fun _ _ => 5) (fun _ _ => 6).

Lemma registerRuntime_orders_by_version_witness :
  registered (registerRuntime [] ref_runtime) /\
  registerRuntime (registerRuntime [] ref_runtime) ref_runtime4 = [ref_runtime4; ref_runtime].
Proof.
  assert (Hreg : registered (registerRuntime [] ref_runtime))
    by (apply registered_more, registered_none).
  split; [exact Hreg|].
  exact (proj2 (proj2 (registerRuntime_orders_by_version _ ref_runtime4 Hreg))).
Defined.

Lemma highest_version_runtime_wins_witness :
  exists runtime,
    find_runtime (registerRuntime (registerRuntime [] ref_runtime) ref_runtime4) ref_settings
    = Some runtime /\
    Live2DRuntime.version runtime = 4%Z /\
    forall other,
      other ∈ registerRuntime (registerRuntime [] ref_runtime) ref_runtime4 ->
      Live2DRuntime.test other ref_settings = true ->
      (Live2DRuntime.version other <= Live2DRuntime.version runtime)%Z.
Proof.
  exists ref_runtime4. split; [reflexivity|]. split; [reflexivity|].
  apply (proj2 (highest_version_runtime_wins
                  (registerRuntime (registerRuntime [] ref_runtime) ref_runtime4)
                  (mkJSON 2 None) ref_settings
                  (registered_more _ _ (registered_more _ _ registered_none)))
           ref_runtime4 eq_refl).
Defined.

End SetupModel.
